(** * corobus: a bounded multi-channel message bus for coroutines

    Shallow embedding of [src/1/corobus.cpp] and the properties of the
    bus stated over it.

    Conventions of the embedding.
    - C integers are [Z] with the conversions written out: [size_t] and
      [unsigned long long] are 64 bits wide, [unsigned] and [int] are 32
      bits wide (LP64, the data model of the platforms libcoro runs on).
    - [std::deque<unsigned>] is a [list Z]: [push_back] appends at the
      tail, [front]/[pop_front] take the head.
    - A [wakeup_queue] is the list of the coroutines whose
      [wakeup_entry] is linked into it, head first.
    - The process holds one bus object; a [struct coro_bus *] argument is
      either [NULL] or the address of that object ([BUS]).
    - [coro_wakeup] belongs to the scheduler, which is not part of the
      file: the embedding records the calls, in order, in [woken].
    - A blocking operation is cut at [coro_suspend()]: the code from the
      entry of the call up to the suspension is one atomic segment, the
      code from the resumption up to the next suspension or [return] is
      another.
    - [NEED_BROADCAST] and [NEED_BATCH] are on: the broadcast and the
      vector operations are part of the program. *)

From stdpp Require Import base numbers list.

Local Open Scope Z_scope.

(** ** Machine integers *)

Definition SIZE_BITS : Z := 64.
Definition UINT_BITS : Z := 32.

(** conversion to [size_t] / [unsigned long long] *)
Definition to_size_t (x : Z) : Z := x mod 2 ^ SIZE_BITS.
(** conversion to [unsigned] *)
Definition to_unsigned (x : Z) : Z := x mod 2 ^ UINT_BITS.
(** conversion of an [unsigned] to [int] (two's complement) *)
Definition to_int (x : Z) : Z :=
  if x mod 2 ^ UINT_BITS <? 2 ^ (UINT_BITS - 1)
  then x mod 2 ^ UINT_BITS
  else x mod 2 ^ UINT_BITS - 2 ^ UINT_BITS.

Definition is_size_t (x : Z) : Prop := 0 <= x < 2 ^ SIZE_BITS.
Definition is_unsigned (x : Z) : Prop := 0 <= x < 2 ^ UINT_BITS.

(** ** Data model *)

(** [struct coro *]: the identity of a coroutine. *)
Definition coro := nat.

(** Modelled from the spec: the enumeration [coro_bus_error_code] is
    declared in [corobus.h], which is not among the sources; the spec
    lists its values as NONE = 0, NO_CHANNEL, WOULD_BLOCK. *)
Inductive coro_bus_error_code : Set :=
| CORO_BUS_ERR_NONE
| CORO_BUS_ERR_NO_CHANNEL
| CORO_BUS_ERR_WOULD_BLOCK.

Record coro_bus_channel : Set := mk_channel {
  (** Channel max capacity. *)
  size_limit : Z;
  (** Coroutines waiting until the channel is not full. *)
  send_queue : list coro;
  (** Coroutines waiting until the channel is not empty. *)
  recv_queue : list coro;
  (** Message queue. *)
  data : list Z
}.

(** [channels[i]] is [None] for a NULL slot; [channel_count] is the
    common length of the two arrays. *)
Record coro_bus : Set := mk_bus {
  channels : list (option coro_bus_channel);
  channel_gens : list Z
}.

Definition channel_count (b : coro_bus) : Z := Z.of_nat (length (channels b)).

Record world : Set := mk_world {
  bus : coro_bus;
  (** [static enum coro_bus_error_code global_error] *)
  global_error : coro_bus_error_code;
  (** the calls of [coro_wakeup], oldest first *)
  woken : list coro
}.

Inductive bus_ptr : Set := NULL | BUS.

(** Which of the two queues of a channel a [struct wakeup_queue *]
    points to. *)
Inductive queue_sel : Set := SendQ | RecvQ.

Definition queue_of (q : queue_sel) (ch : coro_bus_channel) : list coro :=
  match q with SendQ => send_queue ch | RecvQ => recv_queue ch end.

Definition with_queue (q : queue_sel) (l : list coro) (ch : coro_bus_channel)
  : coro_bus_channel :=
  match q with
  | SendQ => mk_channel (size_limit ch) l (recv_queue ch) (data ch)
  | RecvQ => mk_channel (size_limit ch) (send_queue ch) l (data ch)
  end.

Definition with_data (d : list Z) (ch : coro_bus_channel) : coro_bus_channel :=
  mk_channel (size_limit ch) (send_queue ch) (recv_queue ch) d.

(** ** The state monad of the operations *)

Definition M (A : Type) : Type := world -> A * world.

#[global] Instance M_ret : MRet M := fun A (a : A) w => (a, w).

#[global] Instance M_bind : MBind M :=
  fun A B (k : A -> M B) (m : M A) w => let (a, w') := m w in k a w'.

Definition ret {A} (a : A) : M A := mret a.

Definition get_bus : M coro_bus := fun w => (bus w, w).

Definition put_bus (b : coro_bus) : M unit :=
  fun w => (tt, mk_world b (global_error w) (woken w)).

(** The slot [i] of the table: [None] when it is NULL (or out of the
    array). *)
Definition slot (i : nat) (b : coro_bus) : option coro_bus_channel :=
  default None (channels b !! i).

Definition channel_at (i : nat) : M (option coro_bus_channel) :=
  fun w => (slot i (bus w), w).

(** A write through a [struct coro_bus_channel *] that points to the
    channel of slot [i]. *)
Definition on_channel (i : nat) (f : coro_bus_channel -> coro_bus_channel)
  : M unit :=
  fun w =>
    (tt, mk_world (mk_bus (alter (fmap f) i (channels (bus w)))
                          (channel_gens (bus w)))
                  (global_error w) (woken w)).

(** ** Scheduler interface *)

(** Modelled from the spec: [coro_wakeup], [coro_this] and
    [coro_suspend] are declared in [libcoro.h], which is not among the
    sources. The spec says that waking a task only marks it runnable, so
    a call of [coro_wakeup] is recorded and has no other effect on the
    bus; [coro_this()] is the argument [this] of the segments of a
    blocking call, and [coro_suspend()] is where such a call is cut. *)
Definition coro_wakeup (c : coro) : M unit :=
  fun w => (tt, mk_world (bus w) (global_error w) (woken w ++ [c])).

(** ** Error slot *)

Definition coro_bus_errno : M coro_bus_error_code :=
  fun w => (global_error w, w).

Definition coro_bus_errno_set (err : coro_bus_error_code) : M unit :=
  fun w => (tt, mk_world (bus w) err (woken w)).

(** ** Wakeup queues *)

(** Modelled from the spec: the list primitives of [rlist.h], which is
    not among the sources. The spec describes a wait queue as an ordered
    list of tokens with push at the tail and pop at the head; an entry
    is the coroutine it belongs to, [rlist_empty] and
    [rlist_first_entry] are the pattern matching on the list. *)
Definition rlist_add_tail_entry (coros : list coro) (entry : coro)
  : list coro := coros ++ [entry].

(** Modelled from the spec: [rlist_del_entry] of [rlist.h] takes the
    entry out of the list it is linked into, if any. *)
Definition rlist_del_entry (coros : list coro) (entry : coro) : list coro :=
  filter (fun c => c <> entry) coros.

(** [wakeup_queue_suspend_this], up to [coro_suspend()]: the entry of
    the running coroutine [this] is linked at the tail. *)
Definition wakeup_queue_suspend_this_link (i : nat) (q : queue_sel)
    (this : coro) : M unit :=
  on_channel i
    (fun ch => with_queue q (rlist_add_tail_entry (queue_of q ch) this) ch).

(** [wakeup_queue_suspend_this], after [coro_suspend()] has returned:
    the entry is unlinked if it is still linked. *)
Definition wakeup_queue_suspend_this_unlink (i : nat) (q : queue_sel)
    (this : coro) : M unit :=
  on_channel i
    (fun ch => with_queue q (rlist_del_entry (queue_of q ch) this) ch).

Definition wakeup_queue_wakeup_first (i : nat) (q : queue_sel) : M unit :=
  ch ← channel_at i;
  match ch with
  | None => ret tt
  | Some ch =>
      match queue_of q ch with
      | [] => ret tt
      | c :: rest => on_channel i (with_queue q rest) ;; coro_wakeup c
      end
  end.

(** [wakeup_queue_wakeup_all] is only called by [coro_bus_channel_close]
    on a channel already taken out of the table, so it works on the
    queue itself. *)
Fixpoint wakeup_queue_wakeup_all (coros : list coro) : M unit :=
  match coros with
  | [] => ret tt
  | c :: rest => coro_wakeup c ;; wakeup_queue_wakeup_all rest
  end.

Fixpoint wakeup_queue_wakeup_n (i : nat) (q : queue_sel) (count : nat)
  : M unit :=
  match count with
  | O => ret tt
  | S count' =>
      ch ← channel_at i;
      match ch with
      | None => ret tt
      | Some ch =>
          match queue_of q ch with
          | [] => ret tt
          | _ :: _ =>
              wakeup_queue_wakeup_first i q ;;
              wakeup_queue_wakeup_n i q count'
          end
      end
  end.

(** ** Handle table *)

Definition channel_get (bus : bus_ptr) (channel : Z)
  : M (option coro_bus_channel) :=
  b ← get_bus;
  match bus with
  | NULL => ret None
  | BUS =>
      if (channel <? 0) || (channel >=? channel_count b) then ret None
      else ret (slot (Z.to_nat channel) b)
  end.

Definition channel_gen_get (bus : bus_ptr) (channel : Z) : M Z :=
  b ← get_bus;
  match bus with
  | NULL => ret 0
  | BUS =>
      if (channel <? 0) || (channel >=? channel_count b) then ret 0
      else ret (default 0 (channel_gens b !! Z.to_nat channel))
  end.

Definition channel_is_same (bus : bus_ptr) (channel : Z) (gen : Z) : M bool :=
  ch ← channel_get bus channel;
  match ch with
  | None => ret false
  | Some _ => g ← channel_gen_get bus channel; ret (g =? gen)
  end.

Definition channel_init (size_limit : Z) : coro_bus_channel :=
  mk_channel size_limit [] [] [].

(** [coro_bus_new]: an empty table, and the error slot cleared. *)
Definition coro_bus_new : M unit :=
  put_bus (mk_bus [] []) ;;
  coro_bus_errno_set CORO_BUS_ERR_NONE.

(** The loop of [coro_bus_delete], from slot [i] on: for every live
    channel the function asserts that the send queue is empty, then that
    the receive queue is empty, before it deletes the channel. The
    result is the slot and the queue of the first assertion that fails,
    [None] when all of them hold. *)
Fixpoint coro_bus_delete_loop (chs : list (option coro_bus_channel)) (i : nat)
  : option (nat * queue_sel) :=
  match chs with
  | [] => None
  | None :: rest => coro_bus_delete_loop rest (S i)
  | Some ch :: rest =>
      match send_queue ch, recv_queue ch with
      | _ :: _, _ => Some (i, SendQ)
      | [], _ :: _ => Some (i, RecvQ)
      | [], [] => coro_bus_delete_loop rest (S i)
      end
  end.

(** [coro_bus_delete], as far as its assertions go: a NULL bus is left
    alone. What the call releases is the bus itself, after which there
    is no bus to speak of, so only the verdict of the assertions is
    modelled. *)
Definition coro_bus_delete (bus : bus_ptr) (w : world)
  : option (nat * queue_sel) :=
  match bus with
  | NULL => None
  | BUS => coro_bus_delete_loop (channels (get_bus w).1) 0
  end.

(** The first loop of [coro_bus_channel_open]: the lowest NULL slot. *)
Fixpoint first_null (chs : list (option coro_bus_channel)) (i : nat)
  : option nat :=
  match chs with
  | [] => None
  | None :: _ => Some i
  | Some _ :: rest => first_null rest (S i)
  end.

Definition coro_bus_channel_open (bus : bus_ptr) (size_limit : Z) : M Z :=
  match bus with
  | NULL => coro_bus_errno_set CORO_BUS_ERR_NO_CHANNEL ;; ret (-1)
  | BUS =>
      b ← get_bus;
      match first_null (channels b) 0 with
      | Some i =>
          put_bus (mk_bus (<[i := Some (channel_init size_limit)]> (channels b))
                          (channel_gens b)) ;;
          coro_bus_errno_set CORO_BUS_ERR_NONE ;;
          ret (Z.of_nat i)
      | None =>
          let new_count := channel_count b + 1 in
          put_bus (mk_bus (channels b ++ [Some (channel_init size_limit)])
                          (channel_gens b ++ [1])) ;;
          coro_bus_errno_set CORO_BUS_ERR_NONE ;;
          ret (new_count - 1)
      end
  end.

Definition coro_bus_channel_close (bus : bus_ptr) (channel : Z) : M unit :=
  ch ← channel_get bus channel;
  match ch with
  | None => ret tt
  | Some ch =>
      b ← get_bus;
      let i := Z.to_nat channel in
      put_bus (mk_bus (<[i := None]> (channels b))
                      (alter (fun g => to_size_t (g + 1)) i (channel_gens b))) ;;
      wakeup_queue_wakeup_all (send_queue ch) ;;
      wakeup_queue_wakeup_all (recv_queue ch)
  end.

(** ** Scalar operations *)

(** [ch->data.size() >= ch->size_limit] *)
Definition is_full (ch : coro_bus_channel) : bool :=
  Z.of_nat (length (data ch)) >=? size_limit ch.

(** [ch->data.push_back(v)] *)
Definition push_back (v : Z) (ch : coro_bus_channel) : coro_bus_channel :=
  with_data (data ch ++ [v]) ch.

Definition coro_bus_try_send (bus : bus_ptr) (channel : Z) (v : Z) : M Z :=
  ch ← channel_get bus channel;
  match ch with
  | None => coro_bus_errno_set CORO_BUS_ERR_NO_CHANNEL ;; ret (-1)
  | Some ch =>
      if is_full ch then
        coro_bus_errno_set CORO_BUS_ERR_WOULD_BLOCK ;; ret (-1)
      else
        let i := Z.to_nat channel in
        on_channel i (push_back v) ;;
        wakeup_queue_wakeup_first i RecvQ ;;
        coro_bus_errno_set CORO_BUS_ERR_NONE ;;
        ret 0
  end.

(** The second component is the value stored through the out pointer,
    [None] when nothing is stored. *)
Definition coro_bus_try_recv (bus : bus_ptr) (channel : Z)
  : M (Z * option Z) :=
  ch ← channel_get bus channel;
  match ch with
  | None => coro_bus_errno_set CORO_BUS_ERR_NO_CHANNEL ;; ret (-1, None)
  | Some ch =>
      match data ch with
      | [] => coro_bus_errno_set CORO_BUS_ERR_WOULD_BLOCK ;; ret (-1, None)
      | front :: rest =>
          let i := Z.to_nat channel in
          on_channel i (with_data rest) ;;
          wakeup_queue_wakeup_first i SendQ ;;
          coro_bus_errno_set CORO_BUS_ERR_NONE ;;
          ret (0, Some front)
      end
  end.

(** ** Blocking operations, cut at the suspension point

    [Returned rc]: the segment ran to a [return]. [Suspended l]: the
    segment linked the coroutine into a queue and called
    [coro_suspend()]; [l] holds the local variables that the code reads
    again after the resumption. *)
Inductive outcome (A L : Type) : Type :=
| Returned (rc : A)
| Suspended (locals : L).
Arguments Returned {A L} rc.
Arguments Suspended {A L} locals.

(** [coro_bus_send], from the top of the loop. *)
Definition coro_bus_send (this : coro) (bus : bus_ptr) (channel : Z) (v : Z)
  : M (outcome Z Z) :=
  rc ← coro_bus_try_send bus channel v;
  if rc =? 0 then ret (Returned 0)
  else
    err ← coro_bus_errno;
    match err with
    | CORO_BUS_ERR_NO_CHANNEL => ret (Returned (-1))
    | _ =>
        ch ← channel_get bus channel;
        gen ← channel_gen_get bus channel;
        match ch with
        | None =>
            coro_bus_errno_set CORO_BUS_ERR_NO_CHANNEL ;; ret (Returned (-1))
        | Some _ =>
            wakeup_queue_suspend_this_link (Z.to_nat channel) SendQ this ;;
            ret (Suspended gen)
        end
    end.

(** [coro_bus_send], from the return of [coro_suspend()]; [gen] is the
    generation read before the suspension. *)
Definition coro_bus_send_resumed (this : coro) (bus : bus_ptr) (channel : Z)
    (v : Z) (gen : Z) : M (outcome Z Z) :=
  wakeup_queue_suspend_this_unlink (Z.to_nat channel) SendQ this ;;
  same ← channel_is_same bus channel gen;
  if negb same then
    coro_bus_errno_set CORO_BUS_ERR_NO_CHANNEL ;; ret (Returned (-1))
  else coro_bus_send this bus channel v.

Definition coro_bus_recv (this : coro) (bus : bus_ptr) (channel : Z)
  : M (outcome (Z * option Z) Z) :=
  r ← coro_bus_try_recv bus channel;
  if r.1 =? 0 then ret (Returned (0, r.2))
  else
    err ← coro_bus_errno;
    match err with
    | CORO_BUS_ERR_NO_CHANNEL => ret (Returned (-1, r.2))
    | _ =>
        ch ← channel_get bus channel;
        gen ← channel_gen_get bus channel;
        match ch with
        | None =>
            coro_bus_errno_set CORO_BUS_ERR_NO_CHANNEL ;;
            ret (Returned (-1, r.2))
        | Some _ =>
            wakeup_queue_suspend_this_link (Z.to_nat channel) RecvQ this ;;
            ret (Suspended gen)
        end
    end.

Definition coro_bus_recv_resumed (this : coro) (bus : bus_ptr) (channel : Z)
    (gen : Z) : M (outcome (Z * option Z) Z) :=
  wakeup_queue_suspend_this_unlink (Z.to_nat channel) RecvQ this ;;
  same ← channel_is_same bus channel gen;
  if negb same then
    coro_bus_errno_set CORO_BUS_ERR_NO_CHANNEL ;; ret (Returned (-1, None))
  else coro_bus_recv this bus channel.

(** ** Broadcast *)

(** The scan of the table for a live channel that is full, as both
    broadcast functions run it from slot [i] on. *)
Inductive scan_result : Set :=
| ScanNoChannels
| ScanFull (block_channel : nat)
| ScanFree.

Fixpoint broadcast_scan (chs : list (option coro_bus_channel)) (i : nat)
    (has_channels : bool) : scan_result :=
  match chs with
  | [] => if has_channels then ScanFree else ScanNoChannels
  | None :: rest => broadcast_scan rest (S i) has_channels
  | Some ch :: rest =>
      if is_full ch then ScanFull i else broadcast_scan rest (S i) true
  end.

(** The second loop: [n] slots from slot [i] on. *)
Fixpoint broadcast_push (n : nat) (i : nat) (v : Z) : M unit :=
  match n with
  | O => ret tt
  | S n' =>
      ch ← channel_at i;
      match ch with
      | None => ret tt
      | Some _ =>
          on_channel i (push_back v) ;;
          wakeup_queue_wakeup_first i RecvQ
      end ;;
      broadcast_push n' (S i) v
  end.

Definition coro_bus_try_broadcast (bus : bus_ptr) (v : Z) : M Z :=
  match bus with
  | NULL => coro_bus_errno_set CORO_BUS_ERR_NO_CHANNEL ;; ret (-1)
  | BUS =>
      b ← get_bus;
      match broadcast_scan (channels b) 0 false with
      | ScanFull _ => coro_bus_errno_set CORO_BUS_ERR_WOULD_BLOCK ;; ret (-1)
      | ScanNoChannels =>
          coro_bus_errno_set CORO_BUS_ERR_NO_CHANNEL ;; ret (-1)
      | ScanFree =>
          broadcast_push (length (channels b)) 0 v ;;
          coro_bus_errno_set CORO_BUS_ERR_NONE ;;
          ret 0
      end
  end.

(** [coro_bus_broadcast], from the top of the loop; the local variable
    kept across the suspension is [block_channel]. *)
Definition coro_bus_broadcast (this : coro) (bus : bus_ptr) (v : Z)
  : M (outcome Z nat) :=
  match bus with
  | NULL => coro_bus_errno_set CORO_BUS_ERR_NO_CHANNEL ;; ret (Returned (-1))
  | BUS =>
      b ← get_bus;
      match broadcast_scan (channels b) 0 false with
      | ScanNoChannels =>
          coro_bus_errno_set CORO_BUS_ERR_NO_CHANNEL ;; ret (Returned (-1))
      | ScanFree =>
          broadcast_push (length (channels b)) 0 v ;;
          coro_bus_errno_set CORO_BUS_ERR_NONE ;;
          ret (Returned 0)
      | ScanFull block_channel =>
          wakeup_queue_suspend_this_link block_channel SendQ this ;;
          ret (Suspended block_channel)
      end
  end.

Definition coro_bus_broadcast_resumed (this : coro) (bus : bus_ptr) (v : Z)
    (block_channel : nat) : M (outcome Z nat) :=
  wakeup_queue_suspend_this_unlink block_channel SendQ this ;;
  coro_bus_broadcast this bus v.

(** ** Vector operations *)

(** [for (i = 0; i < to_send; ++i) ch->data.push_back(data[i]);], with
    [n] iterations left. The array holds at least [count] elements and
    [to_send] is at most [count], so the default of the lookup is never
    used. *)
Fixpoint send_v_push (p : nat) (buf : list Z) (i : nat) (n : nat) : M unit :=
  match n with
  | O => ret tt
  | S n' =>
      on_channel p (push_back (default 0 (buf !! i))) ;;
      send_v_push p buf (S i) n'
  end.

(** [for (i = 0; i < to_recv; ++i) { data[i] = front(); pop_front(); }];
    the result is what the loop stored in [data[0..]]. [to_recv] never
    exceeds the size of the deque, so [front()] is not called on an empty
    one. *)
Fixpoint recv_v_pop (p : nat) (n : nat) : M (list Z) :=
  match n with
  | O => ret []
  | S n' =>
      ch ← channel_at p;
      match ch with
      | Some ch =>
          match data ch with
          | front :: rest =>
              on_channel p (with_data rest) ;;
              out ← recv_v_pop p n';
              ret (front :: out)
          | [] => ret []
          end
      | None => ret []
      end
  end.

(** The part of [coro_bus_send_v]/[coro_bus_try_send_v] after the channel
    was found to have free space. *)
Definition send_v_transfer (p : nat) (buf : list Z) (count : Z)
    (free_space : Z) : M Z :=
  let to_send := Z.min count (to_unsigned free_space) in
  send_v_push p buf 0 (Z.to_nat to_send) ;;
  wakeup_queue_wakeup_n p RecvQ (Z.to_nat to_send) ;;
  coro_bus_errno_set CORO_BUS_ERR_NONE ;;
  ret (to_int to_send).

Definition recv_v_transfer (p : nat) (capacity : Z) (size : Z)
  : M (Z * list Z) :=
  let to_recv := Z.min capacity (to_unsigned size) in
  out ← recv_v_pop p (Z.to_nat to_recv);
  wakeup_queue_wakeup_n p SendQ (Z.to_nat to_recv) ;;
  coro_bus_errno_set CORO_BUS_ERR_NONE ;;
  ret (to_int to_recv, out).

Definition coro_bus_try_send_v (bus : bus_ptr) (channel : Z) (buf : list Z)
    (count : Z) : M Z :=
  if count =? 0 then coro_bus_errno_set CORO_BUS_ERR_NONE ;; ret 0
  else
    ch ← channel_get bus channel;
    match ch with
    | None => coro_bus_errno_set CORO_BUS_ERR_NO_CHANNEL ;; ret (-1)
    | Some ch =>
        let free_space :=
          to_size_t (size_limit ch - Z.of_nat (length (data ch))) in
        if free_space =? 0 then
          coro_bus_errno_set CORO_BUS_ERR_WOULD_BLOCK ;; ret (-1)
        else send_v_transfer (Z.to_nat channel) buf count free_space
    end.

Definition coro_bus_try_recv_v (bus : bus_ptr) (channel : Z) (capacity : Z)
  : M (Z * list Z) :=
  if capacity =? 0 then coro_bus_errno_set CORO_BUS_ERR_NONE ;; ret (0, [])
  else
    ch ← channel_get bus channel;
    match ch with
    | None => coro_bus_errno_set CORO_BUS_ERR_NO_CHANNEL ;; ret (-1, [])
    | Some ch =>
        match data ch with
        | [] => coro_bus_errno_set CORO_BUS_ERR_WOULD_BLOCK ;; ret (-1, [])
        | _ :: _ =>
            recv_v_transfer (Z.to_nat channel) capacity
              (Z.of_nat (length (data ch)))
        end
    end.

(** The body of the loop of [coro_bus_send_v]. *)
Definition coro_bus_send_v_loop (this : coro) (bus : bus_ptr) (channel : Z)
    (buf : list Z) (count : Z) : M (outcome Z Z) :=
  ch ← channel_get bus channel;
  match ch with
  | None => coro_bus_errno_set CORO_BUS_ERR_NO_CHANNEL ;; ret (Returned (-1))
  | Some ch =>
      let free_space :=
        to_size_t (size_limit ch - Z.of_nat (length (data ch))) in
      if free_space =? 0 then
        gen ← channel_gen_get bus channel;
        wakeup_queue_suspend_this_link (Z.to_nat channel) SendQ this ;;
        ret (Suspended gen)
      else
        rc ← send_v_transfer (Z.to_nat channel) buf count free_space;
        ret (Returned rc)
  end.

Definition coro_bus_send_v (this : coro) (bus : bus_ptr) (channel : Z)
    (buf : list Z) (count : Z) : M (outcome Z Z) :=
  if count =? 0 then
    coro_bus_errno_set CORO_BUS_ERR_NONE ;; ret (Returned 0)
  else coro_bus_send_v_loop this bus channel buf count.

Definition coro_bus_send_v_resumed (this : coro) (bus : bus_ptr)
    (channel : Z) (buf : list Z) (count : Z) (gen : Z) : M (outcome Z Z) :=
  wakeup_queue_suspend_this_unlink (Z.to_nat channel) SendQ this ;;
  same ← channel_is_same bus channel gen;
  if negb same then
    coro_bus_errno_set CORO_BUS_ERR_NO_CHANNEL ;; ret (Returned (-1))
  else coro_bus_send_v_loop this bus channel buf count.

Definition coro_bus_recv_v_loop (this : coro) (bus : bus_ptr) (channel : Z)
    (capacity : Z) : M (outcome (Z * list Z) Z) :=
  ch ← channel_get bus channel;
  match ch with
  | None =>
      coro_bus_errno_set CORO_BUS_ERR_NO_CHANNEL ;; ret (Returned (-1, []))
  | Some ch =>
      match data ch with
      | [] =>
          gen ← channel_gen_get bus channel;
          wakeup_queue_suspend_this_link (Z.to_nat channel) RecvQ this ;;
          ret (Suspended gen)
      | _ :: _ =>
          r ← recv_v_transfer (Z.to_nat channel) capacity
                (Z.of_nat (length (data ch)));
          ret (Returned r)
      end
  end.

Definition coro_bus_recv_v (this : coro) (bus : bus_ptr) (channel : Z)
    (capacity : Z) : M (outcome (Z * list Z) Z) :=
  if capacity =? 0 then
    coro_bus_errno_set CORO_BUS_ERR_NONE ;; ret (Returned (0, []))
  else coro_bus_recv_v_loop this bus channel capacity.

Definition coro_bus_recv_v_resumed (this : coro) (bus : bus_ptr)
    (channel : Z) (capacity : Z) (gen : Z) : M (outcome (Z * list Z) Z) :=
  wakeup_queue_suspend_this_unlink (Z.to_nat channel) RecvQ this ;;
  same ← channel_is_same bus channel gen;
  if negb same then
    coro_bus_errno_set CORO_BUS_ERR_NO_CHANNEL ;; ret (Returned (-1, []))
  else coro_bus_recv_v_loop this bus channel capacity.

(** ** Runs of the bus

    An [event] is one atomic step of the system: a call of a
    non-blocking operation, or one segment of a blocking call made by the
    coroutine [this]. The [...Resumed] events carry the local variables
    of the suspended call. *)
Inductive event : Set :=
| EvErrnoSet (err : coro_bus_error_code)
| EvChannelOpen (bus : bus_ptr) (size_limit : Z)
| EvChannelClose (bus : bus_ptr) (channel : Z)
| EvTrySend (bus : bus_ptr) (channel : Z) (v : Z)
| EvTryRecv (bus : bus_ptr) (channel : Z)
| EvTryBroadcast (bus : bus_ptr) (v : Z)
| EvTrySendV (bus : bus_ptr) (channel : Z) (buf : list Z) (count : Z)
| EvTryRecvV (bus : bus_ptr) (channel : Z) (capacity : Z)
| EvSend (this : coro) (bus : bus_ptr) (channel : Z) (v : Z)
| EvSendResumed (this : coro) (bus : bus_ptr) (channel : Z) (v : Z) (gen : Z)
| EvRecv (this : coro) (bus : bus_ptr) (channel : Z)
| EvRecvResumed (this : coro) (bus : bus_ptr) (channel : Z) (gen : Z)
| EvBroadcast (this : coro) (bus : bus_ptr) (v : Z)
| EvBroadcastResumed (this : coro) (bus : bus_ptr) (v : Z)
    (block_channel : nat)
| EvSendV (this : coro) (bus : bus_ptr) (channel : Z) (buf : list Z)
    (count : Z)
| EvSendVResumed (this : coro) (bus : bus_ptr) (channel : Z) (buf : list Z)
    (count : Z) (gen : Z)
| EvRecvV (this : coro) (bus : bus_ptr) (channel : Z) (capacity : Z)
| EvRecvVResumed (this : coro) (bus : bus_ptr) (channel : Z) (capacity : Z)
    (gen : Z).

(** What the caller sees of a step. *)
Inductive reply : Set :=
| RVoid
| RInt (rc : Z)
| RRecv (rc : Z) (out : list Z)
| RSuspended.

Definition reply_int {L} (o : outcome Z L) : reply :=
  match o with Returned rc => RInt rc | Suspended _ => RSuspended end.

Definition reply_recv {L} (o : outcome (Z * option Z) L) : reply :=
  match o with
  | Returned (rc, out) => RRecv rc (option_list out)
  | Suspended _ => RSuspended
  end.

Definition reply_recv_v {L} (o : outcome (Z * list Z) L) : reply :=
  match o with
  | Returned (rc, out) => RRecv rc out
  | Suspended _ => RSuspended
  end.

Definition run (e : event) : M reply :=
  match e with
  | EvErrnoSet err => coro_bus_errno_set err ;; ret RVoid
  | EvChannelOpen bus size_limit =>
      rc ← coro_bus_channel_open bus size_limit; ret (RInt rc)
  | EvChannelClose bus channel =>
      coro_bus_channel_close bus channel ;; ret RVoid
  | EvTrySend bus channel v =>
      rc ← coro_bus_try_send bus channel v; ret (RInt rc)
  | EvTryRecv bus channel =>
      r ← coro_bus_try_recv bus channel; ret (RRecv r.1 (option_list r.2))
  | EvTryBroadcast bus v =>
      rc ← coro_bus_try_broadcast bus v; ret (RInt rc)
  | EvTrySendV bus channel buf count =>
      rc ← coro_bus_try_send_v bus channel buf count; ret (RInt rc)
  | EvTryRecvV bus channel capacity =>
      r ← coro_bus_try_recv_v bus channel capacity; ret (RRecv r.1 r.2)
  | EvSend this bus channel v =>
      o ← coro_bus_send this bus channel v; ret (reply_int o)
  | EvSendResumed this bus channel v gen =>
      o ← coro_bus_send_resumed this bus channel v gen; ret (reply_int o)
  | EvRecv this bus channel =>
      o ← coro_bus_recv this bus channel; ret (reply_recv o)
  | EvRecvResumed this bus channel gen =>
      o ← coro_bus_recv_resumed this bus channel gen; ret (reply_recv o)
  | EvBroadcast this bus v =>
      o ← coro_bus_broadcast this bus v; ret (reply_int o)
  | EvBroadcastResumed this bus v block_channel =>
      o ← coro_bus_broadcast_resumed this bus v block_channel;
      ret (reply_int o)
  | EvSendV this bus channel buf count =>
      o ← coro_bus_send_v this bus channel buf count; ret (reply_int o)
  | EvSendVResumed this bus channel buf count gen =>
      o ← coro_bus_send_v_resumed this bus channel buf count gen;
      ret (reply_int o)
  | EvRecvV this bus channel capacity =>
      o ← coro_bus_recv_v this bus channel capacity; ret (reply_recv_v o)
  | EvRecvVResumed this bus channel capacity gen =>
      o ← coro_bus_recv_v_resumed this bus channel capacity gen;
      ret (reply_recv_v o)
  end.

(** The arguments are values of their C types: a capacity is a [size_t],
    a count is an [unsigned] and the array passed with it holds at least
    that many elements. A call that is resumed had found its channel
    before it suspended, so its handle is not negative. *)
Definition event_ok (e : event) : Prop :=
  match e with
  | EvChannelOpen _ size_limit => is_size_t size_limit
  | EvTrySendV _ _ buf count
  | EvSendV _ _ _ buf count =>
      is_unsigned count /\ count <= Z.of_nat (length buf)
  | EvTryRecvV _ _ capacity
  | EvRecvV _ _ _ capacity => is_unsigned capacity
  | EvSendResumed _ _ channel _ _
  | EvRecvResumed _ _ channel _ => 0 <= channel
  | EvSendVResumed _ _ channel buf count _ =>
      0 <= channel /\ is_unsigned count /\ count <= Z.of_nat (length buf)
  | EvRecvVResumed _ _ channel capacity _ =>
      0 <= channel /\ is_unsigned capacity
  | _ => True
  end.

(** The world after the events of [tr], run in order from [w]. *)
Fixpoint run_all (tr : list event) (w : world) : world :=
  match tr with
  | [] => w
  | e :: tr' => run_all tr' (run e w).2
  end.

(** What the callers see along the same run. *)
Fixpoint run_replies (tr : list event) (w : world) : list reply :=
  match tr with
  | [] => []
  | e :: tr' => (run e w).1 :: run_replies tr' (run e w).2
  end.

(** The worlds a program can bring about: [coro_bus_new], then any
    number of steps. A [...Resumed] step is allowed at any time and with
    any saved locals, which also covers a coroutine woken by something
    other than the bus; the worlds of the real runs are among these. *)
Inductive reachable : world -> Prop :=
| reach_new w : reachable (coro_bus_new w).2
| reach_step e w : reachable w -> event_ok e -> reachable (run e w).2.

Definition initial : world :=
  mk_world (mk_bus [] []) CORO_BUS_ERR_NONE [].

(** * Derived notions *)

(** ** Worlds in closed form *)

Definition set_err (err : coro_bus_error_code) (w : world) : world :=
  mk_world (bus w) err (woken w).

Definition wake (l : list coro) (w : world) : world :=
  mk_world (bus w) (global_error w) (woken w ++ l).

Definition upd (i : nat) (ch : coro_bus_channel) (w : world) : world :=
  mk_world (mk_bus (<[i := Some ch]> (channels (bus w)))
                   (channel_gens (bus w)))
           (global_error w) (woken w).

Arguments on_channel : simpl never.
Arguments slot : simpl never.
Arguments upd : simpl never.
Arguments wake : simpl never.
Arguments set_err : simpl never.

Ltac unfold_M :=
  unfold ret, mbind, M_bind, mret, M_ret, get_bus, put_bus, channel_at,
    coro_bus_errno, coro_bus_errno_set, coro_wakeup in *.

(** ** Notions used in the statements and proofs *)

(** A handle resolves to a channel exactly when the bus pointer is not
    NULL, the handle is inside the table and the slot is not NULL. *)
Definition resolve (bus : bus_ptr) (channel : Z) (w : world)
  : option coro_bus_channel := (channel_get bus channel w).1.

(** The channel after a successful scalar send of [v]. *)
Definition sent (v : Z) (ch : coro_bus_channel) : coro_bus_channel :=
  mk_channel (size_limit ch) (send_queue ch) (drop 1 (recv_queue ch))
    (data ch ++ [v]).

(** The channel after a successful scalar receive. *)
Definition received (ch : coro_bus_channel) : coro_bus_channel :=
  mk_channel (size_limit ch) (drop 1 (send_queue ch)) (recv_queue ch)
    (drop 1 (data ch)).

(** [data[i]] for the indices [i, i + n). *)
Definition buf_range (buf : list Z) (i n : nat) : list Z :=
  (fun k => default 0 (buf !! k)) <$> seq i n.

(** The channel after [n] elements of [buf] were appended and up to [n]
    receivers dequeued. *)
Definition sent_v (buf : list Z) (n : nat) (ch : coro_bus_channel)
  : coro_bus_channel :=
  mk_channel (size_limit ch) (send_queue ch) (drop n (recv_queue ch))
    (data ch ++ take n buf).

(** The channel after [n] elements were taken and up to [n] senders
    dequeued. *)
Definition received_v (n : nat) (ch : coro_bus_channel) : coro_bus_channel :=
  mk_channel (size_limit ch) (drop n (send_queue ch)) (recv_queue ch)
    (drop n (data ch)).

(** The receivers woken by a broadcast: the head of the queue of every
    live channel, in slot order. *)
Definition first_receivers (chs : list (option coro_bus_channel)) : list coro :=
  concat ((fun o => match o with
                    | Some ch => take 1 (recv_queue ch)
                    | None => []
                    end) <$> chs).

Definition sent_slot (v : Z) (o : option coro_bus_channel)
  : option coro_bus_channel := sent v <$> o.

(** The world after the second loop of a broadcast of [v]. *)
Definition broadcasted (v : Z) (w : world) : world :=
  mk_world (mk_bus (sent_slot v <$> channels (bus w)) (channel_gens (bus w)))
           (global_error w)
           (woken w ++ first_receivers (channels (bus w))).

(** The world after a slot was appended to the table. *)
Definition grown (size_limit : Z) (w : world) : world :=
  mk_world (mk_bus (channels (bus w) ++ [Some (channel_init size_limit)])
                   (channel_gens (bus w) ++ [1]))
           (global_error w) (woken w).

(** The world after slot [i] was set to NULL and its generation
    incremented. *)
Definition closed (i : nat) (w : world) : world :=
  mk_world (mk_bus (<[i := None]> (channels (bus w)))
                   (alter (fun g => to_size_t (g + 1)) i (channel_gens (bus w))))
           (global_error w) (woken w).

Definition linked (q : queue_sel) (this : coro) (ch : coro_bus_channel)
  : coro_bus_channel :=
  with_queue q (rlist_add_tail_entry (queue_of q ch) this) ch.

Definition unlinked (q : queue_sel) (this : coro) (ch : coro_bus_channel)
  : coro_bus_channel :=
  with_queue q (rlist_del_entry (queue_of q ch) this) ch.

(** The world after the unlink that follows the resumption. *)
Definition unlink_world (i : nat) (q : queue_sel) (this : coro) (w : world)
  : world := (wakeup_queue_suspend_this_unlink i q this w).2.

Definition gen_of (bp : bus_ptr) (channel : Z) (w : world) : Z :=
  (channel_gen_get bp channel w).1.

Definition same_channel (bp : bus_ptr) (channel : Z) (gen : Z) (w : world)
  : bool := (channel_is_same bp channel gen w).1.

Definition channel_ok (ch : coro_bus_channel) : Prop :=
  is_size_t (size_limit ch) /\ Z.of_nat (length (data ch)) <= size_limit ch.

Definition bus_ok (b : coro_bus) : Prop :=
  length (channel_gens b) = length (channels b) /\
  (forall i g, channel_gens b !! i = Some g -> is_size_t g) /\
  (forall i ch, slot i b = Some ch -> channel_ok ch).

(** A coroutine that a step adds to a queue of a channel finds the
    channel full (send queue) or empty (receive queue) when the step is
    over. *)
Definition joins_blocked (o o' : option coro_bus_channel) : Prop :=
  forall ch', o' = Some ch' ->
    (forall c, c ∈ send_queue ch' ->
       (exists ch, o = Some ch /\ c ∈ send_queue ch) \/
       Z.of_nat (length (data ch')) = size_limit ch') /\
    (forall c, c ∈ recv_queue ch' ->
       (exists ch, o = Some ch /\ c ∈ recv_queue ch) \/
       data ch' = []).

(** A generation stays or is incremented (as an [unsigned long long]). *)
Definition gens_step (gens gens' : list Z) : Prop :=
  forall i g, gens !! i = Some g ->
    exists g', gens' !! i = Some g' /\ (g' = g \/ g' = to_size_t (g + 1)).

Definition step_ok (b b' : coro_bus) : Prop :=
  bus_ok b' /\
  (forall i, joins_blocked (slot i b) (slot i b')) /\
  gens_step (channel_gens b) (channel_gens b').

(** The same for one channel that stays in its slot. *)
Definition chan_step (ch ch' : coro_bus_channel) : Prop :=
  channel_ok ch' /\
  (forall c, c ∈ send_queue ch' ->
     c ∈ send_queue ch \/ Z.of_nat (length (data ch')) = size_limit ch') /\
  (forall c, c ∈ recv_queue ch' -> c ∈ recv_queue ch \/ data ch' = []).

(** What an operation on the handle [c] does, seen from outside: it
    fails with an error code, or returns at once (a zero count), or
    changes the channel of the slot of [c] and returns the [int] made
    from a count [n], or links the caller into a queue of that channel
    and suspends. The result is [None] for a suspension. *)
Inductive op_form (c bound : Z) (w : world) : option Z -> world -> Prop :=
| of_fail err :
    err <> CORO_BUS_ERR_NONE ->
    op_form c bound w (Some (-1)) (set_err err w)
| of_zero : op_form c bound w (Some 0) (set_err CORO_BUS_ERR_NONE w)
| of_done n l ch ch' :
    0 <= c -> slot (Z.to_nat c) (bus w) = Some ch -> chan_step ch ch' ->
    0 <= n <= bound ->
    op_form c bound w (Some (to_int n))
      (set_err CORO_BUS_ERR_NONE (wake l (upd (Z.to_nat c) ch' w)))
| of_suspend w0 ch ch' :
    bus w0 = bus w ->
    0 <= c -> slot (Z.to_nat c) (bus w) = Some ch -> chan_step ch ch' ->
    op_form c bound w None (upd (Z.to_nat c) ch' w0).

(** The result of a segment, [None] for a suspension. *)
Definition rc_int {L} (o : outcome Z L) : option Z :=
  match o with Returned rc => Some rc | Suspended _ => None end.

Definition rc_pair {B L} (o : outcome (Z * B) L) : option Z :=
  match o with Returned r => Some r.1 | Suspended _ => None end.

(** A step of an operation on the handle [c] leaves the table as it
    is, or replaces the channel of the slot of [c]. *)
Inductive local_form (c : Z) (w w' : world) : Prop :=
| lf_same : bus w' = bus w -> local_form c w w'
| lf_upd ch ch' :
    0 <= c -> slot (Z.to_nat c) (bus w) = Some ch -> chan_step ch ch' ->
    bus w' = bus (upd (Z.to_nat c) ch' w) -> local_form c w w'.

(** A bus with one channel of capacity 1 that holds the message 7. *)
Definition one_full_channel : world :=
  run_all [EvChannelOpen BUS 1; EvTrySend BUS 0 7] (coro_bus_new initial).2.

(** The sender 1 suspends on [one_full_channel]; then the channel is
    closed and another one is opened in its slot. *)
Definition closed_and_reopened : world :=
  run_all [EvSend 1%nat BUS 0 8; EvChannelClose BUS 0; EvChannelOpen BUS 3]
    one_full_channel.

(** A bus whose only channel has capacity 0. *)
Definition zero_capacity_bus : world :=
  run_all [EvChannelOpen BUS 0] (coro_bus_new initial).2.

(** The channels of the live slots, in slot order. *)
Definition live_channels (b : coro_bus) : list coro_bus_channel :=
  omap id (channels b).

(** Channels 0..2 with capacities 2, 1, 2; channel 1 holds one message. *)
Definition three_channels : world :=
  run_all [EvChannelOpen BUS 2; EvChannelOpen BUS 1; EvChannelOpen BUS 2;
           EvTrySend BUS 1 5] (coro_bus_new initial).2.

(** [three_channels] after a consumer took the message of channel 1. *)
Definition three_channels_drained : world :=
  run_all [EvTryRecv BUS 1] three_channels.

(** A blocking call as a whole. [completes resumed (o, w) rc w']: the
    call whose current segment ended with the outcome [o] in the world
    [w] returns [rc] in the world [w']. After a suspension the other
    coroutines run, which can bring about any world [w2], and the call
    goes on from there with the segment [resumed]. *)
Inductive completes {A L : Type} (resumed : L -> M (outcome A L))
  : outcome A L * world -> A -> world -> Prop :=
| completes_return rc w : completes resumed (Returned rc, w) rc w
| completes_resume locals w w2 rc w' :
    completes resumed (resumed locals w2) rc w' ->
    completes resumed (Suspended locals, w) rc w'.

(** The call entered in the world [w] returns [rc] in the world [w']. *)
Definition returns {A L : Type} (enter : M (outcome A L))
    (resumed : L -> M (outcome A L)) (w : world) (rc : A) (w' : world)
  : Prop :=
  completes resumed (enter w) rc w'.

(** The event is an operation on the channel of the handle [h]. A
    broadcast is an operation on every channel; opening a channel is an
    operation on none of the live ones. *)
Definition touches (h : Z) (e : event) : Prop :=
  match e with
  | EvErrnoSet _ | EvChannelOpen _ _ => False
  | EvTryBroadcast _ _ | EvBroadcast _ _ _ | EvBroadcastResumed _ _ _ _ =>
      True
  | EvChannelClose _ c
  | EvTrySend _ c _ | EvTryRecv _ c
  | EvTrySendV _ c _ _ | EvTryRecvV _ c _
  | EvSend _ _ c _ | EvSendResumed _ _ c _ _
  | EvRecv _ _ c | EvRecvResumed _ _ c _
  | EvSendV _ _ c _ _ | EvSendVResumed _ _ c _ _ _
  | EvRecvV _ _ c _ | EvRecvVResumed _ _ c _ _ => c = h
  end.

(** The value that a scalar send on [h] carries. *)
Definition send_of (h : Z) (e : event) : option Z :=
  match e with
  | EvTrySend _ c v | EvSend _ _ c v | EvSendResumed _ _ c v _ =>
      if decide (c = h) then Some v else None
  | _ => None
  end.

(** The event is a scalar receive on [h]. *)
Definition is_recv (h : Z) (e : event) : Prop :=
  match e with
  | EvTryRecv _ c | EvRecv _ _ c | EvRecvResumed _ _ c _ => c = h
  | _ => False
  end.

(** A stretch of a run in which the only operations on the channel [h]
    are successful scalar sends, of the values [vs] in this order. *)
Inductive sends_phase (h : Z) : list Z -> world -> world -> Prop :=
| sends_nil w : sends_phase h [] w w
| sends_other e w vs w' :
    event_ok e -> ~ touches h e ->
    sends_phase h vs (run e w).2 w' -> sends_phase h vs w w'
| sends_send e v w vs w' :
    event_ok e -> send_of h e = Some v -> (run e w).1 = RInt 0 ->
    sends_phase h vs (run e w).2 w' -> sends_phase h (v :: vs) w w'.

(** A stretch of a run in which the only operations on the channel [h]
    are successful scalar receives, which return the values [xs] in this
    order. *)
Inductive recvs_phase (h : Z) : list Z -> world -> world -> Prop :=
| recvs_nil w : recvs_phase h [] w w
| recvs_other e w xs w' :
    event_ok e -> ~ touches h e ->
    recvs_phase h xs (run e w).2 w' -> recvs_phase h xs w w'
| recvs_recv e x w xs w' :
    event_ok e -> is_recv h e -> (run e w).1 = RRecv 0 [x] ->
    recvs_phase h xs (run e w).2 w' -> recvs_phase h (x :: xs) w w'.

(** The buffer of the channel of [h]. *)
Definition buffer (h : Z) (w : world) : option (list Z) :=
  data <$> slot (Z.to_nat h) (bus w).

(** Channels 0 and 1 with capacities 2 and 1, both empty. *)
Definition two_channels : world :=
  run_all [EvChannelOpen BUS 2; EvChannelOpen BUS 1] (coro_bus_new initial).2.

Definition two_channels_sent : world :=
  run_all [EvTrySend BUS 0 10; EvTrySend BUS 1 99; EvSend 4%nat BUS 0 20]
    two_channels.

Definition two_channels_received : world :=
  run_all [EvTryRecv BUS 0; EvTryRecv BUS 1; EvRecv 5%nat BUS 0]
    two_channels_sent.

(** A new bus on which a channel of capacity 2 was just opened; then two
    sends on it, with another channel opened and used in between; then
    two receives on it, with a receive on the other channel in
    between. *)
Definition opened_channel : world :=
  (coro_bus_channel_open BUS 2 (coro_bus_new initial).2).2.

Definition opened_channel_sent : world :=
  run_all [EvTrySend BUS 0 10; EvChannelOpen BUS 1; EvTrySend BUS 1 99;
           EvSend 4%nat BUS 0 20] opened_channel.

Definition opened_channel_received : world :=
  run_all [EvTryRecv BUS 0; EvTryRecv BUS 1; EvRecv 5%nat BUS 0]
    opened_channel_sent.

(** The condition of the specification on a live channel: the buffer is
    below capacity or no sender waits, and the buffer is not empty or no
    receiver waits. *)
Definition exclusive_waiter (ch : coro_bus_channel) : Prop :=
  (Z.of_nat (length (data ch)) < size_limit ch \/ send_queue ch = []) /\
  (0 < Z.of_nat (length (data ch)) \/ recv_queue ch = []).

Definition SIZE_MAX : Z := 2 ^ SIZE_BITS - 1.

(** The count of a vector call fits the [int] that the call returns. *)
Definition fits_int (e : event) : Prop :=
  match e with
  | EvTrySendV _ _ _ count
  | EvSendV _ _ _ _ count
  | EvSendVResumed _ _ _ _ count _ => count < 2 ^ (UINT_BITS - 1)
  | EvTryRecvV _ _ capacity
  | EvRecvV _ _ _ capacity
  | EvRecvVResumed _ _ _ capacity _ => capacity < 2 ^ (UINT_BITS - 1)
  | _ => True
  end.

(** The channel that a handle names: the content of its slot, when the
    bus pointer is not NULL and the handle is not negative (a slot past
    the end of the table holds nothing). *)
Definition channel_of_handle (bp : bus_ptr) (channel : Z) (w : world)
  : option coro_bus_channel :=
  match bp with
  | NULL => None
  | BUS =>
      if decide (0 <= channel) then slot (Z.to_nat channel) (bus w) else None
  end.

(** The channel that the handle of a resumed call still names: the one
    of its slot, if the table holds for the slot the generation [gen]
    that the call kept across its suspension. *)
Definition channel_of_snapshot (bp : bus_ptr) (channel : Z) (gen : Z)
    (w : world) : option coro_bus_channel :=
  if decide (channel_gens (bus w) !! Z.to_nat channel = Some gen)
  then channel_of_handle bp channel w else None.

(** The error code that the specification asks of a send to the channel
    [o]: NO_CHANNEL when there is no channel, WOULD_BLOCK when its
    buffer is full, NONE otherwise. *)
Definition send_code (o : option coro_bus_channel) : coro_bus_error_code :=
  match o with
  | None => CORO_BUS_ERR_NO_CHANNEL
  | Some ch =>
      if decide (Z.of_nat (length (data ch)) = size_limit ch)
      then CORO_BUS_ERR_WOULD_BLOCK else CORO_BUS_ERR_NONE
  end.

(** The same of a receive: WOULD_BLOCK when the buffer is empty. *)
Definition recv_code (o : option coro_bus_channel) : coro_bus_error_code :=
  match o with
  | None => CORO_BUS_ERR_NO_CHANNEL
  | Some ch =>
      match data ch with
      | [] => CORO_BUS_ERR_WOULD_BLOCK
      | _ :: _ => CORO_BUS_ERR_NONE
      end
  end.

(** The same of a broadcast: NO_CHANNEL without a bus or without a live
    channel, WOULD_BLOCK when some live channel is full. *)
Definition broadcast_code (bp : bus_ptr) (w : world) : coro_bus_error_code :=
  match bp with
  | NULL => CORO_BUS_ERR_NO_CHANNEL
  | BUS =>
      match live_channels (bus w) with
      | [] => CORO_BUS_ERR_NO_CHANNEL
      | _ :: _ =>
          if decide (Exists (fun ch => Z.of_nat (length (data ch))
                                       = size_limit ch)
                       (live_channels (bus w)))
          then CORO_BUS_ERR_WOULD_BLOCK else CORO_BUS_ERR_NONE
      end
  end.

(** The error code that the specification asks of the operation [e] in
    the world [w]. An open fails only without a bus; a vector call with
    the count 0 succeeds without looking at its handle. *)
Definition specified_code (e : event) (w : world) : coro_bus_error_code :=
  match e with
  | EvErrnoSet err => err
  | EvChannelClose _ _ => global_error w
  | EvChannelOpen bp _ =>
      match bp with
      | NULL => CORO_BUS_ERR_NO_CHANNEL
      | BUS => CORO_BUS_ERR_NONE
      end
  | EvTrySend bp c _ | EvSend _ bp c _ => send_code (channel_of_handle bp c w)
  | EvTryRecv bp c | EvRecv _ bp c => recv_code (channel_of_handle bp c w)
  | EvSendResumed _ bp c _ gen
  | EvSendVResumed _ bp c _ _ gen =>
      send_code (channel_of_snapshot bp c gen w)
  | EvRecvResumed _ bp c gen
  | EvRecvVResumed _ bp c _ gen =>
      recv_code (channel_of_snapshot bp c gen w)
  | EvTryBroadcast bp _ | EvBroadcast _ bp _ | EvBroadcastResumed _ bp _ _ =>
      broadcast_code bp w
  | EvTrySendV bp c _ count | EvSendV _ bp c _ count =>
      if decide (count = 0) then CORO_BUS_ERR_NONE
      else send_code (channel_of_handle bp c w)
  | EvTryRecvV bp c capacity | EvRecvV _ bp c capacity =>
      if decide (capacity = 0) then CORO_BUS_ERR_NONE
      else recv_code (channel_of_handle bp c w)
  end.

(** The result [rc] and the error code [err] that an operation leaves
    are those that go with the specified code: the error code is the
    specified one, and the operation fails, with -1, exactly when that
    is not NONE. *)
Definition code_of_result (rc : Z) (err specified : coro_bus_error_code)
  : Prop :=
  err = specified /\
  (0 <= rc /\ specified = CORO_BUS_ERR_NONE \/
   rc = -1 /\ specified <> CORO_BUS_ERR_NONE).

(** The same for a reply; a blocking call suspends only where the
    specified code is WOULD_BLOCK. *)
Definition terminal_code (r : reply) (err specified : coro_bus_error_code)
  : Prop :=
  match r with
  | RInt rc | RRecv rc _ => code_of_result rc err specified
  | RSuspended => specified = CORO_BUS_ERR_WOULD_BLOCK
  | RVoid => True
  end.

(** The same for a segment of a blocking call, which moreover suspends
    wherever the specified code is WOULD_BLOCK. *)
Definition blocking_code (r : reply) (err specified : coro_bus_error_code)
  : Prop :=
  terminal_code r err specified /\
  (specified = CORO_BUS_ERR_WOULD_BLOCK -> r = RSuspended).

(** The operation is a blocking call, entered or resumed. *)
Definition blocking (e : event) : bool :=
  match e with
  | EvSend _ _ _ _ | EvSendResumed _ _ _ _ _
  | EvRecv _ _ _ | EvRecvResumed _ _ _ _
  | EvBroadcast _ _ _ | EvBroadcastResumed _ _ _ _
  | EvSendV _ _ _ _ _ | EvSendVResumed _ _ _ _ _ _
  | EvRecvV _ _ _ _ | EvRecvVResumed _ _ _ _ _ => true
  | _ => false
  end.

(** A bus whose only channel has capacity 2^32. *)
Definition huge_channel : world :=
  run_all [EvChannelOpen BUS 4294967296] (coro_bus_new initial).2.

(** Slot [i] of the table holds the same channel, with the same
    generation, in [b'] as in [b]. *)
Definition same_at (i : nat) (b b' : coro_bus) : Prop :=
  slot i b' = slot i b /\ channel_gens b' !! i = channel_gens b !! i.

(** What a blocking call makes of the attempt [tried] of its
    non-blocking form on the handle [channel] in the world [w]: the
    result of the attempt, unless it failed with WOULD_BLOCK; then the
    call reads the generation of the channel, links the caller at the
    tail of the queue [q] of the channel in the world [parked] and
    suspends. *)
Definition blocking_of_try {A : Type} (q : queue_sel) (this : coro)
    (bp : bus_ptr) (channel : Z) (w : world) (tried : A * world)
    (parked : world) : outcome A Z * world :=
  match global_error tried.2, resolve bp channel w with
  | CORO_BUS_ERR_WOULD_BLOCK, Some ch =>
      (Suspended (gen_of bp channel w),
       upd (Z.to_nat channel) (linked q this ch) parked)
  | _, _ => (Returned tried.1, tried.2)
  end.

(** The event closes the channel of the handle [h]. *)
Definition closes (h : Z) (e : event) : Prop :=
  match e with
  | EvChannelClose _ c => c = h
  | _ => False
  end.

(** A channel that slot [i] holds in [b] is still there in [b'], as a
    channel of the same capacity, with the same generation. *)
Definition kept_at (i : nat) (b b' : coro_bus) : Prop :=
  forall ch, slot i b = Some ch ->
    exists ch', slot i b' = Some ch' /\ size_limit ch' = size_limit ch /\
      channel_gens b' !! i = channel_gens b !! i.

(** * The scenarios of the specification *)

(** Handoff through a channel of capacity 1: the second send of the
    coroutine 1 suspends, the receive wakes it, and it succeeds when it
    is resumed. *)
Example scenario_handoff :
  run_replies [EvChannelOpen BUS 1; EvSend 1%nat BUS 0 7;
               EvSend 1%nat BUS 0 8; EvRecv 2%nat BUS 0;
               EvSendResumed 1%nat BUS 0 8 1; EvRecv 2%nat BUS 0]
    (coro_bus_new initial).2
  = [RInt 0; RInt 0; RSuspended; RRecv 0 [7]; RInt 0; RRecv 0 [8]] /\
  woken (run_all [EvChannelOpen BUS 1; EvSend 1%nat BUS 0 7;
                  EvSend 1%nat BUS 0 8; EvRecv 2%nat BUS 0]
           (coro_bus_new initial).2) = [1%nat].
Proof. split; reflexivity. Qed.

(** Close with a blocked sender: the sender is woken by the close and
    returns -1 with NO_CHANNEL. *)
Example scenario_close_with_blocked_sender :
  run (EvSendResumed 1%nat BUS 0 2 1)
    (run_all [EvChannelOpen BUS 1; EvTrySend BUS 0 1; EvSend 1%nat BUS 0 2;
              EvChannelClose BUS 0] (coro_bus_new initial).2)
  = (RInt (-1),
     mk_world (mk_bus [None] [2]) CORO_BUS_ERR_NO_CHANNEL [1%nat]).
Proof. reflexivity. Qed.

(** Index reuse: the slot of a closed channel is given to the next one,
    with the generation that the close left. *)
Example scenario_index_reuse :
  run_replies [EvChannelOpen BUS 2; EvChannelClose BUS 0; EvChannelOpen BUS 3]
    (coro_bus_new initial).2
  = [RInt 0; RVoid; RInt 0] /\
  bus (run_all [EvChannelOpen BUS 2; EvChannelClose BUS 0;
                EvChannelOpen BUS 3] (coro_bus_new initial).2)
  = mk_bus [Some (mk_channel 3 [] [] [])] [2].
Proof. split; reflexivity. Qed.

(** A vector send that fits in part, and a vector receive that takes
    everything. *)
Example scenario_batched :
  run_replies [EvChannelOpen BUS 4; EvTrySend BUS 0 1; EvTrySend BUS 0 2;
               EvTrySendV BUS 0 [3; 4; 5; 6] 4; EvTryRecvV BUS 0 10]
    (coro_bus_new initial).2
  = [RInt 0; RInt 0; RInt 0; RInt 2; RRecv 4 [1; 2; 3; 4]].
Proof. reflexivity. Qed.

(** Broadcast is refused while channel 1 is full and goes through once
    it is drained. *)
Example scenario_broadcast_backpressure :
  run_replies [EvTryBroadcast BUS 9; EvTryRecv BUS 1; EvTryBroadcast BUS 9]
    three_channels
  = [RInt (-1); RRecv 0 [5]; RInt 0] /\
  live_channels
    (bus (run_all [EvTryBroadcast BUS 9; EvTryRecv BUS 1;
                   EvTryBroadcast BUS 9] three_channels))
  = [mk_channel 2 [] [] [9]; mk_channel 1 [] [] [9]; mk_channel 2 [] [] [9]].
Proof. split; reflexivity. Qed.

(** Receivers are woken in the order in which they suspended, one per
    message. *)
Example scenario_wake_order :
  woken (run_all [EvChannelOpen BUS 1; EvRecv 1%nat BUS 0;
                  EvRecv 2%nat BUS 0; EvRecv 3%nat BUS 0;
                  EvTrySend BUS 0 1] (coro_bus_new initial).2) = [1%nat] /\
  woken (run_all [EvChannelOpen BUS 1; EvRecv 1%nat BUS 0;
                  EvRecv 2%nat BUS 0; EvRecv 3%nat BUS 0;
                  EvTrySend BUS 0 1; EvRecvResumed 1%nat BUS 0 1;
                  EvTrySend BUS 0 2] (coro_bus_new initial).2)
  = [1%nat; 2%nat].
Proof. split; reflexivity. Qed.

(** * The operations in closed form *)

Lemma world_eta w : mk_world (bus w) (global_error w) (woken w) = w.
Proof. by destruct w. Qed.

Lemma bus_eta b : mk_bus (channels b) (channel_gens b) = b.
Proof. by destruct b. Qed.

Lemma slot_Some_lookup i b ch :
  slot i b = Some ch <-> channels b !! i = Some (Some ch).
Proof.
  unfold slot. destruct (channels b !! i) as [[?|]|]; cbn;
    split; intros H; by simplify_eq.
Qed.

Lemma slot_Some_lt i b ch : slot i b = Some ch -> (i < length (channels b))%nat.
Proof. rewrite slot_Some_lookup. apply lookup_lt_Some. Qed.

Lemma slot_upd j i ch w :
  (i < length (channels (bus w)))%nat ->
  slot j (bus (upd i ch w)) = if decide (j = i) then Some ch else slot j (bus w).
Proof.
  intros Hi. unfold slot, upd; cbn. case_decide as Hji.
  - subst. by rewrite list_lookup_insert_eq.
  - by rewrite list_lookup_insert_ne.
Qed.

Lemma upd_same i ch w : slot i (bus w) = Some ch -> upd i ch w = w.
Proof.
  rewrite slot_Some_lookup. intros H. unfold upd.
  rewrite list_insert_id by done. by rewrite bus_eta, world_eta.
Qed.

Lemma upd_upd i ch ch' w : upd i ch (upd i ch' w) = upd i ch w.
Proof. unfold upd; cbn. by rewrite list_insert_insert_eq. Qed.

Lemma length_channels_upd i ch w :
  length (channels (bus (upd i ch w))) = length (channels (bus w)).
Proof. unfold upd; cbn. apply length_insert. Qed.

Lemma bus_wake l w : bus (wake l w) = bus w.
Proof. done. Qed.

Lemma bus_set_err e w : bus (set_err e w) = bus w.
Proof. done. Qed.

Lemma global_error_set_err e w : global_error (set_err e w) = e.
Proof. done. Qed.

Lemma wake_nil w : wake [] w = w.
Proof. unfold wake. by rewrite app_nil_r, world_eta. Qed.

Lemma wake_wake l1 l2 w : wake l2 (wake l1 w) = wake (l1 ++ l2) w.
Proof. unfold wake; cbn. by rewrite app_assoc. Qed.

Lemma wake_upd l i ch w : wake l (upd i ch w) = upd i ch (wake l w).
Proof. done. Qed.

(** ** The primitives in closed form *)

Lemma on_channel_Some i f w ch :
  slot i (bus w) = Some ch -> on_channel i f w = (tt, upd i (f ch) w).
Proof.
  rewrite slot_Some_lookup. intros H. unfold on_channel, upd. do 3 f_equal.
  apply list_eq. intros j. destruct (decide (i = j)) as [->|Hne].
  - rewrite list_lookup_alter_eq, H. cbn.
    by rewrite list_lookup_insert_eq by by eapply lookup_lt_Some.
  - by rewrite list_lookup_alter_ne, list_lookup_insert_ne.
Qed.

Lemma on_channel_None i f w :
  slot i (bus w) = None -> on_channel i f w = (tt, w).
Proof.
  intros H. unfold on_channel.
  replace (alter (fmap f) i (channels (bus w))) with (channels (bus w)).
  { by rewrite bus_eta, world_eta. }
  apply list_eq. intros j. destruct (decide (i = j)) as [->|Hne].
  - rewrite list_lookup_alter_eq. unfold slot in H.
    by destruct (channels (bus w) !! j) as [[?|]|].
  - by rewrite list_lookup_alter_ne.
Qed.

Lemma wakeup_first_Some i q w ch :
  slot i (bus w) = Some ch ->
  wakeup_queue_wakeup_first i q w =
    (tt, wake (take 1 (queue_of q ch))
           (upd i (with_queue q (drop 1 (queue_of q ch)) ch) w)).
Proof.
  intros H. unfold wakeup_queue_wakeup_first. unfold_M. rewrite H.
  destruct (queue_of q ch) as [|c rest] eqn:Hq; cbn.
  - rewrite wake_nil. f_equal. symmetry. apply upd_same.
    rewrite H. f_equal. destruct q, ch; cbn in *; by subst.
  - erewrite on_channel_Some by done. by rewrite drop_0.
Qed.

Lemma with_queue_with_queue q l l' ch :
  with_queue q l (with_queue q l' ch) = with_queue q l ch.
Proof. by destruct q. Qed.

Lemma queue_of_with_queue q l ch : queue_of q (with_queue q l ch) = l.
Proof. by destruct q. Qed.

Lemma wakeup_n_Some n : forall i q w ch,
  slot i (bus w) = Some ch ->
  wakeup_queue_wakeup_n i q n w =
    (tt, wake (take n (queue_of q ch))
           (upd i (with_queue q (drop n (queue_of q ch)) ch) w)).
Proof.
  induction n as [|n IH]; intros i q w ch H; cbn.
  - rewrite wake_nil, drop_0. unfold_M. f_equal. symmetry. apply upd_same.
    rewrite H. f_equal. by destruct q, ch.
  - unfold_M. rewrite H.
    destruct (queue_of q ch) as [|c rest] eqn:Hq.
    + cbn. rewrite wake_nil. f_equal. symmetry. apply upd_same.
      rewrite H. f_equal. destruct q, ch; cbn in *; by subst.
    + erewrite wakeup_first_Some by done. rewrite Hq. cbn. rewrite drop_0.
      erewrite IH; last first.
      { rewrite bus_wake, slot_upd by by eapply slot_Some_lt.
        by rewrite decide_True. }
      rewrite queue_of_with_queue, with_queue_with_queue.
      by rewrite <- wake_upd, upd_upd, wake_wake.
Qed.

Lemma wakeup_all_eq l : forall w,
  wakeup_queue_wakeup_all l w = (tt, wake l w).
Proof.
  induction l as [|c l IH]; intros w; cbn.
  - by rewrite wake_nil.
  - unfold_M. rewrite IH. by rewrite <- (wake_wake [c] l).
Qed.

Lemma channel_get_eq bus channel w :
  channel_get bus channel w = (resolve bus channel w, w).
Proof.
  unfold resolve, channel_get. unfold_M. destruct bus; [done|].
  by destruct (_ || _).
Qed.

Lemma resolve_Some bp channel w ch :
  resolve bp channel w = Some ch <->
  bp = BUS /\ 0 <= channel /\ slot (Z.to_nat channel) (bus w) = Some ch.
Proof.
  unfold resolve, channel_get. unfold_M. destruct bp; cbn.
  { split; [done | by intros [? _]]. }
  unfold channel_count.
  destruct (channel <? 0) eqn:H0; cbn.
  { split; [done|lia]. }
  destruct (channel >=? _) eqn:H1; cbn.
  - split; [done|]. intros (_ & _ & Hs). apply slot_Some_lt in Hs. lia.
  - split; [intros; split_and!; [done|lia|done] | by intros (_ & _ & ?)].
Qed.

Ltac slot_tac :=
  rewrite ?bus_wake, ?bus_set_err;
  first [ eassumption
        | rewrite slot_upd by (rewrite ?bus_wake, ?bus_set_err;
                               eauto using slot_Some_lt);
          rewrite ?decide_True by done; first [reflexivity | eassumption] ].

(** ** The scalar operations in closed form *)

Lemma try_send_no_channel bus channel v w :
  resolve bus channel w = None ->
  coro_bus_try_send bus channel v w
  = (-1, set_err CORO_BUS_ERR_NO_CHANNEL w).
Proof.
  intros H. unfold coro_bus_try_send. unfold_M.
  by rewrite channel_get_eq, H.
Qed.

Lemma try_send_full bus channel v w ch :
  resolve bus channel w = Some ch -> is_full ch = true ->
  coro_bus_try_send bus channel v w
  = (-1, set_err CORO_BUS_ERR_WOULD_BLOCK w).
Proof.
  intros H Hf. unfold coro_bus_try_send. unfold_M.
  by rewrite channel_get_eq, H, Hf.
Qed.

Lemma try_send_ok bus channel v w ch :
  resolve bus channel w = Some ch -> is_full ch = false ->
  coro_bus_try_send bus channel v w
  = (0, set_err CORO_BUS_ERR_NONE
          (wake (take 1 (recv_queue ch))
             (upd (Z.to_nat channel) (sent v ch) w))).
Proof.
  intros H Hf. unfold coro_bus_try_send. unfold_M.
  rewrite channel_get_eq, H, Hf.
  apply resolve_Some in H as (_ & _ & Hs).
  erewrite on_channel_Some by done.
  erewrite wakeup_first_Some by slot_tac.
  by rewrite upd_upd.
Qed.

Lemma try_recv_no_channel bus channel w :
  resolve bus channel w = None ->
  coro_bus_try_recv bus channel w
  = ((-1, None), set_err CORO_BUS_ERR_NO_CHANNEL w).
Proof.
  intros H. unfold coro_bus_try_recv. unfold_M.
  by rewrite channel_get_eq, H.
Qed.

Lemma try_recv_empty bus channel w ch :
  resolve bus channel w = Some ch -> data ch = [] ->
  coro_bus_try_recv bus channel w
  = ((-1, None), set_err CORO_BUS_ERR_WOULD_BLOCK w).
Proof.
  intros H He. unfold coro_bus_try_recv. unfold_M.
  by rewrite channel_get_eq, H, He.
Qed.

Lemma try_recv_ok bus channel w ch front rest :
  resolve bus channel w = Some ch -> data ch = front :: rest ->
  coro_bus_try_recv bus channel w
  = ((0, Some front),
     set_err CORO_BUS_ERR_NONE
       (wake (take 1 (send_queue ch))
          (upd (Z.to_nat channel) (received ch) w))).
Proof.
  intros H He. unfold coro_bus_try_recv. unfold_M.
  rewrite channel_get_eq, H, He.
  apply resolve_Some in H as (_ & _ & Hs).
  erewrite on_channel_Some by done.
  erewrite wakeup_first_Some by slot_tac.
  rewrite upd_upd. unfold received. rewrite He. done.
Qed.

(** ** Machine-integer facts *)

Lemma to_unsigned_le x : 0 <= x -> 0 <= to_unsigned x <= x.
Proof.
  intros Hx. unfold to_unsigned, UINT_BITS. split.
  - apply Z.mod_pos_bound. lia.
  - apply Z.mod_le; lia.
Qed.

Lemma to_unsigned_small x : is_unsigned x -> to_unsigned x = x.
Proof. unfold is_unsigned, to_unsigned. intros H. by apply Z.mod_small. Qed.

Lemma to_size_t_small x : is_size_t x -> to_size_t x = x.
Proof. unfold is_size_t, to_size_t. intros H. by apply Z.mod_small. Qed.

Lemma to_size_t_range x : is_size_t (to_size_t x).
Proof. unfold is_size_t, to_size_t, SIZE_BITS. apply Z.mod_pos_bound. lia. Qed.

Lemma to_int_small x : 0 <= x < 2 ^ (UINT_BITS - 1) -> to_int x = x.
Proof.
  unfold to_int, UINT_BITS. intros H.
  change (2 ^ (32 - 1)) with 2147483648 in *.
  change (2 ^ 32) with 4294967296.
  rewrite Z.mod_small by lia.
  destruct (x <? 2147483648) eqn:E; lia.
Qed.

(** ** The vector operations in closed form *)

Lemma buf_range_take buf n :
  (n <= length buf)%nat -> buf_range buf 0 n = take n buf.
Proof.
  intros Hn. apply list_eq. intros k. unfold buf_range.
  rewrite list_lookup_fmap. destruct (decide (k < n)%nat) as [Hk|Hk].
  - rewrite lookup_seq_lt by done. cbn. rewrite lookup_take_lt by done.
    destruct (lookup_lt_is_Some_2 buf k) as [x Hx]; [lia|]. by rewrite Hx.
  - rewrite lookup_seq_ge by lia. by rewrite lookup_take_ge by lia.
Qed.

Lemma send_v_push_eq n : forall p buf i w ch,
  slot p (bus w) = Some ch ->
  send_v_push p buf i n w
  = (tt, upd p (with_data (data ch ++ buf_range buf i n) ch) w).
Proof.
  induction n as [|n IH]; intros p buf i w ch H; cbn.
  - unfold_M. f_equal. symmetry. apply upd_same. rewrite H.
    unfold buf_range; cbn. rewrite app_nil_r. by destruct ch.
  - unfold_M. erewrite on_channel_Some by done.
    erewrite IH by slot_tac. rewrite upd_upd. unfold buf_range; cbn.
    by rewrite <- app_assoc.
Qed.

Lemma recv_v_pop_eq n : forall p w ch,
  slot p (bus w) = Some ch -> (n <= length (data ch))%nat ->
  recv_v_pop p n w
  = (take n (data ch), upd p (with_data (drop n (data ch)) ch) w).
Proof.
  induction n as [|n IH]; intros p w ch H Hn; cbn.
  - unfold_M. f_equal. symmetry. apply upd_same. rewrite H. by destruct ch.
  - unfold_M. rewrite H. destruct (data ch) as [|front rest] eqn:Hd.
    { cbn in Hn. lia. }
    erewrite on_channel_Some by done. cbn in Hn.
    erewrite IH; [|slot_tac|cbn; lia]. cbn. by rewrite upd_upd.
Qed.

Lemma send_v_transfer_eq p buf count free_space w ch :
  slot p (bus w) = Some ch ->
  0 <= free_space -> count <= Z.of_nat (length buf) ->
  let n := Z.to_nat (Z.min count (to_unsigned free_space)) in
  send_v_transfer p buf count free_space w
  = (to_int (Z.min count (to_unsigned free_space)),
     set_err CORO_BUS_ERR_NONE
       (wake (take n (recv_queue ch)) (upd p (sent_v buf n ch) w))).
Proof.
  intros H Hf Hc n. unfold send_v_transfer. unfold_M. fold n.
  erewrite send_v_push_eq by done.
  erewrite wakeup_n_Some by slot_tac.
  rewrite upd_upd. rewrite buf_range_take by (subst n; lia). done.
Qed.

Lemma recv_v_transfer_eq p capacity w ch :
  slot p (bus w) = Some ch ->
  let n := Z.to_nat (Z.min capacity
                       (to_unsigned (Z.of_nat (length (data ch))))) in
  recv_v_transfer p capacity (Z.of_nat (length (data ch))) w
  = ((to_int (Z.min capacity (to_unsigned (Z.of_nat (length (data ch))))),
      take n (data ch)),
     set_err CORO_BUS_ERR_NONE
       (wake (take n (send_queue ch)) (upd p (received_v n ch) w))).
Proof.
  intros H n. unfold recv_v_transfer. unfold_M. fold n.
  assert (n <= length (data ch))%nat as Hn.
  { pose proof (to_unsigned_le (Z.of_nat (length (data ch)))). subst n. lia. }
  erewrite recv_v_pop_eq by done.
  erewrite wakeup_n_Some by slot_tac.
  by rewrite upd_upd.
Qed.

Lemma try_send_v_zero bp channel buf w :
  coro_bus_try_send_v bp channel buf 0 w = (0, set_err CORO_BUS_ERR_NONE w).
Proof. done. Qed.

Lemma try_send_v_no_channel bp channel buf count w :
  count <> 0 -> resolve bp channel w = None ->
  coro_bus_try_send_v bp channel buf count w
  = (-1, set_err CORO_BUS_ERR_NO_CHANNEL w).
Proof.
  intros Hc H. unfold coro_bus_try_send_v. unfold_M.
  destruct (Z.eqb_spec count 0); [done|]. by rewrite channel_get_eq, H.
Qed.

Lemma try_send_v_full bp channel buf count w ch :
  count <> 0 -> resolve bp channel w = Some ch ->
  to_size_t (size_limit ch - Z.of_nat (length (data ch))) = 0 ->
  coro_bus_try_send_v bp channel buf count w
  = (-1, set_err CORO_BUS_ERR_WOULD_BLOCK w).
Proof.
  intros Hc H Hf. unfold coro_bus_try_send_v. unfold_M.
  destruct (Z.eqb_spec count 0); [done|]. by rewrite channel_get_eq, H, Hf.
Qed.

Lemma try_send_v_ok bp channel buf count w ch :
  count <> 0 -> count <= Z.of_nat (length buf) ->
  resolve bp channel w = Some ch ->
  let free_space := to_size_t (size_limit ch - Z.of_nat (length (data ch))) in
  let to_send := Z.min count (to_unsigned free_space) in
  free_space <> 0 ->
  coro_bus_try_send_v bp channel buf count w
  = (to_int to_send,
     set_err CORO_BUS_ERR_NONE
       (wake (take (Z.to_nat to_send) (recv_queue ch))
          (upd (Z.to_nat channel) (sent_v buf (Z.to_nat to_send) ch) w))).
Proof.
  intros Hc Hb H free_space to_send Hf. unfold coro_bus_try_send_v. unfold_M.
  destruct (Z.eqb_spec count 0); [done|]. rewrite channel_get_eq, H.
  fold free_space. destruct (Z.eqb_spec free_space 0); [done|].
  apply resolve_Some in H as (_ & _ & Hs).
  apply send_v_transfer_eq; [done| |done].
  apply (to_size_t_range _).
Qed.

Lemma try_recv_v_zero bp channel w :
  coro_bus_try_recv_v bp channel 0 w
  = ((0, []), set_err CORO_BUS_ERR_NONE w).
Proof. done. Qed.

Lemma try_recv_v_no_channel bp channel capacity w :
  capacity <> 0 -> resolve bp channel w = None ->
  coro_bus_try_recv_v bp channel capacity w
  = ((-1, []), set_err CORO_BUS_ERR_NO_CHANNEL w).
Proof.
  intros Hc H. unfold coro_bus_try_recv_v. unfold_M.
  destruct (Z.eqb_spec capacity 0); [done|]. by rewrite channel_get_eq, H.
Qed.

Lemma try_recv_v_empty bp channel capacity w ch :
  capacity <> 0 -> resolve bp channel w = Some ch -> data ch = [] ->
  coro_bus_try_recv_v bp channel capacity w
  = ((-1, []), set_err CORO_BUS_ERR_WOULD_BLOCK w).
Proof.
  intros Hc H He. unfold coro_bus_try_recv_v. unfold_M.
  destruct (Z.eqb_spec capacity 0); [done|]. by rewrite channel_get_eq, H, He.
Qed.

Lemma try_recv_v_ok bp channel capacity w ch :
  capacity <> 0 -> resolve bp channel w = Some ch -> data ch <> [] ->
  let to_recv :=
    Z.min capacity (to_unsigned (Z.of_nat (length (data ch)))) in
  coro_bus_try_recv_v bp channel capacity w
  = ((to_int to_recv, take (Z.to_nat to_recv) (data ch)),
     set_err CORO_BUS_ERR_NONE
       (wake (take (Z.to_nat to_recv) (send_queue ch))
          (upd (Z.to_nat channel) (received_v (Z.to_nat to_recv) ch) w))).
Proof.
  intros Hc H He. cbv zeta. unfold coro_bus_try_recv_v. unfold_M.
  destruct (Z.eqb_spec capacity 0); [done|]. rewrite channel_get_eq, H.
  apply resolve_Some in H as (_ & _ & Hs).
  rewrite <- (recv_v_transfer_eq _ _ _ _ Hs).
  by destruct (data ch).
Qed.

(** ** Broadcast in closed form *)

Lemma broadcast_push_eq n : forall i v w,
  (i + n = length (channels (bus w)))%nat ->
  broadcast_push n i v w
  = (tt, mk_world
           (mk_bus (take i (channels (bus w))
                    ++ (sent_slot v <$> drop i (channels (bus w))))
                   (channel_gens (bus w)))
           (global_error w)
           (woken w ++ first_receivers (drop i (channels (bus w))))).
Proof.
  induction n as [|n IH]; intros i v w Hlen; cbn.
  - unfold_M. rewrite drop_ge by lia. rewrite take_ge by lia. cbn.
    rewrite !app_nil_r. by rewrite bus_eta, world_eta.
  - unfold_M.
    destruct (lookup_lt_is_Some_2 (channels (bus w)) i) as [o Ho]; [lia|].
    rewrite (drop_S _ _ _ Ho). destruct o as [ch|].
    + assert (slot i (bus w) = Some ch) as Hs by by apply slot_Some_lookup.
      rewrite Hs. erewrite on_channel_Some by done.
      erewrite wakeup_first_Some by slot_tac. rewrite upd_upd.
      rewrite IH by (unfold wake, upd; cbn; rewrite length_insert; lia).
      unfold wake, upd; cbn.
      rewrite drop_insert_lt by lia.
      rewrite (take_S_r _ _ (Some (sent v ch)))
        by (apply list_lookup_insert_eq; lia).
      rewrite take_insert_ge by lia.
      unfold first_receivers; cbn. rewrite <- !app_assoc. done.
    + assert (slot i (bus w) = None) as Hs.
      { unfold slot. by rewrite Ho. }
      rewrite Hs. rewrite IH by lia. rewrite (take_S_r _ _ _ Ho).
      unfold first_receivers; cbn. rewrite <- !app_assoc. done.
Qed.

Lemma broadcast_push_all v w :
  broadcast_push (length (channels (bus w))) 0 v w = (tt, broadcasted v w).
Proof. by rewrite broadcast_push_eq by lia. Qed.

Lemma try_broadcast_eq v w :
  coro_bus_try_broadcast BUS v w =
  match broadcast_scan (channels (bus w)) 0 false with
  | ScanFull _ => (-1, set_err CORO_BUS_ERR_WOULD_BLOCK w)
  | ScanNoChannels => (-1, set_err CORO_BUS_ERR_NO_CHANNEL w)
  | ScanFree => (0, set_err CORO_BUS_ERR_NONE (broadcasted v w))
  end.
Proof.
  unfold coro_bus_try_broadcast. unfold_M.
  destruct (broadcast_scan _ _ _); try done.
  by rewrite broadcast_push_all.
Qed.

(** ** Open and close in closed form *)

Lemma first_null_Some chs : forall k i,
  first_null chs k = Some i ->
  (k <= i)%nat /\ chs !! (i - k)%nat = Some None /\
  forall j, (j < i - k)%nat -> exists ch, chs !! j = Some (Some ch).
Proof.
  induction chs as [|[ch|] chs IH]; intros k i H; cbn in H; [done| |].
  - apply IH in H as (Hk & Hi & Hj).
    replace (i - k)%nat with (S (i - S k)) by lia.
    split_and!; [lia|done|]. intros [|j] Hlt; cbn; [eauto|].
    apply Hj. lia.
  - injection H as <-. rewrite Nat.sub_diag. split_and!; [lia|done|].
    intros j Hj. lia.
Qed.

Lemma first_null_None chs : forall k,
  first_null chs k = None ->
  forall j o, chs !! j = Some o -> exists ch, o = Some ch.
Proof.
  induction chs as [|[ch|] chs IH]; intros k H j o Hj; cbn in H; [done| |done].
  destruct j as [|j]; cbn in Hj; [naive_solver|]. by eapply IH.
Qed.

Lemma channel_open_reuse size_limit w i :
  first_null (channels (bus w)) 0 = Some i ->
  coro_bus_channel_open BUS size_limit w
  = (Z.of_nat i,
     set_err CORO_BUS_ERR_NONE (upd i (channel_init size_limit) w)).
Proof. intros H. unfold coro_bus_channel_open. unfold_M. by rewrite H. Qed.

Lemma channel_open_grow size_limit w :
  first_null (channels (bus w)) 0 = None ->
  coro_bus_channel_open BUS size_limit w
  = (channel_count (bus w), set_err CORO_BUS_ERR_NONE (grown size_limit w)).
Proof.
  intros H. unfold coro_bus_channel_open. unfold_M. rewrite H.
  f_equal. lia.
Qed.

Lemma channel_close_none bp channel w :
  resolve bp channel w = None -> coro_bus_channel_close bp channel w = (tt, w).
Proof.
  intros H. unfold coro_bus_channel_close. unfold_M.
  by rewrite channel_get_eq, H.
Qed.

Lemma channel_close_live bp channel w ch :
  resolve bp channel w = Some ch ->
  coro_bus_channel_close bp channel w
  = (tt, wake (send_queue ch ++ recv_queue ch) (closed (Z.to_nat channel) w)).
Proof.
  intros H. unfold coro_bus_channel_close. unfold_M.
  rewrite channel_get_eq, H. rewrite !wakeup_all_eq.
  by rewrite wake_wake.
Qed.

(** ** The blocking segments in closed form *)

Lemma unlink_eq i q this w :
  wakeup_queue_suspend_this_unlink i q this w = (tt, unlink_world i q this w).
Proof. done. Qed.

Lemma unlink_world_Some i q this w ch :
  slot i (bus w) = Some ch ->
  unlink_world i q this w = upd i (unlinked q this ch) w.
Proof.
  intros H. unfold unlink_world, wakeup_queue_suspend_this_unlink.
  by erewrite on_channel_Some.
Qed.

Lemma unlink_world_None i q this w :
  slot i (bus w) = None -> unlink_world i q this w = w.
Proof.
  intros H. unfold unlink_world, wakeup_queue_suspend_this_unlink.
  by rewrite on_channel_None.
Qed.

Lemma link_Some i q this w ch :
  slot i (bus w) = Some ch ->
  wakeup_queue_suspend_this_link i q this w = (tt, upd i (linked q this ch) w).
Proof.
  intros H. unfold wakeup_queue_suspend_this_link.
  by erewrite on_channel_Some.
Qed.

Lemma channel_gen_get_eq bp channel w :
  channel_gen_get bp channel w = (gen_of bp channel w, w).
Proof.
  unfold gen_of, channel_gen_get. unfold_M. destruct bp; [done|].
  by destruct (_ || _).
Qed.

Lemma channel_is_same_eq bp channel gen w :
  channel_is_same bp channel gen w = (same_channel bp channel gen w, w).
Proof.
  unfold same_channel, channel_is_same. unfold_M.
  rewrite channel_get_eq. destruct (resolve _ _ _); [|done].
  by rewrite channel_gen_get_eq.
Qed.

Lemma same_channel_true bp channel gen w :
  same_channel bp channel gen w = true <->
  (exists ch, resolve bp channel w = Some ch) /\ gen_of bp channel w = gen.
Proof.
  unfold same_channel, channel_is_same. unfold_M.
  rewrite channel_get_eq. destruct (resolve _ _ _) as [ch|].
  - rewrite channel_gen_get_eq. cbn. rewrite Z.eqb_eq.
    split; [by eauto | by intros [_ ?]].
  - cbn. split; [done|]. by intros [[? ?] _].
Qed.

Lemma resolve_None bp channel w :
  resolve bp channel w = None <->
  bp = NULL \/ channel < 0 \/ channel_count (bus w) <= channel \/
  slot (Z.to_nat channel) (bus w) = None.
Proof.
  unfold resolve, channel_get. unfold_M. destruct bp; cbn.
  { split; [by left|done]. }
  destruct (channel <? 0) eqn:H0; cbn.
  { split; [intros _; right; left; lia|done]. }
  destruct (channel >=? _) eqn:H1; cbn.
  - split; [intros _; right; right; left; lia|done].
  - split; [by do 3 right|].
    intros [?|[?|[?|?]]]; [done|lia|lia|done].
Qed.

Lemma gen_of_live bp channel w ch :
  bus_ok (bus w) -> resolve bp channel w = Some ch ->
  channel_gens (bus w) !! Z.to_nat channel = Some (gen_of bp channel w).
Proof.
  intros (Hlen & _) (-> & Hc & Hs)%resolve_Some.
  apply slot_Some_lt in Hs.
  destruct (lookup_lt_is_Some_2 (channel_gens (bus w)) (Z.to_nat channel))
    as [g Hg]; [lia|].
  unfold gen_of, channel_gen_get. unfold_M. unfold channel_count.
  rewrite Hg.
  destruct (channel <? 0) eqn:H0; [lia|].
  destruct (channel >=? _) eqn:H1; [lia|done].
Qed.

Lemma same_channel_stale bp channel gen w :
  same_channel bp channel gen w = false ->
  resolve bp channel w = None \/ gen_of bp channel w <> gen.
Proof.
  intros H. destruct (resolve bp channel w) as [ch|] eqn:Hr; [|by left].
  right. intros Hg. assert (same_channel bp channel gen w = true); [|congruence].
  apply same_channel_true. eauto.
Qed.

Lemma resolve_set_err bp channel e w :
  resolve bp channel (set_err e w) = resolve bp channel w.
Proof.
  unfold resolve, channel_get. unfold_M. destruct bp; [done|].
  unfold set_err; cbn. by destruct (_ || _).
Qed.

Lemma gen_of_set_err bp channel e w :
  gen_of bp channel (set_err e w) = gen_of bp channel w.
Proof.
  unfold gen_of, channel_gen_get. unfold_M. destruct bp; [done|].
  unfold set_err; cbn. by destruct (_ || _).
Qed.

Lemma send_no_channel this bp channel v w :
  resolve bp channel w = None ->
  coro_bus_send this bp channel v w
  = (Returned (-1), set_err CORO_BUS_ERR_NO_CHANNEL w).
Proof.
  intros H. unfold coro_bus_send. unfold_M.
  by rewrite try_send_no_channel.
Qed.

Lemma send_ok this bp channel v w ch :
  resolve bp channel w = Some ch -> is_full ch = false ->
  coro_bus_send this bp channel v w
  = (Returned 0,
     set_err CORO_BUS_ERR_NONE
       (wake (take 1 (recv_queue ch))
          (upd (Z.to_nat channel) (sent v ch) w))).
Proof.
  intros H Hf. unfold coro_bus_send. unfold_M.
  by erewrite try_send_ok.
Qed.

Lemma send_suspend this bp channel v w ch :
  resolve bp channel w = Some ch -> is_full ch = true ->
  coro_bus_send this bp channel v w
  = (Suspended (gen_of bp channel w),
     upd (Z.to_nat channel) (linked SendQ this ch)
       (set_err CORO_BUS_ERR_WOULD_BLOCK w)).
Proof.
  intros H Hf. unfold coro_bus_send. unfold_M.
  erewrite try_send_full by done. cbn. rewrite global_error_set_err.
  rewrite channel_get_eq, resolve_set_err, H.
  rewrite channel_gen_get_eq, gen_of_set_err.
  apply resolve_Some in H as (_ & _ & Hs).
  by erewrite link_Some by slot_tac.
Qed.

Lemma recv_no_channel this bp channel w :
  resolve bp channel w = None ->
  coro_bus_recv this bp channel w
  = (Returned (-1, None), set_err CORO_BUS_ERR_NO_CHANNEL w).
Proof.
  intros H. unfold coro_bus_recv. unfold_M.
  by rewrite try_recv_no_channel.
Qed.

Lemma recv_ok this bp channel w ch front rest :
  resolve bp channel w = Some ch -> data ch = front :: rest ->
  coro_bus_recv this bp channel w
  = (Returned (0, Some front),
     set_err CORO_BUS_ERR_NONE
       (wake (take 1 (send_queue ch))
          (upd (Z.to_nat channel) (received ch) w))).
Proof.
  intros H Hd. unfold coro_bus_recv. unfold_M.
  by erewrite try_recv_ok.
Qed.

Lemma recv_suspend this bp channel w ch :
  resolve bp channel w = Some ch -> data ch = [] ->
  coro_bus_recv this bp channel w
  = (Suspended (gen_of bp channel w),
     upd (Z.to_nat channel) (linked RecvQ this ch)
       (set_err CORO_BUS_ERR_WOULD_BLOCK w)).
Proof.
  intros H Hd. unfold coro_bus_recv. unfold_M.
  erewrite try_recv_empty by done. cbn. rewrite global_error_set_err.
  rewrite channel_get_eq, resolve_set_err, H.
  rewrite channel_gen_get_eq, gen_of_set_err.
  apply resolve_Some in H as (_ & _ & Hs).
  by erewrite link_Some by slot_tac.
Qed.

Lemma broadcast_scan_full chs : forall k b blk,
  broadcast_scan chs k b = ScanFull blk ->
  (k <= blk)%nat /\
  exists ch, chs !! (blk - k)%nat = Some (Some ch) /\ is_full ch = true.
Proof.
  induction chs as [|[ch|] chs IH]; intros k b blk H; cbn in H.
  - by destruct b.
  - destruct (is_full ch) eqn:Hf.
    + injection H as <-. rewrite Nat.sub_diag. split; [lia|]. by exists ch.
    + apply IH in H as (Hk & ch' & Hl & Hf').
      split; [lia|]. exists ch'. split; [|done].
      by replace (blk - k)%nat with (S (blk - S k)) by lia.
  - apply IH in H as (Hk & ch' & Hl & Hf').
    split; [lia|]. exists ch'. split; [|done].
    by replace (blk - k)%nat with (S (blk - S k)) by lia.
Qed.

Lemma broadcast_scan_free chs : forall k b,
  broadcast_scan chs k b = ScanFree ->
  (forall j ch, chs !! j = Some (Some ch) -> is_full ch = false) /\
  (b = true \/ exists j ch, chs !! j = Some (Some ch)).
Proof.
  induction chs as [|[ch|] chs IH]; intros k b H; cbn in H.
  - destruct b; [|done]. split; [done|by left].
  - destruct (is_full ch) eqn:Hf; [done|].
    apply IH in H as [Hall _]. split.
    + intros [|j] ch' Hj; cbn in Hj; [by simplify_eq|by eapply Hall].
    + right. by exists 0%nat, ch.
  - apply IH in H as [Hall Hex]. split.
    + intros [|j] ch' Hj; cbn in Hj; [done|by eapply Hall].
    + destruct Hex as [?|(j & ch & Hj)]; [by left|].
      right. by exists (S j), ch.
Qed.

Lemma broadcast_scan_no_channels chs : forall k b,
  broadcast_scan chs k b = ScanNoChannels ->
  b = false /\ forall j ch, chs !! j = Some (Some ch) -> False.
Proof.
  induction chs as [|[ch|] chs IH]; intros k b H; cbn in H.
  - destruct b; [done|]. split; [done|]. by intros j ch.
  - destruct (is_full ch); [done|]. by apply IH in H as [? _].
  - apply IH in H as [-> Hall]. split; [done|].
    intros [|j] ch Hj; cbn in Hj; [done|by eapply Hall].
Qed.

Lemma broadcast_eq this v w :
  coro_bus_broadcast this BUS v w =
  match broadcast_scan (channels (bus w)) 0 false with
  | ScanNoChannels => (Returned (-1), set_err CORO_BUS_ERR_NO_CHANNEL w)
  | ScanFree => (Returned 0, set_err CORO_BUS_ERR_NONE (broadcasted v w))
  | ScanFull blk =>
      (Suspended blk,
       match slot blk (bus w) with
       | Some ch => upd blk (linked SendQ this ch) w
       | None => w
       end)
  end.
Proof.
  unfold coro_bus_broadcast. unfold_M.
  destruct (broadcast_scan _ _ _) as [|blk|] eqn:Hscan; try done.
  - apply broadcast_scan_full in Hscan as (_ & ch & Hl & _).
    rewrite Nat.sub_0_r in Hl. apply slot_Some_lookup in Hl.
    rewrite Hl. by erewrite link_Some.
  - by rewrite broadcast_push_all.
Qed.

Lemma send_v_loop_no_channel this bp channel buf count w :
  resolve bp channel w = None ->
  coro_bus_send_v_loop this bp channel buf count w
  = (Returned (-1), set_err CORO_BUS_ERR_NO_CHANNEL w).
Proof.
  intros H. unfold coro_bus_send_v_loop. unfold_M.
  by rewrite channel_get_eq, H.
Qed.

Lemma send_v_loop_suspend this bp channel buf count w ch :
  resolve bp channel w = Some ch ->
  to_size_t (size_limit ch - Z.of_nat (length (data ch))) = 0 ->
  coro_bus_send_v_loop this bp channel buf count w
  = (Suspended (gen_of bp channel w),
     upd (Z.to_nat channel) (linked SendQ this ch) w).
Proof.
  intros H Hf. unfold coro_bus_send_v_loop. unfold_M.
  rewrite channel_get_eq, H, Hf. cbn. rewrite channel_gen_get_eq.
  apply resolve_Some in H as (_ & _ & Hs).
  by erewrite link_Some.
Qed.

Lemma send_v_loop_ok this bp channel buf count w ch :
  count <= Z.of_nat (length buf) ->
  resolve bp channel w = Some ch ->
  let free_space := to_size_t (size_limit ch - Z.of_nat (length (data ch))) in
  let to_send := Z.min count (to_unsigned free_space) in
  free_space <> 0 ->
  coro_bus_send_v_loop this bp channel buf count w
  = (Returned (to_int to_send),
     set_err CORO_BUS_ERR_NONE
       (wake (take (Z.to_nat to_send) (recv_queue ch))
          (upd (Z.to_nat channel) (sent_v buf (Z.to_nat to_send) ch) w))).
Proof.
  intros Hb H free_space to_send Hf. unfold coro_bus_send_v_loop. unfold_M.
  rewrite channel_get_eq, H. fold free_space.
  destruct (Z.eqb_spec free_space 0); [done|].
  apply resolve_Some in H as (_ & _ & Hs).
  rewrite send_v_transfer_eq with (ch := ch); [done|done| |done].
  apply (to_size_t_range _).
Qed.

Lemma recv_v_loop_no_channel this bp channel capacity w :
  resolve bp channel w = None ->
  coro_bus_recv_v_loop this bp channel capacity w
  = (Returned (-1, []), set_err CORO_BUS_ERR_NO_CHANNEL w).
Proof.
  intros H. unfold coro_bus_recv_v_loop. unfold_M.
  by rewrite channel_get_eq, H.
Qed.

Lemma recv_v_loop_suspend this bp channel capacity w ch :
  resolve bp channel w = Some ch -> data ch = [] ->
  coro_bus_recv_v_loop this bp channel capacity w
  = (Suspended (gen_of bp channel w),
     upd (Z.to_nat channel) (linked RecvQ this ch) w).
Proof.
  intros H Hd. unfold coro_bus_recv_v_loop. unfold_M.
  rewrite channel_get_eq, H, Hd. rewrite channel_gen_get_eq.
  apply resolve_Some in H as (_ & _ & Hs).
  by erewrite link_Some.
Qed.

Lemma recv_v_loop_ok this bp channel capacity w ch :
  resolve bp channel w = Some ch -> data ch <> [] ->
  let to_recv :=
    Z.min capacity (to_unsigned (Z.of_nat (length (data ch)))) in
  coro_bus_recv_v_loop this bp channel capacity w
  = (Returned (to_int to_recv, take (Z.to_nat to_recv) (data ch)),
     set_err CORO_BUS_ERR_NONE
       (wake (take (Z.to_nat to_recv) (send_queue ch))
          (upd (Z.to_nat channel) (received_v (Z.to_nat to_recv) ch) w))).
Proof.
  intros H He. cbv zeta. unfold coro_bus_recv_v_loop. unfold_M.
  rewrite channel_get_eq, H.
  apply resolve_Some in H as (_ & _ & Hs).
  pose proof (recv_v_transfer_eq (Z.to_nat channel) capacity w ch Hs) as Ht.
  cbv zeta in Ht. destruct (data ch) eqn:Hd; [done|].
  by rewrite Ht.
Qed.

(** * Invariants of the reachable worlds *)

Lemma joins_blocked_refl o : joins_blocked o o.
Proof. intros ch' ->. split; intros c Hc; left; eauto. Qed.

Lemma gens_step_refl gens : gens_step gens gens.
Proof. intros i g H. eauto. Qed.

Lemma step_ok_refl b : bus_ok b -> step_ok b b.
Proof.
  intros H. split_and!; [done| |apply gens_step_refl].
  intros i. apply joins_blocked_refl.
Qed.

Lemma elem_of_drop_1 (c : coro) n l : c ∈ drop n l -> c ∈ l.
Proof. apply subseteq_drop. Qed.

Ltac chan_step_tac :=
  unfold chan_step, channel_ok in *; cbn;
  repeat match goal with
         | |- _ /\ _ => split
         | |- forall _, _ => intro
         | H : _ /\ _ |- _ => destruct H
         end.

Lemma chan_step_sent v ch :
  channel_ok ch -> is_full ch = false -> chan_step ch (sent v ch).
Proof.
  unfold is_full. chan_step_tac; try done.
  - rewrite length_app; cbn. lia.
  - by left.
  - left. by eapply elem_of_drop_1.
Qed.

Lemma chan_step_received ch : channel_ok ch -> chan_step ch (received ch).
Proof.
  chan_step_tac; try done.
  - rewrite length_drop. lia.
  - left. by eapply elem_of_drop_1.
  - by left.
Qed.

Lemma chan_step_sent_v buf n ch :
  channel_ok ch ->
  Z.of_nat n <= size_limit ch - Z.of_nat (length (data ch)) ->
  chan_step ch (sent_v buf n ch).
Proof.
  chan_step_tac; try done.
  - rewrite length_app, length_take. lia.
  - by left.
  - left. by eapply elem_of_drop_1.
Qed.

Lemma chan_step_received_v n ch :
  channel_ok ch -> chan_step ch (received_v n ch).
Proof.
  chan_step_tac; try done.
  - rewrite length_drop. lia.
  - left. by eapply elem_of_drop_1.
  - by left.
Qed.

Lemma chan_step_linked_send this ch :
  channel_ok ch -> Z.of_nat (length (data ch)) = size_limit ch ->
  chan_step ch (linked SendQ this ch).
Proof. chan_step_tac; try done; [by right|by left]. Qed.

Lemma chan_step_linked_recv this ch :
  channel_ok ch -> data ch = [] -> chan_step ch (linked RecvQ this ch).
Proof. chan_step_tac; try done; [by left|by right]. Qed.

Lemma chan_step_unlinked q this ch :
  channel_ok ch -> chan_step ch (unlinked q this ch).
Proof.
  destruct q; chan_step_tac; try done; left; try done;
    match goal with
    | H : _ ∈ filter _ _ |- _ => by apply list_elem_of_filter in H as [_ ?]
    end.
Qed.

Lemma is_full_eq ch :
  channel_ok ch -> is_full ch = true ->
  Z.of_nat (length (data ch)) = size_limit ch.
Proof. unfold channel_ok, is_full. intros [_ ?] ?. lia. Qed.

Lemma free_space_eq ch :
  channel_ok ch ->
  to_size_t (size_limit ch - Z.of_nat (length (data ch)))
  = size_limit ch - Z.of_nat (length (data ch)).
Proof.
  unfold channel_ok, is_size_t. intros [? ?].
  apply to_size_t_small. unfold is_size_t. lia.
Qed.

(** ** The building blocks of a step *)

Lemma step_ok_upd w i ch ch' :
  bus_ok (bus w) -> slot i (bus w) = Some ch -> chan_step ch ch' ->
  step_ok (bus w) (bus (upd i ch' w)).
Proof.
  intros (Hlen & Hg & Hch) Hs (Hok & Hsq & Hrq).
  pose proof (slot_Some_lt _ _ _ Hs) as Hlt.
  split_and!.
  - split_and!; [by rewrite length_channels_upd|done|].
    intros j chj. rewrite slot_upd by done. case_decide; [|by apply Hch].
    by intros [= <-].
  - intros j chj. rewrite slot_upd by done. case_decide as Hj.
    + subst j. intros [= <-]. split; intros c Hc.
      * destruct (Hsq c Hc); [left; eauto|by right].
      * destruct (Hrq c Hc); [left; eauto|by right].
    + intros ->. split; intros c Hc; left; eauto.
  - apply gens_step_refl.
Qed.

Lemma step_ok_open_reuse w i size_limit :
  bus_ok (bus w) -> is_size_t size_limit ->
  (i < length (channels (bus w)))%nat ->
  step_ok (bus w) (bus (upd i (channel_init size_limit) w)).
Proof.
  intros (Hlen & Hg & Hch) Hsl Hlt. split_and!.
  - split_and!; [by rewrite length_channels_upd|done|].
    intros j chj. rewrite slot_upd by done. case_decide; [|by apply Hch].
    intros [= <-]. split; [done|]. cbn. unfold is_size_t in Hsl. lia.
  - intros j chj. rewrite slot_upd by done. case_decide as Hj.
    + intros [= <-]. split; intros c Hc; cbn in Hc; by apply elem_of_nil in Hc.
    + intros ->. split; intros c Hc; left; eauto.
  - apply gens_step_refl.
Qed.

Lemma slot_app_l i chs gens o gens' :
  (i < length chs)%nat ->
  slot i (mk_bus (chs ++ o) gens') = slot i (mk_bus chs gens).
Proof. intros H. unfold slot; cbn. by rewrite lookup_app_l. Qed.

Lemma step_ok_grown w size_limit :
  bus_ok (bus w) -> is_size_t size_limit ->
  step_ok (bus w) (bus (grown size_limit w)).
Proof.
  intros (Hlen & Hg & Hch) Hsl. unfold grown; cbn.
  assert (forall j chj,
    slot j (mk_bus (channels (bus w) ++ [Some (channel_init size_limit)])
                   (channel_gens (bus w) ++ [1])) = Some chj ->
    slot j (bus w) = Some chj \/ chj = channel_init size_limit) as Hslot.
  { intros j chj. unfold slot; cbn.
    destruct (decide (j < length (channels (bus w)))%nat) as [Hj|Hj].
    - rewrite lookup_app_l by done. by left.
    - rewrite lookup_app_r by lia.
      destruct (j - length (channels (bus w)))%nat; cbn; [|done].
      intros [= <-]. by right. }
  split_and!.
  - split_and!.
    + cbn. rewrite !length_app. cbn. lia.
    + cbn. intros i g Hi. apply lookup_app_Some in Hi as [Hi|[_ Hi]].
      * by eapply Hg.
      * destruct (i - _)%nat; cbn in Hi; [|done].
        injection Hi as <-. unfold is_size_t, SIZE_BITS. lia.
    + intros j chj Hj. apply Hslot in Hj as [Hj| ->]; [by eapply Hch|].
      split; [done|]. cbn. unfold is_size_t in Hsl. lia.
  - intros j chj Hj. apply Hslot in Hj as [Hj| ->].
    + split; intros c Hc; left; eauto.
    + split; intros c Hc; cbn in Hc; by apply elem_of_nil in Hc.
  - intros i g Hi. exists g. split; [|by left].
    cbn. by apply lookup_app_l_Some.
Qed.

Lemma step_ok_closed w i :
  bus_ok (bus w) -> step_ok (bus w) (bus (closed i w)).
Proof.
  intros (Hlen & Hg & Hch). unfold closed; cbn.
  assert (forall j chj,
    slot j (mk_bus (<[i:=None]> (channels (bus w)))
              (alter (fun g => to_size_t (g + 1)) i (channel_gens (bus w))))
      = Some chj ->
    slot j (bus w) = Some chj) as Hslot.
  { intros j chj. unfold slot; cbn.
    destruct (decide (i = j)) as [->|Hne].
    - destruct (decide (j < length (channels (bus w)))%nat).
      + by rewrite list_lookup_insert_eq.
      + by rewrite list_insert_ge by lia.
    - by rewrite list_lookup_insert_ne. }
  split_and!.
  - split_and!.
    + cbn. by rewrite length_alter, length_insert.
    + cbn. intros j g. destruct (decide (i = j)) as [->|Hne].
      * rewrite list_lookup_alter_eq.
        destruct (channel_gens (bus w) !! j); cbn; [|done].
        intros [= <-]. apply to_size_t_range.
      * rewrite list_lookup_alter_ne by done. apply Hg.
    + intros j chj Hj. apply Hslot in Hj. by eapply Hch.
  - intros j chj Hj. apply Hslot in Hj.
    split; intros c Hc; left; eauto.
  - intros j g Hj. cbn. destruct (decide (i = j)) as [->|Hne].
    + rewrite list_lookup_alter_eq, Hj. cbn. eauto.
    + rewrite list_lookup_alter_ne by done. eauto.
Qed.

Lemma slot_broadcasted j v w :
  slot j (bus (broadcasted v w)) = sent v <$> slot j (bus w).
Proof.
  unfold slot, broadcasted; cbn. rewrite list_lookup_fmap.
  by destruct (channels (bus w) !! j) as [[?|]|].
Qed.

Lemma step_ok_broadcasted w v :
  bus_ok (bus w) ->
  (forall j ch, slot j (bus w) = Some ch -> is_full ch = false) ->
  step_ok (bus w) (bus (broadcasted v w)).
Proof.
  intros (Hlen & Hg & Hch) Hfree. split_and!.
  - split_and!.
    + unfold broadcasted; cbn. by rewrite length_fmap.
    + done.
    + intros j chj. rewrite slot_broadcasted.
      destruct (slot j (bus w)) as [ch|] eqn:Hs; cbn; [|done].
      intros [= <-]. by apply (chan_step_sent v ch); eauto.
  - intros j chj. rewrite slot_broadcasted.
    destruct (slot j (bus w)) as [ch|] eqn:Hs; cbn; [|done].
    intros [= <-].
    destruct (chan_step_sent v ch) as (_ & Hsq & Hrq); eauto.
    split; intros c Hc.
    + destruct (Hsq c Hc); [left; eauto|by right].
    + destruct (Hrq c Hc); [left; eauto|by right].
  - apply gens_step_refl.
Qed.

Lemma upd_set_err i ch e w : upd i ch (set_err e w) = set_err e (upd i ch w).
Proof. done. Qed.

Lemma bus_ok_unlink_world i q this w :
  bus_ok (bus w) -> bus_ok (bus (unlink_world i q this w)).
Proof.
  intros Hok. destruct (slot i (bus w)) as [ch|] eqn:Hs.
  - rewrite (unlink_world_Some _ _ _ _ _ Hs).
    eapply step_ok_upd; [done..|]. apply chan_step_unlinked.
    by eapply Hok.
  - by rewrite unlink_world_None.
Qed.

Lemma unlinked_send_queue q this ch c :
  c ∈ send_queue (unlinked q this ch) -> c ∈ send_queue ch.
Proof.
  destruct q; cbn; [|done]. intros H. by apply list_elem_of_filter in H as [_ ?].
Qed.

Lemma unlinked_recv_queue q this ch c :
  c ∈ recv_queue (unlinked q this ch) -> c ∈ recv_queue ch.
Proof.
  destruct q; cbn; [done|]. intros H. by apply list_elem_of_filter in H as [_ ?].
Qed.

Lemma step_ok_after_unlink i q this w b' :
  bus_ok (bus w) -> step_ok (bus (unlink_world i q this w)) b' ->
  step_ok (bus w) b'.
Proof.
  intros Hok. destruct (slot i (bus w)) as [ch|] eqn:Hs;
    [|by rewrite unlink_world_None].
  rewrite (unlink_world_Some _ _ _ _ _ Hs).
  pose proof (slot_Some_lt _ _ _ Hs) as Hlt.
  intros (Hok' & Hj & Hg). split_and!; [done| |done].
  intros j ch' Hs'. destruct (Hj j ch' Hs') as [Hsend Hrecv].
  split; intros c Hc.
  - destruct (Hsend c Hc) as [(ch1 & Hs1 & Hc1)|?]; [|by right]. left.
    rewrite slot_upd in Hs1 by done. case_decide; [|eauto].
    simplify_eq. exists ch. split; [done|]. by eapply unlinked_send_queue.
  - destruct (Hrecv c Hc) as [(ch1 & Hs1 & Hc1)|?]; [|by right]. left.
    rewrite slot_upd in Hs1 by done. case_decide; [|eauto].
    simplify_eq. exists ch. split; [done|]. by eapply unlinked_recv_queue.
Qed.

(** ** Every operation is a step *)

Ltac norm_bus :=
  cbn [fst snd]; rewrite ?upd_set_err, ?bus_set_err, ?bus_wake.

(** From [H : resolve bp c w = Some ch] and [Hok : bus_ok (bus w)]: the
    handle is not negative, its slot holds [ch], and [ch] is well
    formed. *)
Ltac live_channel H Hok :=
  let Hs := fresh "Hs" in
  let Hch := fresh "Hch" in
  let Hc0 := fresh "Hc0" in
  pose proof H as (_ & Hc0 & Hs)%resolve_Some;
  pose proof (proj2 (proj2 Hok) _ _ Hs) as Hch.

Lemma channel_open_step bp size_limit w :
  bus_ok (bus w) -> is_size_t size_limit ->
  step_ok (bus w) (bus (coro_bus_channel_open bp size_limit w).2).
Proof.
  intros Hok Hsl. destruct bp.
  { norm_bus. by apply step_ok_refl. }
  destruct (first_null (channels (bus w)) 0) as [i|] eqn:Hn.
  - rewrite (channel_open_reuse _ _ _ Hn). norm_bus.
    apply first_null_Some in Hn as (_ & Hi & _).
    apply lookup_lt_Some in Hi. apply step_ok_open_reuse; [done..|lia].
  - rewrite (channel_open_grow _ _ Hn). norm_bus. by apply step_ok_grown.
Qed.

Lemma channel_close_step bp channel w :
  bus_ok (bus w) ->
  step_ok (bus w) (bus (coro_bus_channel_close bp channel w).2).
Proof.
  intros Hok. destruct (resolve bp channel w) as [ch|] eqn:H.
  - rewrite (channel_close_live _ _ _ _ H). norm_bus. by apply step_ok_closed.
  - rewrite (channel_close_none _ _ _ H). by apply step_ok_refl.
Qed.

Lemma op_form_local c bound w r w' :
  op_form c bound w r w' -> local_form c w w'.
Proof.
  intros [err _| |n l ch ch' Hc Hs Hstep _|w0 ch ch' Hb Hc Hs Hstep].
  - by apply lf_same.
  - by apply lf_same.
  - by eapply lf_upd.
  - eapply lf_upd; [done..|]. unfold upd; cbn. by rewrite Hb.
Qed.

Lemma local_form_step c w w' :
  bus_ok (bus w) -> local_form c w w' -> step_ok (bus w) (bus w').
Proof.
  intros Hok [->|ch ch' _ Hs Hstep ->]; [by apply step_ok_refl|].
  by eapply step_ok_upd.
Qed.

Lemma local_form_frame c w w' h :
  local_form c w w' -> 0 <= h -> h <> c ->
  slot (Z.to_nat h) (bus w') = slot (Z.to_nat h) (bus w).
Proof.
  intros [->|ch ch' Hc Hs Hstep ->] Hh Hne; [done|].
  rewrite slot_upd by by eapply slot_Some_lt.
  rewrite decide_False; [done|lia].
Qed.

Ltac op_fail := cbn [fst snd rc_int rc_pair]; by apply of_fail.
Ltac op_done n tac :=
  cbn [fst snd rc_int rc_pair];
  eapply (of_done _ _ _ n); [done|done| |]; tac.
Ltac op_suspend tac :=
  cbn [fst snd rc_int rc_pair];
  first [ rewrite <- upd_set_err | idtac ];
  eapply of_suspend; [done|done|done|]; tac.

Lemma try_send_form bp channel v w :
  bus_ok (bus w) ->
  op_form channel 0 w (Some (coro_bus_try_send bp channel v w).1)
    (coro_bus_try_send bp channel v w).2.
Proof.
  intros Hok. destruct (resolve bp channel w) as [ch|] eqn:H.
  - live_channel H Hok. destruct (is_full ch) eqn:Hf.
    + erewrite try_send_full by done. op_fail.
    + erewrite try_send_ok by done.
      op_done 0 ltac:(first [by apply chan_step_sent | lia]).
  - rewrite try_send_no_channel by done. op_fail.
Qed.

Lemma try_recv_form bp channel w :
  bus_ok (bus w) ->
  op_form channel 0 w (Some (coro_bus_try_recv bp channel w).1.1)
    (coro_bus_try_recv bp channel w).2.
Proof.
  intros Hok. destruct (resolve bp channel w) as [ch|] eqn:H.
  - live_channel H Hok. destruct (data ch) as [|front rest] eqn:Hd.
    + erewrite try_recv_empty by done. op_fail.
    + erewrite try_recv_ok by done.
      op_done 0 ltac:(first [by apply chan_step_received | lia]).
  - rewrite try_recv_no_channel by done. op_fail.
Qed.

Lemma send_form this bp channel v w :
  bus_ok (bus w) ->
  op_form channel 0 w (rc_int (coro_bus_send this bp channel v w).1)
    (coro_bus_send this bp channel v w).2.
Proof.
  intros Hok. destruct (resolve bp channel w) as [ch|] eqn:H.
  - live_channel H Hok. destruct (is_full ch) eqn:Hf.
    + erewrite send_suspend by done.
      op_suspend ltac:(apply chan_step_linked_send;
                       [done|by apply is_full_eq]).
    + erewrite send_ok by done.
      op_done 0 ltac:(first [by apply chan_step_sent | lia]).
  - rewrite send_no_channel by done. op_fail.
Qed.

Lemma recv_form this bp channel w :
  bus_ok (bus w) ->
  op_form channel 0 w (rc_pair (coro_bus_recv this bp channel w).1)
    (coro_bus_recv this bp channel w).2.
Proof.
  intros Hok. destruct (resolve bp channel w) as [ch|] eqn:H.
  - live_channel H Hok. destruct (data ch) as [|front rest] eqn:Hd.
    + erewrite recv_suspend by done.
      op_suspend ltac:(by apply chan_step_linked_recv).
    + erewrite recv_ok by done.
      op_done 0 ltac:(first [by apply chan_step_received | lia]).
  - rewrite recv_no_channel by done. op_fail.
Qed.

Lemma try_send_local bp channel v w :
  bus_ok (bus w) -> local_form channel w (coro_bus_try_send bp channel v w).2.
Proof. intros. eapply op_form_local. by apply try_send_form. Qed.

Lemma try_recv_local bp channel w :
  bus_ok (bus w) -> local_form channel w (coro_bus_try_recv bp channel w).2.
Proof. intros. eapply op_form_local. by apply try_recv_form. Qed.

Lemma send_local this bp channel v w :
  bus_ok (bus w) ->
  local_form channel w (coro_bus_send this bp channel v w).2.
Proof. intros. eapply op_form_local. by apply send_form. Qed.

Lemma recv_local this bp channel w :
  bus_ok (bus w) ->
  local_form channel w (coro_bus_recv this bp channel w).2.
Proof. intros. eapply op_form_local. by apply recv_form. Qed.

Lemma try_send_step bp channel v w :
  bus_ok (bus w) -> step_ok (bus w) (bus (coro_bus_try_send bp channel v w).2).
Proof. intros. eapply local_form_step; [done|by apply try_send_local]. Qed.

Lemma try_recv_step bp channel w :
  bus_ok (bus w) -> step_ok (bus w) (bus (coro_bus_try_recv bp channel w).2).
Proof. intros. eapply local_form_step; [done|by apply try_recv_local]. Qed.

Lemma send_step this bp channel v w :
  bus_ok (bus w) ->
  step_ok (bus w) (bus (coro_bus_send this bp channel v w).2).
Proof. intros. eapply local_form_step; [done|by apply send_local]. Qed.

Lemma recv_step this bp channel w :
  bus_ok (bus w) ->
  step_ok (bus w) (bus (coro_bus_recv this bp channel w).2).
Proof. intros. eapply local_form_step; [done|by apply recv_local]. Qed.

Lemma all_free_slots w :
  broadcast_scan (channels (bus w)) 0 false = ScanFree ->
  forall j ch, slot j (bus w) = Some ch -> is_full ch = false.
Proof.
  intros H j ch Hs. apply broadcast_scan_free in H as [H _].
  apply slot_Some_lookup in Hs. by eapply H.
Qed.

Lemma try_broadcast_step bp v w :
  bus_ok (bus w) -> step_ok (bus w) (bus (coro_bus_try_broadcast bp v w).2).
Proof.
  intros Hok. destruct bp.
  { norm_bus. by apply step_ok_refl. }
  rewrite try_broadcast_eq.
  destruct (broadcast_scan _ _ _) eqn:Hscan; norm_bus;
    try by apply step_ok_refl.
  apply step_ok_broadcasted; [done|]. by apply all_free_slots.
Qed.

Lemma broadcast_step this bp v w :
  bus_ok (bus w) -> step_ok (bus w) (bus (coro_bus_broadcast this bp v w).2).
Proof.
  intros Hok. destruct bp.
  { norm_bus. by apply step_ok_refl. }
  rewrite broadcast_eq.
  destruct (broadcast_scan _ _ _) as [|blk|] eqn:Hscan; norm_bus.
  - by apply step_ok_refl.
  - apply broadcast_scan_full in Hscan as (_ & ch & Hl & Hf).
    rewrite Nat.sub_0_r in Hl. apply slot_Some_lookup in Hl. rewrite Hl.
    pose proof (proj2 (proj2 Hok) _ _ Hl) as Hch.
    eapply step_ok_upd; [done..|].
    apply chan_step_linked_send; [done|]. by apply is_full_eq.
  - apply step_ok_broadcasted; [done|]. by apply all_free_slots.
Qed.

Lemma to_send_bound ch count :
  channel_ok ch -> 0 <= count ->
  Z.of_nat (Z.to_nat (Z.min count
     (to_unsigned (to_size_t (size_limit ch - Z.of_nat (length (data ch)))))))
  <= size_limit ch - Z.of_nat (length (data ch)).
Proof.
  intros Hch Hc. rewrite free_space_eq by done. destruct Hch as [_ Hl].
  pose proof (to_unsigned_le (size_limit ch - Z.of_nat (length (data ch)))).
  lia.
Qed.

Lemma to_send_range ch count :
  channel_ok ch -> 0 <= count ->
  0 <= Z.min count
         (to_unsigned (to_size_t (size_limit ch - Z.of_nat (length (data ch)))))
    <= count.
Proof.
  intros Hch Hc. rewrite free_space_eq by done. destruct Hch as [_ Hl].
  pose proof (to_unsigned_le (size_limit ch - Z.of_nat (length (data ch)))).
  lia.
Qed.

Lemma to_recv_range ch capacity :
  0 <= capacity ->
  0 <= Z.min capacity (to_unsigned (Z.of_nat (length (data ch)))) <= capacity.
Proof.
  intros Hc. pose proof (to_unsigned_le (Z.of_nat (length (data ch)))). lia.
Qed.

Ltac sent_v_tac Hc :=
  first [ apply chan_step_sent_v; [done|]; apply to_send_bound; [done|];
          unfold is_unsigned in Hc; lia
        | apply to_send_range; [done|]; unfold is_unsigned in Hc; lia ].

Ltac received_v_tac Hc :=
  first [ by apply chan_step_received_v
        | apply to_recv_range; unfold is_unsigned in Hc; lia ].

Lemma try_send_v_form bp channel buf count w :
  bus_ok (bus w) -> is_unsigned count -> count <= Z.of_nat (length buf) ->
  op_form channel count w
    (Some (coro_bus_try_send_v bp channel buf count w).1)
    (coro_bus_try_send_v bp channel buf count w).2.
Proof.
  intros Hok Hc Hb. destruct (decide (count = 0)) as [->|Hcnt].
  { rewrite try_send_v_zero. apply of_zero. }
  destruct (resolve bp channel w) as [ch|] eqn:H.
  - live_channel H Hok.
    destruct (decide (to_size_t (size_limit ch - Z.of_nat (length (data ch)))
                      = 0)) as [Hf|Hf].
    + erewrite try_send_v_full by done. op_fail.
    + erewrite try_send_v_ok by done. cbn [fst snd].
      eapply of_done; [done|done| |]; sent_v_tac Hc.
  - rewrite try_send_v_no_channel by done. op_fail.
Qed.

Lemma try_recv_v_form bp channel capacity w :
  bus_ok (bus w) -> is_unsigned capacity ->
  op_form channel capacity w
    (Some (coro_bus_try_recv_v bp channel capacity w).1.1)
    (coro_bus_try_recv_v bp channel capacity w).2.
Proof.
  intros Hok Hc. destruct (decide (capacity = 0)) as [->|Hcnt].
  { rewrite try_recv_v_zero. apply of_zero. }
  destruct (resolve bp channel w) as [ch|] eqn:H.
  - live_channel H Hok. destruct (decide (data ch = [])) as [Hd|Hd].
    + erewrite try_recv_v_empty by done. op_fail.
    + erewrite try_recv_v_ok by done. cbn [fst snd].
      eapply of_done; [done|done| |]; received_v_tac Hc.
  - rewrite try_recv_v_no_channel by done. op_fail.
Qed.

Lemma send_v_loop_form this bp channel buf count w :
  bus_ok (bus w) -> is_unsigned count -> count <= Z.of_nat (length buf) ->
  op_form channel count w
    (rc_int (coro_bus_send_v_loop this bp channel buf count w).1)
    (coro_bus_send_v_loop this bp channel buf count w).2.
Proof.
  intros Hok Hc Hb. destruct (resolve bp channel w) as [ch|] eqn:H.
  - live_channel H Hok.
    destruct (decide (to_size_t (size_limit ch - Z.of_nat (length (data ch)))
                      = 0)) as [Hf|Hf].
    + erewrite send_v_loop_suspend by done. cbn [fst snd rc_int].
      eapply of_suspend; [done..|]. apply chan_step_linked_send; [done|].
      rewrite free_space_eq in Hf by done. lia.
    + erewrite send_v_loop_ok by done. cbn [fst snd rc_int].
      eapply of_done; [done|done| |]; sent_v_tac Hc.
  - rewrite send_v_loop_no_channel by done. op_fail.
Qed.

Lemma send_v_form this bp channel buf count w :
  bus_ok (bus w) -> is_unsigned count -> count <= Z.of_nat (length buf) ->
  op_form channel count w
    (rc_int (coro_bus_send_v this bp channel buf count w).1)
    (coro_bus_send_v this bp channel buf count w).2.
Proof.
  intros Hok Hc Hb. unfold coro_bus_send_v.
  destruct (count =? 0); [apply of_zero|]. by apply send_v_loop_form.
Qed.

Lemma recv_v_loop_form this bp channel capacity w :
  bus_ok (bus w) -> is_unsigned capacity ->
  op_form channel capacity w
    (rc_pair (coro_bus_recv_v_loop this bp channel capacity w).1)
    (coro_bus_recv_v_loop this bp channel capacity w).2.
Proof.
  intros Hok Hc. destruct (resolve bp channel w) as [ch|] eqn:H.
  - live_channel H Hok. destruct (decide (data ch = [])) as [Hd|Hd].
    + erewrite recv_v_loop_suspend by done. cbn [fst snd rc_pair].
      eapply of_suspend; [done..|]. by apply chan_step_linked_recv.
    + erewrite recv_v_loop_ok by done. cbn [fst snd rc_pair].
      eapply of_done; [done|done| |]; received_v_tac Hc.
  - rewrite recv_v_loop_no_channel by done. op_fail.
Qed.

Lemma recv_v_form this bp channel capacity w :
  bus_ok (bus w) -> is_unsigned capacity ->
  op_form channel capacity w
    (rc_pair (coro_bus_recv_v this bp channel capacity w).1)
    (coro_bus_recv_v this bp channel capacity w).2.
Proof.
  intros Hok Hc. unfold coro_bus_recv_v.
  destruct (capacity =? 0); [apply of_zero|]. by apply recv_v_loop_form.
Qed.

Lemma try_send_v_local bp channel buf count w :
  bus_ok (bus w) -> is_unsigned count -> count <= Z.of_nat (length buf) ->
  local_form channel w (coro_bus_try_send_v bp channel buf count w).2.
Proof. intros. eapply op_form_local. by apply try_send_v_form. Qed.

Lemma try_recv_v_local bp channel capacity w :
  bus_ok (bus w) -> is_unsigned capacity ->
  local_form channel w (coro_bus_try_recv_v bp channel capacity w).2.
Proof. intros. eapply op_form_local. by apply try_recv_v_form. Qed.

Lemma send_v_loop_local this bp channel buf count w :
  bus_ok (bus w) -> is_unsigned count -> count <= Z.of_nat (length buf) ->
  local_form channel w
    (coro_bus_send_v_loop this bp channel buf count w).2.
Proof. intros. eapply op_form_local. by apply send_v_loop_form. Qed.

Lemma send_v_local this bp channel buf count w :
  bus_ok (bus w) -> is_unsigned count -> count <= Z.of_nat (length buf) ->
  local_form channel w (coro_bus_send_v this bp channel buf count w).2.
Proof. intros. eapply op_form_local. by apply send_v_form. Qed.

Lemma recv_v_loop_local this bp channel capacity w :
  bus_ok (bus w) -> is_unsigned capacity ->
  local_form channel w (coro_bus_recv_v_loop this bp channel capacity w).2.
Proof. intros. eapply op_form_local. by apply recv_v_loop_form. Qed.

Lemma recv_v_local this bp channel capacity w :
  bus_ok (bus w) -> is_unsigned capacity ->
  local_form channel w (coro_bus_recv_v this bp channel capacity w).2.
Proof. intros. eapply op_form_local. by apply recv_v_form. Qed.

Lemma try_send_v_step bp channel buf count w :
  bus_ok (bus w) -> is_unsigned count -> count <= Z.of_nat (length buf) ->
  step_ok (bus w) (bus (coro_bus_try_send_v bp channel buf count w).2).
Proof. intros. eapply local_form_step; [done|by apply try_send_v_local]. Qed.

Lemma try_recv_v_step bp channel capacity w :
  bus_ok (bus w) -> is_unsigned capacity ->
  step_ok (bus w) (bus (coro_bus_try_recv_v bp channel capacity w).2).
Proof. intros. eapply local_form_step; [done|by apply try_recv_v_local]. Qed.

Lemma send_v_loop_step this bp channel buf count w :
  bus_ok (bus w) -> is_unsigned count -> count <= Z.of_nat (length buf) ->
  step_ok (bus w) (bus (coro_bus_send_v_loop this bp channel buf count w).2).
Proof. intros. eapply local_form_step; [done|by apply send_v_loop_local]. Qed.

Lemma send_v_step this bp channel buf count w :
  bus_ok (bus w) -> is_unsigned count -> count <= Z.of_nat (length buf) ->
  step_ok (bus w) (bus (coro_bus_send_v this bp channel buf count w).2).
Proof. intros. eapply local_form_step; [done|by apply send_v_local]. Qed.

Lemma recv_v_loop_step this bp channel capacity w :
  bus_ok (bus w) -> is_unsigned capacity ->
  step_ok (bus w) (bus (coro_bus_recv_v_loop this bp channel capacity w).2).
Proof. intros. eapply local_form_step; [done|by apply recv_v_loop_local]. Qed.

Lemma recv_v_step this bp channel capacity w :
  bus_ok (bus w) -> is_unsigned capacity ->
  step_ok (bus w) (bus (coro_bus_recv_v this bp channel capacity w).2).
Proof. intros. eapply local_form_step; [done|by apply recv_v_local]. Qed.

(** ** The segments that follow a resumption *)

Lemma send_resumed_eq this bp channel v gen w :
  coro_bus_send_resumed this bp channel v gen w =
  let w1 := unlink_world (Z.to_nat channel) SendQ this w in
  if same_channel bp channel gen w1 then coro_bus_send this bp channel v w1
  else (Returned (-1), set_err CORO_BUS_ERR_NO_CHANNEL w1).
Proof.
  unfold coro_bus_send_resumed. unfold_M.
  rewrite unlink_eq, channel_is_same_eq. by destruct (same_channel _ _ _ _).
Qed.

Lemma recv_resumed_eq this bp channel gen w :
  coro_bus_recv_resumed this bp channel gen w =
  let w1 := unlink_world (Z.to_nat channel) RecvQ this w in
  if same_channel bp channel gen w1 then coro_bus_recv this bp channel w1
  else (Returned (-1, None), set_err CORO_BUS_ERR_NO_CHANNEL w1).
Proof.
  unfold coro_bus_recv_resumed. unfold_M.
  rewrite unlink_eq, channel_is_same_eq. by destruct (same_channel _ _ _ _).
Qed.

Lemma broadcast_resumed_eq this bp v blk w :
  coro_bus_broadcast_resumed this bp v blk w =
  coro_bus_broadcast this bp v (unlink_world blk SendQ this w).
Proof. done. Qed.

Lemma send_v_resumed_eq this bp channel buf count gen w :
  coro_bus_send_v_resumed this bp channel buf count gen w =
  let w1 := unlink_world (Z.to_nat channel) SendQ this w in
  if same_channel bp channel gen w1
  then coro_bus_send_v_loop this bp channel buf count w1
  else (Returned (-1), set_err CORO_BUS_ERR_NO_CHANNEL w1).
Proof.
  unfold coro_bus_send_v_resumed. unfold_M.
  rewrite unlink_eq, channel_is_same_eq. by destruct (same_channel _ _ _ _).
Qed.

Lemma recv_v_resumed_eq this bp channel capacity gen w :
  coro_bus_recv_v_resumed this bp channel capacity gen w =
  let w1 := unlink_world (Z.to_nat channel) RecvQ this w in
  if same_channel bp channel gen w1
  then coro_bus_recv_v_loop this bp channel capacity w1
  else (Returned (-1, []), set_err CORO_BUS_ERR_NO_CHANNEL w1).
Proof.
  unfold coro_bus_recv_v_resumed. unfold_M.
  rewrite unlink_eq, channel_is_same_eq. by destruct (same_channel _ _ _ _).
Qed.

Ltac resumed_step Hok lem :=
  cbv zeta; eapply step_ok_after_unlink; [exact Hok|];
  match goal with
  | |- context [unlink_world ?i ?q ?t ?w] =>
      pose proof (bus_ok_unlink_world i q t w Hok)
  end;
  destruct (same_channel _ _ _ _);
  [ by eapply lem | norm_bus; by apply step_ok_refl ].

Lemma run_bus e w :
  bus (run e w).2 =
  match e with
  | EvErrnoSet _ => bus w
  | EvChannelOpen bp size_limit =>
      bus (coro_bus_channel_open bp size_limit w).2
  | EvChannelClose bp channel => bus (coro_bus_channel_close bp channel w).2
  | EvTrySend bp channel v => bus (coro_bus_try_send bp channel v w).2
  | EvTryRecv bp channel => bus (coro_bus_try_recv bp channel w).2
  | EvTryBroadcast bp v => bus (coro_bus_try_broadcast bp v w).2
  | EvTrySendV bp channel buf count =>
      bus (coro_bus_try_send_v bp channel buf count w).2
  | EvTryRecvV bp channel capacity =>
      bus (coro_bus_try_recv_v bp channel capacity w).2
  | EvSend this bp channel v => bus (coro_bus_send this bp channel v w).2
  | EvSendResumed this bp channel v gen =>
      bus (coro_bus_send_resumed this bp channel v gen w).2
  | EvRecv this bp channel => bus (coro_bus_recv this bp channel w).2
  | EvRecvResumed this bp channel gen =>
      bus (coro_bus_recv_resumed this bp channel gen w).2
  | EvBroadcast this bp v => bus (coro_bus_broadcast this bp v w).2
  | EvBroadcastResumed this bp v blk =>
      bus (coro_bus_broadcast_resumed this bp v blk w).2
  | EvSendV this bp channel buf count =>
      bus (coro_bus_send_v this bp channel buf count w).2
  | EvSendVResumed this bp channel buf count gen =>
      bus (coro_bus_send_v_resumed this bp channel buf count gen w).2
  | EvRecvV this bp channel capacity =>
      bus (coro_bus_recv_v this bp channel capacity w).2
  | EvRecvVResumed this bp channel capacity gen =>
      bus (coro_bus_recv_v_resumed this bp channel capacity gen w).2
  end.
Proof.
  destruct e; cbn [run]; unfold_M; try done;
    match goal with |- context [let (_, _) := ?m in _] => by destruct m end.
Qed.

Lemma run_step e w :
  bus_ok (bus w) -> event_ok e -> step_ok (bus w) (bus (run e w).2).
Proof.
  intros Hok He. rewrite run_bus. destruct e; cbn in He.
  - by apply step_ok_refl.
  - by apply channel_open_step.
  - by apply channel_close_step.
  - by apply try_send_step.
  - by apply try_recv_step.
  - by apply try_broadcast_step.
  - destruct He. by apply try_send_v_step.
  - by apply try_recv_v_step.
  - by apply send_step.
  - rewrite send_resumed_eq. resumed_step Hok send_step.
  - by apply recv_step.
  - rewrite recv_resumed_eq. resumed_step Hok recv_step.
  - by apply broadcast_step.
  - rewrite broadcast_resumed_eq. eapply step_ok_after_unlink; [done|].
    apply broadcast_step. by apply bus_ok_unlink_world.
  - destruct He. by apply send_v_step.
  - destruct He as (_ & ? & ?). rewrite send_v_resumed_eq.
    resumed_step Hok send_v_loop_step.
  - by apply recv_v_step.
  - destruct He as (_ & ?). rewrite recv_v_resumed_eq.
    resumed_step Hok recv_v_loop_step.
Qed.

Lemma bus_ok_new w : bus_ok (bus (coro_bus_new w).2).
Proof. split_and!; [done| |]; intros i x; cbn; by destruct i. Qed.

Lemma reachable_ok w : reachable w -> bus_ok (bus w).
Proof.
  induction 1 as [w|e w _ IH He]; [apply bus_ok_new|].
  by apply run_step.
Qed.

Lemma reachable_run_all tr : forall w,
  reachable w -> Forall event_ok tr -> reachable (run_all tr w).
Proof.
  induction tr as [|e tr IH]; intros w Hw Htr; [done|].
  inversion Htr; subst. cbn. apply IH; [|done]. by apply reach_step.
Qed.

Lemma reachable_bounded w i ch :
  reachable w -> slot i (bus w) = Some ch ->
  Z.of_nat (length (data ch)) <= size_limit ch.
Proof. intros Hw Hs. by eapply (reachable_ok w Hw). Qed.

(** * The properties of the specification *)

(** ** Scalar non-blocking operations *)

(** C5. In every reachable world, [coro_bus_try_send] fails with
    NO_CHANNEL when the handle does not resolve to a live channel; fails
    with WOULD_BLOCK, changing nothing but the error code, when the
    buffer length equals the capacity; otherwise it appends the value at
    the tail of the buffer, takes the first receive-waiter (if any) off
    its queue and wakes it, sets NONE and returns 0.
    [coro_bus_try_recv] is symmetric: NO_CHANNEL, WOULD_BLOCK on an empty
    buffer, otherwise the head of the buffer is stored through the out
    pointer, the first send-waiter (if any) is woken, NONE is set and 0
    returned. *)
Theorem scalar_nonblocking_contract w bp channel v :
  reachable w ->
  match resolve bp channel w with
  | None =>
      coro_bus_try_send bp channel v w
      = (-1, set_err CORO_BUS_ERR_NO_CHANNEL w)
  | Some ch =>
      if decide (Z.of_nat (length (data ch)) = size_limit ch) then
        coro_bus_try_send bp channel v w
        = (-1, set_err CORO_BUS_ERR_WOULD_BLOCK w)
      else
        coro_bus_try_send bp channel v w
        = (0, set_err CORO_BUS_ERR_NONE
                (wake (take 1 (recv_queue ch))
                   (upd (Z.to_nat channel)
                      (mk_channel (size_limit ch) (send_queue ch)
                         (drop 1 (recv_queue ch)) (data ch ++ [v]))
                      w)))
  end /\
  match resolve bp channel w with
  | None =>
      coro_bus_try_recv bp channel w
      = ((-1, None), set_err CORO_BUS_ERR_NO_CHANNEL w)
  | Some ch =>
      match data ch with
      | [] =>
          coro_bus_try_recv bp channel w
          = ((-1, None), set_err CORO_BUS_ERR_WOULD_BLOCK w)
      | front :: rest =>
          coro_bus_try_recv bp channel w
          = ((0, Some front),
             set_err CORO_BUS_ERR_NONE
               (wake (take 1 (send_queue ch))
                  (upd (Z.to_nat channel)
                     (mk_channel (size_limit ch) (drop 1 (send_queue ch))
                        (recv_queue ch) rest)
                     w)))
      end
  end.
Proof.
  intros Hw. destruct (resolve bp channel w) as [ch|] eqn:H.
  - pose proof H as (_ & _ & Hs)%resolve_Some.
    pose proof (reachable_bounded _ _ _ Hw Hs) as Hb. split.
    + case_decide as Hfull.
      * apply try_send_full with ch; [done|]. unfold is_full. lia.
      * erewrite try_send_ok; [done..|]. unfold is_full. lia.
    + destruct (data ch) as [|front rest] eqn:Hd.
      * by apply try_recv_empty with ch.
      * erewrite try_recv_ok by done. unfold received. by rewrite Hd.
  - split; [by apply try_send_no_channel|by apply try_recv_no_channel].
Qed.

Lemma scalar_nonblocking_contract_witness :
  coro_bus_try_send BUS 0 8 one_full_channel
  = (-1, set_err CORO_BUS_ERR_WOULD_BLOCK one_full_channel) /\
  coro_bus_try_recv BUS 0 one_full_channel
  = ((0, Some 7),
     set_err CORO_BUS_ERR_NONE
       (upd 0 (mk_channel 1 [] [] []) one_full_channel)).
Proof.
  apply (scalar_nonblocking_contract one_full_channel BUS 0 8).
  apply reachable_run_all; [apply reach_new|].
  repeat constructor; cbn; unfold is_size_t, SIZE_BITS; lia.
Defined.

(** ** Vector calls with a zero count *)

(** C10. Whatever the bus pointer and the handle are (a NULL bus, an
    index out of the table, a closed slot), [coro_bus_try_send_v] and
    [coro_bus_send_v] with [count == 0], and [coro_bus_try_recv_v] and
    [coro_bus_recv_v] with [capacity == 0], return 0 with the error code
    NONE; nothing is stored through the out pointer, and the bus and the
    scheduler are left as they were. *)
Theorem zero_count_never_resolves w this bp channel buf :
  coro_bus_try_send_v bp channel buf 0 w
    = (0, set_err CORO_BUS_ERR_NONE w) /\
  coro_bus_send_v this bp channel buf 0 w
    = (Returned 0, set_err CORO_BUS_ERR_NONE w) /\
  coro_bus_try_recv_v bp channel 0 w
    = ((0, []), set_err CORO_BUS_ERR_NONE w) /\
  coro_bus_recv_v this bp channel 0 w
    = (Returned (0, []), set_err CORO_BUS_ERR_NONE w) /\
  bus (set_err CORO_BUS_ERR_NONE w) = bus w /\
  woken (set_err CORO_BUS_ERR_NONE w) = woken w /\
  global_error (set_err CORO_BUS_ERR_NONE w) = CORO_BUS_ERR_NONE.
Proof. by split_and!. Qed.

(** ** Channels of capacity zero *)

Lemma broadcast_scan_blocks chs : forall k b j ch,
  chs !! j = Some (Some ch) -> is_full ch = true ->
  exists blk, broadcast_scan chs k b = ScanFull blk.
Proof.
  induction chs as [|[ch0|] chs IH]; intros k b j ch Hj Hf; [done| |].
  - cbn. destruct (is_full ch0) eqn:Hf0; [by eauto|].
    destruct j as [|j]; cbn in Hj; [simplify_eq; congruence|]. by eapply IH.
  - cbn. destruct j as [|j]; cbn in Hj; [done|]. by eapply IH.
Qed.

Lemma try_broadcast_blocked v w j ch :
  slot j (bus w) = Some ch -> is_full ch = true ->
  coro_bus_try_broadcast BUS v w = (-1, set_err CORO_BUS_ERR_WOULD_BLOCK w).
Proof.
  intros Hs Hf. apply slot_Some_lookup in Hs. rewrite try_broadcast_eq.
  by destruct (broadcast_scan_blocks _ 0%nat false _ _ Hs Hf) as [blk ->].
Qed.

(** C9. In every reachable world a live channel of capacity 0 has an
    empty buffer; [coro_bus_try_send] on it, and [coro_bus_try_send_v]
    with a count above 0, fail with WOULD_BLOCK and change nothing else;
    [coro_bus_try_recv] and [coro_bus_try_recv_v] on it fail with
    WOULD_BLOCK, so no message comes out of it; and every
    [coro_bus_try_broadcast] on the bus fails with WOULD_BLOCK. *)
Theorem zero_capacity_unusable w bp channel ch :
  reachable w -> resolve bp channel w = Some ch -> size_limit ch = 0 ->
  data ch = [] /\
  (forall v, coro_bus_try_send bp channel v w
             = (-1, set_err CORO_BUS_ERR_WOULD_BLOCK w)) /\
  (forall buf count, 0 < count ->
     coro_bus_try_send_v bp channel buf count w
     = (-1, set_err CORO_BUS_ERR_WOULD_BLOCK w)) /\
  coro_bus_try_recv bp channel w
    = ((-1, None), set_err CORO_BUS_ERR_WOULD_BLOCK w) /\
  (forall capacity, 0 < capacity ->
     coro_bus_try_recv_v bp channel capacity w
     = ((-1, []), set_err CORO_BUS_ERR_WOULD_BLOCK w)) /\
  (forall v, coro_bus_try_broadcast bp v w
             = (-1, set_err CORO_BUS_ERR_WOULD_BLOCK w)).
Proof.
  intros Hw H Hz. pose proof H as (-> & _ & Hs)%resolve_Some.
  pose proof (reachable_bounded _ _ _ Hw Hs) as Hb.
  assert (data ch = []) as Hd.
  { destruct (data ch); [done|]. cbn in Hb. lia. }
  assert (is_full ch = true) as Hf.
  { unfold is_full. rewrite Hd, Hz. done. }
  split_and!.
  - done.
  - intros v. by eapply try_send_full.
  - intros buf count Hc. eapply try_send_v_full; [lia|done|].
    by rewrite Hd, Hz.
  - by eapply try_recv_empty.
  - intros capacity Hc. eapply try_recv_v_empty; [lia|done..].
  - intros v. by eapply try_broadcast_blocked.
Qed.

Lemma zero_capacity_unusable_witness :
  coro_bus_try_send BUS 0 5 zero_capacity_bus
    = (-1, set_err CORO_BUS_ERR_WOULD_BLOCK zero_capacity_bus) /\
  coro_bus_try_send_v BUS 0 [5; 6] 2 zero_capacity_bus
    = (-1, set_err CORO_BUS_ERR_WOULD_BLOCK zero_capacity_bus) /\
  coro_bus_try_broadcast BUS 5 zero_capacity_bus
    = (-1, set_err CORO_BUS_ERR_WOULD_BLOCK zero_capacity_bus).
Proof.
  assert (reachable zero_capacity_bus) as Hw.
  { apply reachable_run_all; [apply reach_new|].
    repeat constructor; cbn; unfold is_size_t, SIZE_BITS; lia. }
  destruct (zero_capacity_unusable zero_capacity_bus BUS 0
              (mk_channel 0 [] [] []) Hw eq_refl eq_refl)
    as (_ & Hsend & Hsend_v & _ & _ & Hbroadcast).
  split_and!; [apply Hsend|apply Hsend_v; lia|apply Hbroadcast].
Defined.

(** ** Non-blocking broadcast *)

Lemma elem_of_live_channels ch b :
  ch ∈ live_channels b <-> exists j, slot j b = Some ch.
Proof.
  unfold live_channels. rewrite list_elem_of_omap. split.
  - intros (o & Ho & Hid). cbn in Hid. subst o.
    apply list_elem_of_lookup in Ho as [j Hj]. exists j.
    by apply slot_Some_lookup.
  - intros (j & Hj). apply slot_Some_lookup in Hj. exists (Some ch).
    split; [|done]. by eapply list_elem_of_lookup_2.
Qed.

(** C4. In every reachable world, [coro_bus_try_broadcast]: with no live
    channel, fails with NO_CHANNEL and changes nothing else; with a live
    channel whose buffer length equals its capacity, fails with
    WOULD_BLOCK and changes nothing else; otherwise returns 0 with NONE,
    and in every live slot the value is appended at the tail of the
    buffer (the length grows by one) and the first receive-waiter, if
    there is one, is taken off the queue and woken; NULL slots, the
    generations and the send queues are as before. *)
Theorem try_broadcast_all_or_none w v :
  reachable w ->
  match live_channels (bus w) with
  | [] =>
      coro_bus_try_broadcast BUS v w
      = (-1, set_err CORO_BUS_ERR_NO_CHANNEL w)
  | _ :: _ =>
      if decide (Exists (fun ch => Z.of_nat (length (data ch)) = size_limit ch)
                   (live_channels (bus w)))
      then coro_bus_try_broadcast BUS v w
           = (-1, set_err CORO_BUS_ERR_WOULD_BLOCK w)
      else exists w',
        coro_bus_try_broadcast BUS v w = (0, set_err CORO_BUS_ERR_NONE w') /\
        (forall j,
           slot j (bus w')
           = (fun ch => mk_channel (size_limit ch) (send_queue ch)
                          (drop 1 (recv_queue ch)) (data ch ++ [v]))
             <$> slot j (bus w)) /\
        length (channels (bus w')) = length (channels (bus w)) /\
        channel_gens (bus w') = channel_gens (bus w) /\
        woken w' = woken w ++ first_receivers (channels (bus w))
  end.
Proof.
  intros Hw. rewrite try_broadcast_eq.
  destruct (live_channels (bus w)) as [|ch0 l] eqn:Hlive.
  - destruct (broadcast_scan _ _ _) as [|blk|] eqn:Hscan; [done| |].
    + apply broadcast_scan_full in Hscan as (_ & ch & Hl & _).
      apply slot_Some_lookup in Hl.
      assert (ch ∈ live_channels (bus w)) as Hin
        by (apply elem_of_live_channels; eauto).
      rewrite Hlive in Hin. by apply elem_of_nil in Hin.
    + apply broadcast_scan_free in Hscan as [_ [?|(j & ch & Hl)]]; [done|].
      apply slot_Some_lookup in Hl.
      assert (ch ∈ live_channels (bus w)) as Hin
        by (apply elem_of_live_channels; eauto).
      rewrite Hlive in Hin. by apply elem_of_nil in Hin.
  - rewrite <- Hlive. case_decide as Hfull.
    + apply Exists_exists in Hfull as (ch & Hin & Hlen).
      apply elem_of_live_channels in Hin as [j Hs].
      apply slot_Some_lookup in Hs.
      assert (is_full ch = true) as Hf by (unfold is_full; lia).
      by destruct (broadcast_scan_blocks _ 0%nat false _ _ Hs Hf) as [blk ->].
    + destruct (broadcast_scan _ _ _) as [|blk|] eqn:Hscan.
      * apply broadcast_scan_no_channels in Hscan as [_ Hnone].
        assert (ch0 ∈ live_channels (bus w)) as Hin
          by (rewrite Hlive; apply elem_of_cons; by left).
        apply elem_of_live_channels in Hin as [j Hs].
        apply slot_Some_lookup in Hs. by destruct (Hnone _ _ Hs).
      * apply broadcast_scan_full in Hscan as (_ & ch & Hl & Hf).
        apply slot_Some_lookup in Hl. destruct Hfull.
        apply Exists_exists. exists ch. split.
        { apply elem_of_live_channels. eauto. }
        pose proof (reachable_bounded _ _ _ Hw Hl). unfold is_full in Hf. lia.
      * exists (broadcasted v w). split_and!; try done.
        -- intros j. apply slot_broadcasted.
        -- unfold broadcasted; cbn. by rewrite length_fmap.
Qed.

Lemma try_broadcast_all_or_none_witness :
  coro_bus_try_broadcast BUS 9 three_channels
  = (-1, set_err CORO_BUS_ERR_WOULD_BLOCK three_channels) /\
  exists w',
    coro_bus_try_broadcast BUS 9 three_channels_drained
    = (0, set_err CORO_BUS_ERR_NONE w') /\
    (forall j,
       slot j (bus w')
       = (fun ch => mk_channel (size_limit ch) (send_queue ch)
                      (drop 1 (recv_queue ch)) (data ch ++ [9]))
         <$> slot j (bus three_channels_drained)) /\
    length (channels (bus w')) = length (channels (bus three_channels_drained))
    /\
    channel_gens (bus w') = channel_gens (bus three_channels_drained) /\
    woken w'
    = woken three_channels_drained
      ++ first_receivers (channels (bus three_channels_drained)).
Proof.
  assert (reachable three_channels) as Hw.
  { apply reachable_run_all; [apply reach_new|].
    repeat constructor; cbn; unfold is_size_t, SIZE_BITS; lia. }
  split.
  - exact (try_broadcast_all_or_none three_channels 9 Hw).
  - apply (try_broadcast_all_or_none three_channels_drained 9).
    apply reachable_run_all; [exact Hw|]. repeat constructor.
Defined.

(** ** Blocking calls *)

Lemma completes_ind_failure {A L : Type} (resumed : L -> M (outcome A L))
    (failed : A -> Prop) p rc w' :
  completes resumed p rc w' ->
  (forall rc0 w0, p = (Returned rc0, w0) -> failed rc0 ->
     global_error w0 = CORO_BUS_ERR_NO_CHANNEL) ->
  (forall locals w2 rc0 w0, resumed locals w2 = (Returned rc0, w0) ->
     failed rc0 -> global_error w0 = CORO_BUS_ERR_NO_CHANNEL) ->
  failed rc -> global_error w' = CORO_BUS_ERR_NO_CHANNEL.
Proof.
  intros Hc. induction Hc as [rc w|locals w w2 rc w' _ IH];
    intros Hp Hres Hfail.
  - by eapply Hp.
  - apply IH; [|done..]. intros rc0 w0 Heq. by eapply Hres.
Qed.

Lemma send_segment_failure this bp channel v w rc w' :
  coro_bus_send this bp channel v w = (Returned rc, w') -> rc = -1 ->
  global_error w' = CORO_BUS_ERR_NO_CHANNEL.
Proof.
  destruct (resolve bp channel w) as [ch|] eqn:H.
  - destruct (is_full ch) eqn:Hf.
    + by erewrite send_suspend by done.
    + erewrite send_ok by done. intros [= <- <-]. done.
  - rewrite send_no_channel by done. by intros [= <- <-].
Qed.

Lemma recv_segment_failure this bp channel w r w' :
  coro_bus_recv this bp channel w = (Returned r, w') -> r.1 = -1 ->
  global_error w' = CORO_BUS_ERR_NO_CHANNEL.
Proof.
  destruct (resolve bp channel w) as [ch|] eqn:H.
  - destruct (data ch) as [|front rest] eqn:Hd.
    + by erewrite recv_suspend by done.
    + erewrite recv_ok by done. intros [= <- <-]. done.
  - rewrite recv_no_channel by done. by intros [= <- <-].
Qed.

Lemma send_resumed_failure this bp channel v gen w rc w' :
  coro_bus_send_resumed this bp channel v gen w = (Returned rc, w') ->
  rc = -1 -> global_error w' = CORO_BUS_ERR_NO_CHANNEL.
Proof.
  rewrite send_resumed_eq. cbv zeta. destruct (same_channel _ _ _ _).
  - apply send_segment_failure.
  - by intros [= <- <-].
Qed.

Lemma recv_resumed_failure this bp channel gen w r w' :
  coro_bus_recv_resumed this bp channel gen w = (Returned r, w') ->
  r.1 = -1 -> global_error w' = CORO_BUS_ERR_NO_CHANNEL.
Proof.
  rewrite recv_resumed_eq. cbv zeta. destruct (same_channel _ _ _ _).
  - apply recv_segment_failure.
  - by intros [= <- <-].
Qed.

Lemma resolve_unlink_world bp channel i q this w :
  resolve bp channel (unlink_world i q this w) = None <->
  resolve bp channel w = None.
Proof.
  unfold resolve, channel_get. unfold_M. destruct bp; [done|].
  unfold unlink_world, wakeup_queue_suspend_this_unlink, on_channel,
    channel_count; cbn.
  rewrite length_alter. destruct (_ || _); [done|]. cbn.
  unfold slot; cbn. destruct (decide (i = Z.to_nat channel)) as [->|Hne].
  - rewrite list_lookup_alter_eq.
    by destruct (channels (bus w) !! Z.to_nat channel) as [[?|]|].
  - by rewrite list_lookup_alter_ne.
Qed.

Lemma gen_of_unlink_world bp channel i q this w :
  gen_of bp channel (unlink_world i q this w) = gen_of bp channel w.
Proof.
  unfold gen_of, channel_gen_get. unfold_M. destruct bp; [done|].
  unfold unlink_world, wakeup_queue_suspend_this_unlink, on_channel,
    channel_count; cbn.
  rewrite length_alter. by destruct (_ || _).
Qed.

Lemma same_channel_false bp channel gen i q this w :
  resolve bp channel w = None \/ gen_of bp channel w <> gen ->
  same_channel bp channel gen (unlink_world i q this w) = false.
Proof.
  intros H. destruct (same_channel _ _ _ _) eqn:Hsame; [|done].
  apply same_channel_true in Hsame as [[ch Hch] Hgen].
  rewrite gen_of_unlink_world in Hgen. destruct H as [H|H]; [|done].
  apply (resolve_unlink_world _ _ i q this) in H. congruence.
Qed.

Lemma stale_in_table bp channel gen w :
  bus_ok (bus w) ->
  bp = NULL \/ channel < 0 \/ slot (Z.to_nat channel) (bus w) = None \/
    channel_gens (bus w) !! Z.to_nat channel <> Some gen ->
  resolve bp channel w = None \/ gen_of bp channel w <> gen.
Proof.
  intros Hok H. destruct (resolve bp channel w) as [ch|] eqn:Hr; [|by left].
  right. pose proof (gen_of_live _ _ _ _ Hok Hr) as Hg.
  apply resolve_Some in Hr as (-> & Hc & Hs).
  destruct H as [?|[?|[?|Hne]]]; [done|lia|congruence|].
  intros <-. done.
Qed.

Lemma same_in_table bp channel gen i q this w ch :
  bus_ok (bus w) -> bp = BUS -> 0 <= channel ->
  slot (Z.to_nat channel) (bus w) = Some ch ->
  channel_gens (bus w) !! Z.to_nat channel = Some gen ->
  same_channel bp channel gen (unlink_world i q this w) = true.
Proof.
  intros Hok -> Hc Hs Hg.
  assert (resolve BUS channel w = Some ch) as Hr by by apply resolve_Some.
  apply same_channel_true. split.
  - destruct (resolve BUS channel (unlink_world i q this w)) as [ch'|] eqn:H';
      [by eauto|].
    apply resolve_unlink_world in H'. congruence.
  - rewrite gen_of_unlink_world.
    pose proof (gen_of_live _ _ _ _ Hok Hr). congruence.
Qed.

(** C2. (1, 2) A call of [coro_bus_send] or [coro_bus_recv] that returns
    -1, after any number of suspensions and whatever the other
    coroutines did in between, leaves the error code NO_CHANNEL (so
    never WOULD_BLOCK). (3) When such a call suspends, its handle names
    a live channel and the generation it keeps across the suspension is
    the one that the table holds for the slot at that moment. (4) When
    the call is resumed and the slot of its handle is no longer live,
    or the table holds another generation for it than the one kept, the
    segment sets NO_CHANNEL and returns -1 at once: it changes nothing
    but the error code (and its own queue entry, which it unlinks) and
    does not suspend again. (5) When the slot is live with the
    generation kept, the resumed call goes through the loop again: it
    is the call entered anew, after the unlinking. *)
Theorem blocking_failure_is_no_channel this bp channel v :
  (forall w rc w',
     returns (coro_bus_send this bp channel v)
       (coro_bus_send_resumed this bp channel v) w rc w' ->
     rc = -1 -> global_error w' = CORO_BUS_ERR_NO_CHANNEL) /\
  (forall w r w',
     returns (coro_bus_recv this bp channel)
       (coro_bus_recv_resumed this bp channel) w r w' ->
     r.1 = -1 -> global_error w' = CORO_BUS_ERR_NO_CHANNEL) /\
  (forall w gen,
     reachable w ->
     (coro_bus_send this bp channel v w).1 = Suspended gen \/
     (coro_bus_recv this bp channel w).1 = Suspended gen ->
     exists ch,
       bp = BUS /\ 0 <= channel /\
       slot (Z.to_nat channel) (bus w) = Some ch /\
       channel_gens (bus w) !! Z.to_nat channel = Some gen) /\
  (forall gen w,
     reachable w ->
     bp = NULL \/ channel < 0 \/
       slot (Z.to_nat channel) (bus w) = None \/
       channel_gens (bus w) !! Z.to_nat channel <> Some gen ->
     coro_bus_send_resumed this bp channel v gen w
     = (Returned (-1),
        set_err CORO_BUS_ERR_NO_CHANNEL
          (unlink_world (Z.to_nat channel) SendQ this w)) /\
     coro_bus_recv_resumed this bp channel gen w
     = (Returned (-1, None),
        set_err CORO_BUS_ERR_NO_CHANNEL
          (unlink_world (Z.to_nat channel) RecvQ this w))) /\
  (forall gen w ch,
     reachable w -> bp = BUS -> 0 <= channel ->
     slot (Z.to_nat channel) (bus w) = Some ch ->
     channel_gens (bus w) !! Z.to_nat channel = Some gen ->
     coro_bus_send_resumed this bp channel v gen w
     = coro_bus_send this bp channel v
         (unlink_world (Z.to_nat channel) SendQ this w) /\
     coro_bus_recv_resumed this bp channel gen w
     = coro_bus_recv this bp channel
         (unlink_world (Z.to_nat channel) RecvQ this w)).
Proof.
  split_and!.
  - intros w rc w' Hret Hrc.
    eapply (completes_ind_failure _ (fun rc => rc = -1)); [exact Hret| | |done].
    + intros rc0 w0. apply send_segment_failure.
    + intros gen w2 rc0 w0. apply send_resumed_failure.
  - intros w r w' Hret Hrc.
    eapply (completes_ind_failure _ (fun r => r.1 = -1));
      [exact Hret| | |done].
    + intros rc0 w0. apply recv_segment_failure.
    + intros gen w2 rc0 w0. apply recv_resumed_failure.
  - intros w gen Hw Hsusp. pose proof (reachable_ok w Hw) as Hok.
    destruct (resolve bp channel w) as [ch|] eqn:H.
    + exists ch. pose proof (gen_of_live _ _ _ _ Hok H) as Hg.
      pose proof H as (-> & Hc & Hs)%resolve_Some.
      split_and!; [done..|]. rewrite Hg. f_equal.
      destruct Hsusp as [Hsusp|Hsusp].
      * destruct (is_full ch) eqn:Hf.
        -- rewrite (send_suspend _ _ _ _ _ _ H Hf) in Hsusp.
           by injection Hsusp.
        -- by rewrite (send_ok _ _ _ _ _ _ H Hf) in Hsusp.
      * destruct (data ch) as [|front rest] eqn:Hd.
        -- rewrite (recv_suspend _ _ _ _ _ H Hd) in Hsusp.
           by injection Hsusp.
        -- by rewrite (recv_ok _ _ _ _ _ _ _ H Hd) in Hsusp.
    + rewrite send_no_channel, recv_no_channel in Hsusp by done.
      by destruct Hsusp.
  - intros gen w Hw H. pose proof (reachable_ok w Hw) as Hok.
    apply (stale_in_table _ _ _ _ Hok) in H. split.
    + rewrite send_resumed_eq. cbv zeta. by rewrite same_channel_false.
    + rewrite recv_resumed_eq. cbv zeta. by rewrite same_channel_false.
  - intros gen w ch Hw Hbp Hc Hs Hg. pose proof (reachable_ok w Hw) as Hok.
    split.
    + rewrite send_resumed_eq. cbv zeta.
      by erewrite same_in_table by done.
    + rewrite recv_resumed_eq. cbv zeta.
      by erewrite same_in_table by done.
Qed.

Lemma blocking_failure_is_no_channel_witness :
  exists gen,
    (coro_bus_send 1%nat BUS 0 8 one_full_channel).1 = Suspended gen /\
    channel_gens (bus one_full_channel) !! 0%nat = Some gen /\
    channel_gens (bus closed_and_reopened) !! 0%nat = Some (gen + 1) /\
    coro_bus_send_resumed 1%nat BUS 0 8 gen closed_and_reopened
    = (Returned (-1),
       set_err CORO_BUS_ERR_NO_CHANNEL
         (unlink_world 0 SendQ 1%nat closed_and_reopened)) /\
    global_error
      (coro_bus_send_resumed 1%nat BUS 0 8 gen closed_and_reopened).2
    = CORO_BUS_ERR_NO_CHANNEL.
Proof.
  assert (reachable one_full_channel) as Hw.
  { apply reachable_run_all; [apply reach_new|].
    repeat constructor; cbn; unfold is_size_t, SIZE_BITS; lia. }
  assert (reachable closed_and_reopened) as Hw'.
  { apply reachable_run_all; [exact Hw|].
    repeat constructor; cbn; unfold is_size_t, SIZE_BITS; lia. }
  destruct (blocking_failure_is_no_channel 1%nat BUS 0 8)
    as (Hret & _ & Hsnap & Hstale & _).
  destruct (coro_bus_send 1%nat BUS 0 8 one_full_channel) as [o w1] eqn:Hrun.
  destruct o as [rc|gen]; [vm_compute in Hrun; discriminate Hrun|].
  exists gen.
  destruct (Hsnap one_full_channel gen Hw) as (ch & _ & _ & _ & Hgen).
  { left. by rewrite Hrun. }
  assert (channel_gens (bus closed_and_reopened) !! 0%nat = Some (gen + 1))
    as Hgen'.
  { vm_compute in Hgen. injection Hgen as <-. reflexivity. }
  split_and!.
  - reflexivity.
  - exact Hgen.
  - exact Hgen'.
  - apply (Hstale gen closed_and_reopened Hw').
    do 3 right. change (Z.to_nat 0) with 0%nat.
    rewrite Hgen'. intros [= Heq]. lia.
  - apply (Hret one_full_channel (-1)); [|reflexivity].
    unfold returns. rewrite Hrun.
    eapply (completes_resume _ gen w1 closed_and_reopened).
    destruct (Hstale gen closed_and_reopened Hw') as [-> _].
    { do 3 right. change (Z.to_nat 0) with 0%nat.
      rewrite Hgen'. intros [= Heq]. lia. }
    apply completes_return.
Defined.

(** ** FIFO delivery *)

Lemma slot_unlink_world j i q this w :
  slot j (bus (unlink_world i q this w))
  = if decide (j = i) then unlinked q this <$> slot j (bus w)
    else slot j (bus w).
Proof.
  destruct (slot i (bus w)) as [ch|] eqn:Hs.
  - rewrite (unlink_world_Some _ _ _ _ _ Hs).
    rewrite slot_upd by by eapply slot_Some_lt.
    case_decide; [|done]. subst. by rewrite Hs.
  - rewrite (unlink_world_None _ _ _ _ Hs).
    case_decide; [|done]. subst. by rewrite Hs.
Qed.

Lemma buffer_unlink_world h i q this w :
  buffer h (unlink_world i q this w) = buffer h w.
Proof.
  unfold buffer. rewrite slot_unlink_world. case_decide; [|done].
  destruct (slot _ _) as [ch|]; [|done]. by destruct q.
Qed.

Lemma local_form_buffer c w w' h :
  local_form c w w' -> 0 <= h -> h <> c -> buffer h w' = buffer h w.
Proof. intros. unfold buffer. by erewrite local_form_frame. Qed.

Lemma slot_grown j size_limit w :
  slot j (bus (grown size_limit w))
  = if decide (j = length (channels (bus w)))
    then Some (channel_init size_limit) else slot j (bus w).
Proof.
  unfold slot, grown; cbn. case_decide as Hj.
  - subst. by rewrite list_lookup_middle.
  - destruct (decide (j < length (channels (bus w)))%nat).
    + by rewrite lookup_app_l.
    + rewrite lookup_app_r by lia.
      rewrite (lookup_ge_None_2 (channels (bus w))) by lia.
      by destruct (j - length (channels (bus w)))%nat as [|[|?]] eqn:E;
        [lia|..].
Qed.

Lemma slot_closed j i w :
  slot j (bus (closed i w)) = if decide (j = i) then None else slot j (bus w).
Proof.
  unfold slot, closed; cbn. case_decide as Hji.
  - subst. destruct (decide (i < length (channels (bus w)))%nat).
    + by rewrite list_lookup_insert_eq.
    + rewrite list_insert_ge by lia. by rewrite lookup_ge_None_2 by lia.
  - by rewrite list_lookup_insert_ne.
Qed.

Ltac resumed_frame Hok lem :=
  cbv zeta;
  match goal with
  | |- context [unlink_world ?i ?q ?t ?w] =>
      pose proof (bus_ok_unlink_world i q t w Hok);
      rewrite <- (buffer_unlink_world _ i q t w)
  end;
  destruct (same_channel _ _ _ _);
  [ eapply local_form_buffer; [by eapply lem|done|done] | done ].

(** An operation that does not touch a live channel leaves its buffer
    alone. *)
Lemma run_frame h e w d :
  bus_ok (bus w) -> event_ok e -> ~ touches h e -> 0 <= h ->
  buffer h w = Some d -> buffer h (run e w).2 = Some d.
Proof.
  intros Hok He Ht Hh Hd. rewrite <- Hd. unfold buffer at 1.
  rewrite run_bus. destruct e; cbn in He, Ht;
    try (by destruct Ht); fold (buffer h w).
  - done.
  - destruct bus0; [done|].
    destruct (first_null (channels (bus w)) 0) as [i|] eqn:Hn.
    + rewrite (channel_open_reuse _ _ _ Hn). norm_bus.
      apply first_null_Some in Hn as (_ & Hi & _).
      rewrite Nat.sub_0_r in Hi. rewrite slot_upd by by eapply lookup_lt_Some.
      case_decide as Heq; [|done]. unfold buffer in Hd. rewrite Heq in Hd.
      unfold slot in Hd. by rewrite Hi in Hd.
    + rewrite (channel_open_grow _ _ Hn). norm_bus. unfold grown; cbn.
      unfold buffer in *.
      destruct (slot (Z.to_nat h) (bus w)) as [ch|] eqn:Hs; [|done].
      erewrite slot_app_l by by eapply slot_Some_lt. by rewrite bus_eta, Hs.
  - destruct (resolve bus0 channel w) as [ch|] eqn:H.
    + rewrite (channel_close_live _ _ _ _ H). norm_bus.
      apply resolve_Some in H as (_ & Hc & _).
      rewrite slot_closed. rewrite decide_False by lia. done.
    + by rewrite (channel_close_none _ _ _ H).
  - eapply local_form_buffer; [by apply try_send_local|done..].
  - eapply local_form_buffer; [by apply try_recv_local|done..].
  - destruct He. eapply local_form_buffer; [by apply try_send_v_local|done..].
  - eapply local_form_buffer; [by apply try_recv_v_local|done..].
  - eapply local_form_buffer; [by apply send_local|done..].
  - rewrite send_resumed_eq. resumed_frame Hok send_local.
  - eapply local_form_buffer; [by apply recv_local|done..].
  - rewrite recv_resumed_eq. resumed_frame Hok recv_local.
  - destruct He. eapply local_form_buffer; [by apply send_v_local|done..].
  - destruct He as (_ & ? & ?). rewrite send_v_resumed_eq.
    resumed_frame Hok send_v_loop_local.
  - eapply local_form_buffer; [by apply recv_v_local|done..].
  - destruct He as (_ & ?). rewrite recv_v_resumed_eq.
    resumed_frame Hok recv_v_loop_local.
Qed.

Lemma resolve_slot bp h w ch ch0 :
  resolve bp h w = Some ch0 -> slot (Z.to_nat h) (bus w) = Some ch -> ch0 = ch.
Proof. intros (_ & _ & Hs)%resolve_Some. congruence. Qed.

Lemma buffer_upd h ch w :
  (Z.to_nat h < length (channels (bus w)))%nat ->
  buffer h (upd (Z.to_nat h) ch w) = Some (data ch).
Proof. intros. unfold buffer. rewrite slot_upd by done. by rewrite decide_True. Qed.

Lemma try_send_buffer bp h v w d :
  buffer h w = Some d -> (coro_bus_try_send bp h v w).1 = 0 ->
  buffer h (coro_bus_try_send bp h v w).2 = Some (d ++ [v]).
Proof.
  unfold buffer at 1. intros Hd.
  destruct (slot (Z.to_nat h) (bus w)) as [ch|] eqn:Hs; [|done].
  injection Hd as <-. destruct (resolve bp h w) as [ch0|] eqn:H.
  - rewrite (resolve_slot _ _ _ _ _ H Hs) in H.
    destruct (is_full ch) eqn:Hf.
    + by erewrite try_send_full by done.
    + erewrite try_send_ok by done. intros _. cbn [snd].
      unfold buffer. norm_bus. fold (buffer h (upd (Z.to_nat h) (sent v ch) w)).
      by rewrite buffer_upd by by eapply slot_Some_lt.
  - by rewrite try_send_no_channel by done.
Qed.

Lemma send_buffer this bp h v w d :
  buffer h w = Some d ->
  reply_int (coro_bus_send this bp h v w).1 = RInt 0 ->
  buffer h (coro_bus_send this bp h v w).2 = Some (d ++ [v]).
Proof.
  unfold buffer at 1. intros Hd.
  destruct (slot (Z.to_nat h) (bus w)) as [ch|] eqn:Hs; [|done].
  injection Hd as <-. destruct (resolve bp h w) as [ch0|] eqn:H.
  - rewrite (resolve_slot _ _ _ _ _ H Hs) in H.
    destruct (is_full ch) eqn:Hf.
    + by erewrite send_suspend by done.
    + erewrite send_ok by done. intros _. cbn [snd].
      unfold buffer. norm_bus. fold (buffer h (upd (Z.to_nat h) (sent v ch) w)).
      by rewrite buffer_upd by by eapply slot_Some_lt.
  - by rewrite send_no_channel by done.
Qed.

Lemma try_recv_buffer bp h w d x :
  buffer h w = Some d ->
  (coro_bus_try_recv bp h w).1 = (0, Some x) ->
  exists rest, d = x :: rest /\
    buffer h (coro_bus_try_recv bp h w).2 = Some rest.
Proof.
  unfold buffer at 1. intros Hd.
  destruct (slot (Z.to_nat h) (bus w)) as [ch|] eqn:Hs; [|done].
  injection Hd as <-. destruct (resolve bp h w) as [ch0|] eqn:H.
  - rewrite (resolve_slot _ _ _ _ _ H Hs) in H.
    destruct (data ch) as [|front rest] eqn:Hdata.
    + by erewrite try_recv_empty by done.
    + erewrite try_recv_ok by done. intros [= ->]. exists rest.
      split; [done|]. cbn [snd]. unfold buffer. norm_bus.
      fold (buffer h (upd (Z.to_nat h) (received ch) w)).
      rewrite buffer_upd by by eapply slot_Some_lt.
      unfold received; cbn. by rewrite Hdata.
  - by rewrite try_recv_no_channel by done.
Qed.

Lemma recv_buffer this bp h w d x :
  buffer h w = Some d ->
  reply_recv (coro_bus_recv this bp h w).1 = RRecv 0 [x] ->
  exists rest, d = x :: rest /\
    buffer h (coro_bus_recv this bp h w).2 = Some rest.
Proof.
  unfold buffer at 1. intros Hd.
  destruct (slot (Z.to_nat h) (bus w)) as [ch|] eqn:Hs; [|done].
  injection Hd as <-. destruct (resolve bp h w) as [ch0|] eqn:H.
  - rewrite (resolve_slot _ _ _ _ _ H Hs) in H.
    destruct (data ch) as [|front rest] eqn:Hdata.
    + by erewrite recv_suspend by done.
    + erewrite recv_ok by done. intros [= ->]. exists rest.
      split; [done|]. cbn [snd]. unfold buffer. norm_bus.
      fold (buffer h (upd (Z.to_nat h) (received ch) w)).
      rewrite buffer_upd by by eapply slot_Some_lt.
      unfold received; cbn. by rewrite Hdata.
  - by rewrite recv_no_channel by done.
Qed.

(** A successful scalar send on [h] appends its value to the buffer. *)
Lemma run_send_buffer h e v w d :
  send_of h e = Some v -> (run e w).1 = RInt 0 -> buffer h w = Some d ->
  buffer h (run e w).2 = Some (d ++ [v]).
Proof.
  intros Hsend Hrc Hd. destruct e; cbn in Hsend; try done;
    case_decide; simplify_eq; cbn [run] in *; unfold_M.
  - destruct (coro_bus_try_send _ _ _ _) as [rc w'] eqn:E. cbn in *.
    injection Hrc as ->.
    pose proof (try_send_buffer bus0 h v w d Hd) as Hb.
    rewrite E in Hb. by apply Hb.
  - destruct (coro_bus_send _ _ _ _ _) as [o w'] eqn:E. cbn in *.
    pose proof (send_buffer this bus0 h v w d Hd) as Hb.
    rewrite E in Hb. by apply Hb.
  - destruct (coro_bus_send_resumed _ _ _ _ _ _) as [o w'] eqn:E. cbn in *.
    rewrite send_resumed_eq in E. cbv zeta in E.
    destruct (same_channel _ _ _ _).
    + pose proof (send_buffer this bus0 h v
                    (unlink_world (Z.to_nat h) SendQ this w) d) as Hb.
      rewrite buffer_unlink_world, E in Hb. by apply Hb.
    + by simplify_eq.
Qed.

(** A successful scalar receive on [h] takes the head of the buffer. *)
Lemma run_recv_buffer h e x w d :
  is_recv h e -> (run e w).1 = RRecv 0 [x] -> buffer h w = Some d ->
  exists rest, d = x :: rest /\ buffer h (run e w).2 = Some rest.
Proof.
  intros Hrecv Hrc Hd. destruct e; cbn in Hrecv; try done;
    subst; cbn [run] in *; unfold_M.
  - destruct (coro_bus_try_recv _ _ _) as [[rc out] w'] eqn:E. cbn in *.
    destruct out as [y|]; [|done]. cbn in Hrc. injection Hrc as -> ->.
    pose proof (try_recv_buffer bus0 h w d x Hd) as Hb.
    rewrite E in Hb. by apply Hb.
  - destruct (coro_bus_recv _ _ _ _) as [o w'] eqn:E. cbn in *.
    pose proof (recv_buffer this bus0 h w d x Hd) as Hb.
    rewrite E in Hb. by apply Hb.
  - destruct (coro_bus_recv_resumed _ _ _ _ _) as [o w'] eqn:E. cbn in *.
    rewrite recv_resumed_eq in E. cbv zeta in E.
    destruct (same_channel _ _ _ _).
    + pose proof (recv_buffer this bus0 h
                    (unlink_world (Z.to_nat h) RecvQ this w) d x) as Hb.
      rewrite buffer_unlink_world, E in Hb. by apply Hb.
    + by simplify_eq.
Qed.

Lemma sends_phase_buffer h vs w w' :
  sends_phase h vs w w' -> forall d,
  reachable w -> 0 <= h -> buffer h w = Some d ->
  reachable w' /\ buffer h w' = Some (d ++ vs).
Proof.
  induction 1 as [w|e w vs w' He Ht _ IH|e v w vs w' He Hs Hrc _ IH];
    intros d Hw Hh Hd.
  - by rewrite app_nil_r.
  - apply IH; [by apply reach_step|done|].
    apply run_frame; [by apply reachable_ok|done..].
  - rewrite (assoc_L _ d [v] vs : d ++ v :: vs = (d ++ [v]) ++ vs).
    apply IH; [by apply reach_step|done|]. by apply run_send_buffer.
Qed.

Lemma recvs_phase_buffer h xs w w' :
  recvs_phase h xs w w' -> forall d,
  reachable w -> 0 <= h -> buffer h w = Some d ->
  exists rest, d = xs ++ rest /\ buffer h w' = Some rest.
Proof.
  induction 1 as [w|e w xs w' He Ht _ IH|e x w xs w' He Hr Hrc _ IH];
    intros d Hw Hh Hd.
  - by exists d.
  - apply IH; [by apply reach_step|done|].
    apply run_frame; [by apply reachable_ok|done..].
  - destruct (run_recv_buffer h e x w d Hr Hrc Hd) as (rest & -> & Hb).
    destruct (IH rest) as (rest' & -> & Hb'); [by apply reach_step|done..|].
    by exists rest'.
Qed.

Lemma channel_open_resolve size_limit w0 h w :
  coro_bus_channel_open BUS size_limit w0 = (h, w) ->
  resolve BUS h w = Some (channel_init size_limit).
Proof.
  destruct (first_null (channels (bus w0)) 0) as [i|] eqn:Hn.
  - rewrite (channel_open_reuse _ _ _ Hn). intros [= <- <-].
    apply first_null_Some in Hn as (_ & Hi & _). rewrite Nat.sub_0_r in Hi.
    apply resolve_Some. rewrite Nat2Z.id. split_and!; [done|lia|].
    rewrite bus_set_err, slot_upd by by eapply lookup_lt_Some.
    by rewrite decide_True.
  - rewrite (channel_open_grow _ _ Hn). intros [= <- <-].
    apply resolve_Some. unfold channel_count. rewrite Nat2Z.id.
    split_and!; [done|lia|].
    rewrite bus_set_err, slot_grown. by rewrite decide_True.
Qed.

Lemma fifo_from_buffer h ch vs xs w w1 w2 :
  reachable w -> resolve BUS h w = Some ch ->
  sends_phase h vs w w1 -> recvs_phase h xs w1 w2 ->
  length xs = length vs ->
  xs = take (length vs) (data ch ++ vs) /\
  (data ch = [] -> xs = vs).
Proof.
  intros Hw (_ & Hh & Hs)%resolve_Some Hsend Hrecv Hlen.
  assert (buffer h w = Some (data ch)) as Hb.
  { unfold buffer. by rewrite Hs. }
  destruct (sends_phase_buffer _ _ _ _ Hsend _ Hw Hh Hb) as [Hw1 Hb1].
  destruct (recvs_phase_buffer _ _ _ _ Hrecv _ Hw1 Hh Hb1)
    as (rest & Heq & _).
  assert (xs = take (length vs) (data ch ++ vs)) as Hxs.
  { rewrite Heq, <- Hlen. by rewrite take_app_length. }
  split; [done|]. intros Hd. rewrite Hd in Hxs. cbn in Hxs.
  by rewrite firstn_all in Hxs.
Qed.

(** C3. Take any channel, from the moment [coro_bus_channel_open] has
    returned its handle [h]. If the run goes on with a stretch in which
    the operations on that channel are [n] successful scalar sends, of
    the values [vs] in this order, and then a stretch in which the
    operations on that channel are [n] successful scalar receives, then
    the receives return exactly [vs], in the order of the sends.
    Operations on other channels may come in between at any place.
    The same holds from any reachable world in which the channel of [h]
    is live with an empty buffer; and when the buffer holds messages at
    the start, they are older than the sends and the receives return
    them first, then the sent values: first in, first out. *)
Theorem fifo_delivery h vs xs w w1 w2 :
  reachable w ->
  sends_phase h vs w w1 -> recvs_phase h xs w1 w2 ->
  length xs = length vs ->
  (forall w0 size_limit,
     coro_bus_channel_open BUS size_limit w0 = (h, w) -> xs = vs) /\
  (forall ch,
     resolve BUS h w = Some ch ->
     xs = take (length vs) (data ch ++ vs) /\
     (data ch = [] -> xs = vs)).
Proof.
  intros Hw Hsend Hrecv Hlen. split.
  - intros w0 size_limit Hopen.
    pose proof (channel_open_resolve _ _ _ _ Hopen) as H.
    by apply (fifo_from_buffer h _ vs xs w w1 w2 Hw H Hsend Hrecv Hlen).
  - intros ch H. by apply (fifo_from_buffer h ch vs xs w w1 w2).
Qed.

Lemma fifo_delivery_witness :
  reachable opened_channel /\
  coro_bus_channel_open BUS 2 (coro_bus_new initial).2 = (0, opened_channel) /\
  sends_phase 0 [10; 20] opened_channel opened_channel_sent /\
  recvs_phase 0 [10; 20] opened_channel_sent opened_channel_received /\
  [10; 20] = [10; 20].
Proof.
  assert (reachable opened_channel) as Hw.
  { change opened_channel
      with (run_all [EvChannelOpen BUS 2] (coro_bus_new initial).2).
    apply reachable_run_all; [apply reach_new|].
    repeat constructor; cbn; unfold is_size_t, SIZE_BITS; lia. }
  assert (sends_phase 0 [10; 20] opened_channel opened_channel_sent)
    as Hsend.
  { apply (sends_send 0 (EvTrySend BUS 0 10)); [exact I|reflexivity..|].
    apply (sends_other 0 (EvChannelOpen BUS 1));
      [cbn; unfold is_size_t, SIZE_BITS; lia|cbn; tauto|].
    apply (sends_other 0 (EvTrySend BUS 1 99)); [exact I|cbn; lia|].
    apply (sends_send 0 (EvSend 4%nat BUS 0 20)); [exact I|reflexivity..|].
    apply sends_nil. }
  assert (recvs_phase 0 [10; 20] opened_channel_sent opened_channel_received)
    as Hrecv.
  { apply (recvs_recv 0 (EvTryRecv BUS 0)); [exact I|reflexivity..|].
    apply (recvs_other 0 (EvTryRecv BUS 1)); [exact I|cbn; lia|].
    apply (recvs_recv 0 (EvRecv 5%nat BUS 0)); [exact I|reflexivity..|].
    apply recvs_nil. }
  destruct (fifo_delivery 0 [10; 20] [10; 20]
              opened_channel opened_channel_sent opened_channel_received
              Hw Hsend Hrecv eq_refl) as [Hopen _].
  split_and!; [done|reflexivity|done|done|].
  exact (Hopen (coro_bus_new initial).2 2 eq_refl).
Defined.

(** ** Waiters and the state of the buffer *)

(** C1, as stated, fails. On [one_full_channel] (capacity 1, buffer [7],
    no waiter) the condition holds; the coroutine 1 calls
    [coro_bus_send], finds the channel full and suspends in its send
    queue: the channel is then full with a sender waiting. *)
Lemma exclusive_waiter_counterexample :
  reachable one_full_channel /\
  (forall i ch, slot i (bus one_full_channel) = Some ch ->
                exclusive_waiter ch) /\
  reachable (run (EvSend 1%nat BUS 0 8) one_full_channel).2 /\
  slot 0 (bus (run (EvSend 1%nat BUS 0 8) one_full_channel).2)
    = Some (mk_channel 1 [1%nat] [] [7]) /\
  ~ exclusive_waiter (mk_channel 1 [1%nat] [] [7]).
Proof.
  assert (reachable one_full_channel) as Hw.
  { apply reachable_run_all; [apply reach_new|].
    repeat constructor; cbn; unfold is_size_t, SIZE_BITS; lia. }
  split_and!.
  - done.
  - intros [|[|i]] ch; cbn; intros [= <-] || intros [=].
    split; [by right|left; cbn; lia].
  - by apply reach_step.
  - reflexivity.
  - intros [[Hlt|Hq] _]; [cbn in Hlt; lia|done].
Qed.

(** The converse reading (no sender waits below capacity, no receiver
    waits on a buffer that is not empty) is not an invariant either: a
    wake-up only makes the coroutine runnable. Two receivers suspend on
    an empty channel; a send wakes the first one; until that one runs,
    the buffer holds a message and the second receiver still waits. *)
Example waiter_left_after_wakeup :
  bus (run_all [EvChannelOpen BUS 1; EvRecv 1%nat BUS 0; EvRecv 2%nat BUS 0;
                EvTrySend BUS 0 5] (coro_bus_new initial).2)
  = mk_bus [Some (mk_channel 1 [] [2%nat] [5])] [1].
Proof. reflexivity. Qed.

(** C1, amended. In every reachable world and for every step, every
    channel that is live after the step has a buffer no longer than its
    capacity; a coroutine that is in its send queue after the step was
    in that queue before the step, or the buffer is full (its length is
    the capacity) after the step; a coroutine that is in its receive
    queue after the step was in that queue before the step, or the
    buffer is empty after the step. So a coroutine joins the senders'
    queue only on a full channel and the receivers' queue only on an
    empty one. *)
Theorem waiters_join_when_blocked w e i ch' :
  reachable w -> event_ok e ->
  slot i (bus (run e w).2) = Some ch' ->
  Z.of_nat (length (data ch')) <= size_limit ch' /\
  (forall c, c ∈ send_queue ch' ->
     (exists ch, slot i (bus w) = Some ch /\ c ∈ send_queue ch) \/
     Z.of_nat (length (data ch')) = size_limit ch') /\
  (forall c, c ∈ recv_queue ch' ->
     (exists ch, slot i (bus w) = Some ch /\ c ∈ recv_queue ch) \/
     data ch' = []).
Proof.
  intros Hw He Hs.
  destruct (run_step e w (reachable_ok w Hw) He) as ((_ & _ & Hch) & Hj & _).
  destruct (Hj i ch' Hs) as [Hsend Hrecv].
  split_and!; [by eapply Hch|done..].
Qed.

Lemma waiters_join_when_blocked_witness :
  Z.of_nat (length [7]) <= 1 /\
  (forall c, c ∈ [1%nat] ->
     (exists ch, slot 0 (bus one_full_channel) = Some ch /\
                 c ∈ send_queue ch) \/
     Z.of_nat (length [7]) = 1) /\
  (forall c, c ∈ [] ->
     (exists ch, slot 0 (bus one_full_channel) = Some ch /\
                 c ∈ recv_queue ch) \/
     [7] = []).
Proof.
  apply (waiters_join_when_blocked one_full_channel (EvSend 1%nat BUS 0 8)
           0%nat (mk_channel 1 [1%nat] [] [7])).
  - apply reachable_run_all; [apply reach_new|].
    repeat constructor; cbn; unfold is_size_t, SIZE_BITS; lia.
  - exact I.
  - reflexivity.
Defined.

(** ** Generations *)

Lemma generation_run tr : forall w i g,
  reachable w -> Forall event_ok tr ->
  channel_gens (bus w) !! i = Some g ->
  g + Z.of_nat (length tr) <= SIZE_MAX ->
  exists g', channel_gens (bus (run_all tr w)) !! i = Some g' /\
             g <= g' <= g + Z.of_nat (length tr).
Proof.
  induction tr as [|e tr IH]; intros w i g Hw Htr Hg Hbound.
  - exists g. cbn. split; [done|lia].
  - inversion Htr as [|? ? He Htr']; subst.
    pose proof (reachable_ok w Hw) as Hok.
    destruct (run_step e w Hok He) as (_ & _ & Hgens).
    destruct (Hgens i g Hg) as (g1 & Hg1 & Hcase).
    assert (is_size_t g) as Hrange by by eapply Hok.
    cbn [length] in Hbound.
    assert (g <= g1 <= g + 1) as Hg1'.
    { destruct Hcase as [->| ->]; [lia|].
      rewrite to_size_t_small; [lia|].
      unfold is_size_t, SIZE_MAX in *. lia. }
    destruct (IH (run e w).2 i g1) as (g' & Hg' & Hle);
      [by apply reach_step|done|done|lia|].
    exists g'. split; [done|]. cbn [length]. lia.
Qed.

Lemma local_form_gens c w w' :
  local_form c w w' -> channel_gens (bus w') = channel_gens (bus w).
Proof. by intros [->|ch ch' _ _ _ ->]. Qed.

Lemma gens_unlink_world i q this w :
  channel_gens (bus (unlink_world i q this w)) = channel_gens (bus w).
Proof.
  destruct (slot i (bus w)) as [ch|] eqn:Hs.
  - by rewrite (unlink_world_Some _ _ _ _ _ Hs).
  - by rewrite unlink_world_None.
Qed.

Ltac resumed_gens Hok lem :=
  cbv zeta;
  match goal with
  | |- context [unlink_world ?i ?q ?t ?w] =>
      pose proof (bus_ok_unlink_world i q t w Hok);
      rewrite <- (gens_unlink_world i q t w)
  end;
  destruct (same_channel _ _ _ _);
  [ eapply local_form_gens; by eapply lem | done ].

(** What one step does to the array of the generations: nothing, or
    it increments one of them (a close), or it appends a 1 (an open that
    grows the table). *)
Lemma run_gens e w :
  bus_ok (bus w) -> event_ok e ->
  channel_gens (bus (run e w).2) = channel_gens (bus w) \/
  (exists i, channel_gens (bus (run e w).2)
             = alter (fun g => to_size_t (g + 1)) i (channel_gens (bus w))) \/
  channel_gens (bus (run e w).2) = channel_gens (bus w) ++ [1].
Proof.
  intros Hok He. rewrite run_bus. destruct e; cbn in He.
  - by left.
  - destruct bus0; [by left|].
    destruct (first_null (channels (bus w)) 0) as [i|] eqn:Hn.
    + rewrite (channel_open_reuse _ _ _ Hn). by left.
    + rewrite (channel_open_grow _ _ Hn). by do 2 right.
  - destruct (resolve bus0 channel w) as [ch|] eqn:H.
    + rewrite (channel_close_live _ _ _ _ H). right; left.
      by exists (Z.to_nat channel).
    + rewrite (channel_close_none _ _ _ H). by left.
  - left. eapply local_form_gens. by apply try_send_local.
  - left. eapply local_form_gens. by apply try_recv_local.
  - left. destruct bus0; [done|]. rewrite try_broadcast_eq.
    by destruct (broadcast_scan _ _ _).
  - left. destruct He. eapply local_form_gens. by apply try_send_v_local.
  - left. eapply local_form_gens. by apply try_recv_v_local.
  - left. eapply local_form_gens. by apply send_local.
  - left. rewrite send_resumed_eq. resumed_gens Hok send_local.
  - left. eapply local_form_gens. by apply recv_local.
  - left. rewrite recv_resumed_eq. resumed_gens Hok recv_local.
  - left. destruct bus0; [done|]. rewrite broadcast_eq.
    destruct (broadcast_scan _ _ _) as [|blk|]; [done| |done].
    by destruct (slot blk (bus w)).
  - left. rewrite broadcast_resumed_eq.
    rewrite <- (gens_unlink_world block_channel SendQ this w).
    destruct bus0; [done|]. rewrite broadcast_eq.
    destruct (broadcast_scan _ _ _) as [|blk|]; [done| |done].
    by destruct (slot blk _).
  - left. destruct He. eapply local_form_gens. by apply send_v_local.
  - left. destruct He as (_ & ? & ?). rewrite send_v_resumed_eq.
    resumed_gens Hok send_v_loop_local.
  - left. eapply local_form_gens. by apply recv_v_local.
  - left. destruct He as (_ & ?). rewrite recv_v_resumed_eq.
    resumed_gens Hok recv_v_loop_local.
Qed.

(** A generation counts the closes of its slot, from 1: after a run of
    [n] steps from a world whose generations are between 1 and [k], they
    are between 1 and [k + n], if this is within the range of the
    counter. *)
Lemma gens_within_run tr : forall w k,
  reachable w -> Forall event_ok tr -> 0 <= k ->
  (forall i g, channel_gens (bus w) !! i = Some g -> 1 <= g <= k) ->
  k + Z.of_nat (length tr) <= SIZE_MAX ->
  forall i g, channel_gens (bus (run_all tr w)) !! i = Some g ->
    1 <= g <= k + Z.of_nat (length tr).
Proof.
  induction tr as [|e tr IH]; intros w k Hw Htr Hk Hin Hbound i g Hg.
  - cbn in *. specialize (Hin i g Hg). lia.
  - inversion Htr as [|? ? He Htr']; subst. cbn [length run_all] in *.
    assert (1 <= g <= (k + 1) + Z.of_nat (length tr)); [|lia].
    apply (IH (run e w).2 (k + 1)) with (i := i);
      [by apply reach_step|done|lia| |lia|done].
    clear i g Hg. intros i g Hg.
    destruct (run_gens e w (reachable_ok w Hw) He)
      as [Heq|[[j Heq]|Heq]]; rewrite Heq in Hg.
    + specialize (Hin i g Hg). lia.
    + destruct (decide (j = i)) as [->|Hne].
      * rewrite list_lookup_alter_eq in Hg.
        destruct (channel_gens (bus w) !! i) as [g0|] eqn:Hg0; [|done].
        injection Hg as <-. specialize (Hin i g0 Hg0).
        rewrite to_size_t_small; [lia|].
        unfold is_size_t, SIZE_MAX in *. lia.
      * rewrite list_lookup_alter_ne in Hg by done.
        specialize (Hin i g Hg). lia.
    + apply lookup_app_Some in Hg as [Hg|[_ Hg]].
      * specialize (Hin i g Hg). lia.
      * destruct (i - length (channel_gens (bus w)))%nat as [|?];
          cbn in Hg; [|done]. injection Hg as <-. lia.
Qed.

(** C7. Take any run of the program, from [coro_bus_new] on, of fewer
    than 2^64 - 1 operations (no program performs more; the generation
    is an [unsigned long long]). At every point [w2] of such a run, and
    for every earlier point [w1]:
    (1) every generation at [w1] is at most the generation of the same
    slot at [w2]: the generations never decrease;
    (2) every generation is at least 1 and at most the number of
    operations performed so far, so that the counter has not wrapped;
    (3) [coro_bus_channel_close] on a live slot, of generation [g], sets
    its generation to [g + 1] and leaves the other generations alone;
    (4) [coro_bus_channel_open] that reuses a NULL slot leaves all
    generations, the one of the reused slot included, unchanged;
    (5) [coro_bus_channel_open] that appends a slot gives it the
    generation 1 and leaves the others unchanged. *)
Theorem generation_discipline w0 tr1 tr2 :
  Forall event_ok tr1 -> Forall event_ok tr2 ->
  Z.of_nat (length tr1) + Z.of_nat (length tr2) < SIZE_MAX ->
  let w1 := run_all tr1 (coro_bus_new w0).2 in
  let w2 := run_all tr2 w1 in
  (forall i g,
     channel_gens (bus w1) !! i = Some g ->
     exists g', channel_gens (bus w2) !! i = Some g' /\ g <= g') /\
  (forall i g,
     channel_gens (bus w2) !! i = Some g ->
     1 <= g <= Z.of_nat (length tr1) + Z.of_nat (length tr2)) /\
  (forall channel ch g,
     0 <= channel -> slot (Z.to_nat channel) (bus w2) = Some ch ->
     channel_gens (bus w2) !! Z.to_nat channel = Some g ->
     channel_gens (bus (coro_bus_channel_close BUS channel w2).2)
     = <[Z.to_nat channel := g + 1]> (channel_gens (bus w2))) /\
  (forall size_limit i,
     first_null (channels (bus w2)) 0 = Some i ->
     (coro_bus_channel_open BUS size_limit w2).1 = Z.of_nat i /\
     channel_gens (bus (coro_bus_channel_open BUS size_limit w2).2)
     = channel_gens (bus w2)) /\
  (forall size_limit,
     first_null (channels (bus w2)) 0 = None ->
     (coro_bus_channel_open BUS size_limit w2).1 = channel_count (bus w2) /\
     channel_gens (bus (coro_bus_channel_open BUS size_limit w2).2)
     = channel_gens (bus w2) ++ [1] /\
     channel_gens (bus (coro_bus_channel_open BUS size_limit w2).2)
       !! Z.to_nat (channel_count (bus w2)) = Some 1).
Proof.
  intros Htr1 Htr2 Hlen. cbv zeta.
  set (w1 := run_all tr1 (coro_bus_new w0).2).
  set (w2 := run_all tr2 w1).
  assert (reachable w1) as Hw1 by (apply reachable_run_all; [apply reach_new|done]).
  assert (reachable w2) as Hw2 by by apply reachable_run_all.
  assert (forall i g, channel_gens (bus w1) !! i = Some g ->
            1 <= g <= Z.of_nat (length tr1)) as Hin1.
  { intros i g Hg.
    apply (gens_within_run tr1 (coro_bus_new w0).2 0 (reach_new w0) Htr1)
      with (i := i); [lia| |lia|done].
    intros j gj Hj. by destruct j. }
  assert (forall i g, channel_gens (bus w2) !! i = Some g ->
            1 <= g <= Z.of_nat (length tr1) + Z.of_nat (length tr2)) as Hin2.
  { intros i g Hg.
    apply (gens_within_run tr2 w1 (Z.of_nat (length tr1)) Hw1 Htr2)
      with (i := i); [lia|done|lia|done]. }
  split_and!.
  - intros i g Hg. specialize (Hin1 i g Hg).
    destruct (generation_run tr2 w1 i g Hw1 Htr2 Hg) as (g' & Hg' & Hle);
      [lia|].
    exists g'. split; [done|lia].
  - done.
  - intros channel ch g Hc Hs Hg. specialize (Hin2 _ g Hg).
    assert (resolve BUS channel w2 = Some ch) as H by by apply resolve_Some.
    rewrite (channel_close_live _ _ _ _ H). norm_bus. unfold closed; cbn.
    apply list_eq. intros j.
    destruct (decide (Z.to_nat channel = j)) as [<-|Hne].
    + rewrite list_lookup_alter_eq, Hg. cbn.
      rewrite list_lookup_insert_eq by by eapply lookup_lt_Some.
      rewrite to_size_t_small; [done|].
      unfold is_size_t, SIZE_MAX in *. lia.
    + by rewrite list_lookup_alter_ne, list_lookup_insert_ne.
  - intros size_limit i Hn. by rewrite (channel_open_reuse _ _ _ Hn).
  - intros size_limit Hn. rewrite (channel_open_grow _ _ Hn).
    split_and!; [done..|]. norm_bus. unfold grown, channel_count; cbn.
    destruct (reachable_ok w2 Hw2) as (Hl & _).
    rewrite Nat2Z.id, <- Hl. by rewrite list_lookup_middle.
Qed.

Lemma generation_discipline_witness :
  (exists g',
     channel_gens
       (bus (run_all [EvChannelClose BUS 0; EvChannelOpen BUS 3]
               one_full_channel)) !! 0%nat = Some g' /\
     1 <= g') /\
  channel_gens (bus (coro_bus_channel_close BUS 0 closed_and_reopened).2)
  = <[0%nat := 2 + 1]> (channel_gens (bus closed_and_reopened)).
Proof.
  split.
  - destruct (generation_discipline initial
                [EvChannelOpen BUS 1; EvTrySend BUS 0 7]
                [EvChannelClose BUS 0; EvChannelOpen BUS 3])
      as (Hmono & _).
    + repeat constructor; cbn; unfold is_size_t, SIZE_BITS; lia.
    + repeat constructor; cbn; unfold is_size_t, SIZE_BITS; lia.
    + unfold SIZE_MAX, SIZE_BITS. cbn. lia.
    + exact (Hmono 0%nat 1 eq_refl).
  - destruct (generation_discipline initial
                [EvChannelOpen BUS 1; EvTrySend BUS 0 7]
                [EvSend 1%nat BUS 0 8; EvChannelClose BUS 0;
                 EvChannelOpen BUS 3])
      as (_ & _ & Hclose & _).
    + repeat constructor; cbn; unfold is_size_t, SIZE_BITS; lia.
    + repeat constructor; cbn; unfold is_size_t, SIZE_BITS; lia.
    + unfold SIZE_MAX, SIZE_BITS. cbn. lia.
    + exact (Hclose 0 (mk_channel 3 [] [] []) 2 ltac:(lia) eq_refl eq_refl).
Defined.

(** ** The error code *)

(** C8, as stated, fails for [coro_bus_channel_close], which never
    writes the error slot: after a [coro_bus_try_send] that failed with
    WOULD_BLOCK, closing the (live) channel succeeds and leaves
    WOULD_BLOCK in the slot. *)
Lemma close_keeps_error_code_counterexample :
  reachable (run (EvTrySend BUS 0 8) one_full_channel).2 /\
  resolve BUS 0 (run (EvTrySend BUS 0 8) one_full_channel).2
    = Some (mk_channel 1 [] [] [7]) /\
  slot 0 (bus (coro_bus_channel_close BUS 0
                 (run (EvTrySend BUS 0 8) one_full_channel).2).2) = None /\
  global_error (coro_bus_channel_close BUS 0
                  (run (EvTrySend BUS 0 8) one_full_channel).2).2
    = CORO_BUS_ERR_WOULD_BLOCK /\
  CORO_BUS_ERR_WOULD_BLOCK <> CORO_BUS_ERR_NONE.
Proof.
  split_and!; [|reflexivity..|done].
  apply reach_step; [|exact I].
  apply reachable_run_all; [apply reach_new|].
  repeat constructor; cbn; unfold is_size_t, SIZE_BITS; lia.
Qed.

Lemma resolve_handle bp channel w :
  resolve bp channel w = channel_of_handle bp channel w.
Proof.
  unfold channel_of_handle. destruct (resolve bp channel w) as [ch|] eqn:H.
  - apply resolve_Some in H as (-> & Hc & Hs). by rewrite decide_True.
  - apply resolve_None in H as [->|[Hc|[Hc|Hs]]]; [done| | |].
    + destruct bp; [done|]. by rewrite decide_False by lia.
    + destruct bp; [done|]. case_decide; [|done].
      unfold slot. rewrite lookup_ge_None_2; [done|].
      unfold channel_count in Hc. lia.
    + destruct bp; [done|]. by case_decide.
Qed.

Lemma send_code_full ch :
  channel_ok ch -> is_full ch = true ->
  send_code (Some ch) = CORO_BUS_ERR_WOULD_BLOCK.
Proof.
  intros Hch Hf. unfold send_code. rewrite decide_True; [done|].
  by apply is_full_eq.
Qed.

Lemma send_code_room ch :
  is_full ch = false -> send_code (Some ch) = CORO_BUS_ERR_NONE.
Proof.
  intros Hf. unfold send_code. rewrite decide_False; [done|].
  unfold is_full in Hf. lia.
Qed.

Lemma send_code_unlinked q this ch :
  send_code (Some (unlinked q this ch)) = send_code (Some ch).
Proof. by destruct q. Qed.

Lemma recv_code_unlinked q this ch :
  recv_code (Some (unlinked q this ch)) = recv_code (Some ch).
Proof. by destruct q. Qed.

Lemma code_failed err :
  err <> CORO_BUS_ERR_NONE -> code_of_result (-1) err err.
Proof. intros H. split; [done|]. by right. Qed.

Lemma code_succeeded rc :
  0 <= rc -> code_of_result rc CORO_BUS_ERR_NONE CORO_BUS_ERR_NONE.
Proof. intros H. split; [done|]. by left. Qed.

Lemma free_space_full ch :
  channel_ok ch ->
  to_size_t (size_limit ch - Z.of_nat (length (data ch))) = 0 ->
  is_full ch = true.
Proof.
  intros Hch. rewrite free_space_eq by done. unfold is_full. lia.
Qed.

Lemma free_space_room ch :
  channel_ok ch ->
  to_size_t (size_limit ch - Z.of_nat (length (data ch))) <> 0 ->
  is_full ch = false.
Proof.
  intros Hch. rewrite free_space_eq by done. destruct Hch as [_ Hle].
  unfold is_full. lia.
Qed.

Lemma try_send_code bp channel v w :
  bus_ok (bus w) ->
  code_of_result (coro_bus_try_send bp channel v w).1
    (global_error (coro_bus_try_send bp channel v w).2)
    (send_code (resolve bp channel w)).
Proof.
  intros Hok. destruct (resolve bp channel w) as [ch|] eqn:H.
  - live_channel H Hok. destruct (is_full ch) eqn:Hf.
    + erewrite try_send_full by done. rewrite send_code_full by done.
      by apply code_failed.
    + erewrite try_send_ok by done. rewrite send_code_room by done.
      by apply code_succeeded.
  - rewrite try_send_no_channel by done. by apply code_failed.
Qed.

Lemma try_recv_code bp channel w :
  code_of_result (coro_bus_try_recv bp channel w).1.1
    (global_error (coro_bus_try_recv bp channel w).2)
    (recv_code (resolve bp channel w)).
Proof.
  destruct (resolve bp channel w) as [ch|] eqn:H.
  - destruct (data ch) as [|front rest] eqn:Hd.
    + erewrite try_recv_empty by done. cbn. rewrite Hd.
      by apply code_failed.
    + erewrite try_recv_ok by done. cbn. rewrite Hd.
      by apply code_succeeded.
  - rewrite try_recv_no_channel by done. by apply code_failed.
Qed.

Lemma blocking_code_returned r err specified :
  terminal_code r err specified ->
  specified <> CORO_BUS_ERR_WOULD_BLOCK ->
  blocking_code r err specified.
Proof. by split. Qed.

Lemma send_segment_code this bp channel v w :
  bus_ok (bus w) ->
  blocking_code (reply_int (coro_bus_send this bp channel v w).1)
    (global_error (coro_bus_send this bp channel v w).2)
    (send_code (resolve bp channel w)).
Proof.
  intros Hok. destruct (resolve bp channel w) as [ch|] eqn:H.
  - live_channel H Hok. destruct (is_full ch) eqn:Hf.
    + erewrite send_suspend by done. split; [|done].
      by apply send_code_full.
    + erewrite send_ok by done. rewrite send_code_room by done.
      apply blocking_code_returned; [by apply code_succeeded|done].
  - rewrite send_no_channel by done.
    apply blocking_code_returned; [by apply code_failed|done].
Qed.

Lemma recv_segment_code this bp channel w :
  blocking_code (reply_recv (coro_bus_recv this bp channel w).1)
    (global_error (coro_bus_recv this bp channel w).2)
    (recv_code (resolve bp channel w)).
Proof.
  destruct (resolve bp channel w) as [ch|] eqn:H.
  - destruct (data ch) as [|front rest] eqn:Hd.
    + erewrite recv_suspend by done. split; [|done]. cbn. by rewrite Hd.
    + erewrite recv_ok by done. cbn [recv_code]. rewrite Hd.
      apply blocking_code_returned; [by apply code_succeeded|done].
  - rewrite recv_no_channel by done.
    apply blocking_code_returned; [by apply code_failed|done].
Qed.

Lemma try_send_v_code bp channel buf count w :
  bus_ok (bus w) -> count <> 0 ->
  0 <= count < 2 ^ (UINT_BITS - 1) -> count <= Z.of_nat (length buf) ->
  code_of_result (coro_bus_try_send_v bp channel buf count w).1
    (global_error (coro_bus_try_send_v bp channel buf count w).2)
    (send_code (resolve bp channel w)).
Proof.
  intros Hok Hc0 Hc Hb. destruct (resolve bp channel w) as [ch|] eqn:H.
  - live_channel H Hok.
    destruct (decide
      (to_size_t (size_limit ch - Z.of_nat (length (data ch))) = 0))
      as [Hf|Hf].
    + erewrite try_send_v_full by done.
      rewrite send_code_full by by (done || apply free_space_full).
      by apply code_failed.
    + erewrite try_send_v_ok by done.
      rewrite send_code_room by by apply free_space_room.
      apply code_succeeded. cbn [fst].
      pose proof (to_send_range ch count Hch ltac:(lia)).
      rewrite to_int_small; lia.
  - rewrite try_send_v_no_channel by done. by apply code_failed.
Qed.

Lemma try_recv_v_code bp channel capacity w :
  capacity <> 0 -> 0 <= capacity < 2 ^ (UINT_BITS - 1) ->
  code_of_result (coro_bus_try_recv_v bp channel capacity w).1.1
    (global_error (coro_bus_try_recv_v bp channel capacity w).2)
    (recv_code (resolve bp channel w)).
Proof.
  intros Hc0 Hc. destruct (resolve bp channel w) as [ch|] eqn:H.
  - destruct (data ch) as [|front rest] eqn:Hd.
    + erewrite try_recv_v_empty by done. cbn. rewrite Hd.
      by apply code_failed.
    + erewrite try_recv_v_ok by (done || by rewrite Hd).
      cbn [fst snd recv_code]. rewrite global_error_set_err, Hd.
      apply code_succeeded. rewrite <- Hd.
      pose proof (to_recv_range ch capacity ltac:(lia)).
      rewrite to_int_small; lia.
  - rewrite try_recv_v_no_channel by done. by apply code_failed.
Qed.

Lemma send_v_loop_code this bp channel buf count w :
  bus_ok (bus w) ->
  0 <= count < 2 ^ (UINT_BITS - 1) -> count <= Z.of_nat (length buf) ->
  blocking_code
    (reply_int (coro_bus_send_v_loop this bp channel buf count w).1)
    (global_error (coro_bus_send_v_loop this bp channel buf count w).2)
    (send_code (resolve bp channel w)).
Proof.
  intros Hok Hc Hb. destruct (resolve bp channel w) as [ch|] eqn:H.
  - live_channel H Hok.
    destruct (decide
      (to_size_t (size_limit ch - Z.of_nat (length (data ch))) = 0))
      as [Hf|Hf].
    + erewrite send_v_loop_suspend by done. split; [|done].
      apply send_code_full; [done|by apply free_space_full].
    + erewrite send_v_loop_ok by done.
      rewrite send_code_room by by apply free_space_room.
      apply blocking_code_returned; [|done]. apply code_succeeded.
      pose proof (to_send_range ch count Hch ltac:(lia)).
      rewrite to_int_small; lia.
  - rewrite send_v_loop_no_channel by done.
    apply blocking_code_returned; [by apply code_failed|done].
Qed.

Lemma recv_v_loop_code this bp channel capacity w :
  0 <= capacity < 2 ^ (UINT_BITS - 1) ->
  blocking_code
    (reply_recv_v (coro_bus_recv_v_loop this bp channel capacity w).1)
    (global_error (coro_bus_recv_v_loop this bp channel capacity w).2)
    (recv_code (resolve bp channel w)).
Proof.
  intros Hc. destruct (resolve bp channel w) as [ch|] eqn:H.
  - destruct (data ch) as [|front rest] eqn:Hd.
    + erewrite recv_v_loop_suspend by done. split; [|done].
      cbn. by rewrite Hd.
    + erewrite recv_v_loop_ok by (done || by rewrite Hd).
      cbn [fst snd reply_recv_v recv_code].
      rewrite global_error_set_err, Hd.
      apply blocking_code_returned; [|done]. apply code_succeeded.
      rewrite <- Hd. pose proof (to_recv_range ch capacity ltac:(lia)).
      rewrite to_int_small; lia.
  - rewrite recv_v_loop_no_channel by done.
    apply blocking_code_returned; [by apply code_failed|done].
Qed.

(** The test of the resumed call against its snapshot, in terms of the
    table. *)
Lemma snapshot_cases q this bp channel gen w :
  bus_ok (bus w) ->
  let w1 := unlink_world (Z.to_nat channel) q this w in
  (exists ch,
     channel_of_snapshot bp channel gen w = Some ch /\
     same_channel bp channel gen w1 = true /\
     resolve bp channel w1 = Some (unlinked q this ch)) \/
  (channel_of_snapshot bp channel gen w = None /\
   same_channel bp channel gen w1 = false).
Proof.
  intros Hok. cbv zeta. unfold channel_of_snapshot.
  rewrite <- resolve_handle.
  destruct (resolve bp channel w) as [ch|] eqn:H.
  - pose proof (gen_of_live _ _ _ _ Hok H) as Hg.
    pose proof H as (-> & Hc & Hs)%resolve_Some.
    destruct (decide (gen_of BUS channel w = gen)) as [Heq|Hne].
    + left. exists ch. rewrite decide_True by congruence.
      split_and!; [done| |].
      * by eapply same_in_table; [done..|congruence].
      * apply resolve_Some. split_and!; [done..|].
        rewrite slot_unlink_world, decide_True by done. by rewrite Hs.
    + right. rewrite decide_False by congruence. split; [done|].
      apply same_channel_false. by right.
  - right. split; [by case_decide|].
    apply same_channel_false. by left.
Qed.

Lemma broadcast_code_none w :
  (forall j ch, slot j (bus w) = Some ch -> False) ->
  broadcast_code BUS w = CORO_BUS_ERR_NO_CHANNEL.
Proof.
  intros Hnone. unfold broadcast_code.
  destruct (live_channels (bus w)) as [|ch l] eqn:Hlive; [done|].
  assert (ch ∈ live_channels (bus w)) as Hin
    by (rewrite Hlive; apply elem_of_cons; by left).
  apply elem_of_live_channels in Hin as [j Hs]. by destruct (Hnone j ch).
Qed.

Lemma broadcast_code_full w j ch :
  slot j (bus w) = Some ch -> Z.of_nat (length (data ch)) = size_limit ch ->
  broadcast_code BUS w = CORO_BUS_ERR_WOULD_BLOCK.
Proof.
  intros Hs Hlen. unfold broadcast_code.
  assert (ch ∈ live_channels (bus w)) as Hin
    by (apply elem_of_live_channels; eauto).
  destruct (live_channels (bus w)) as [|ch0 l] eqn:Hlive.
  { by apply elem_of_nil in Hin. }
  rewrite decide_True; [done|]. apply Exists_exists. eauto.
Qed.

Lemma broadcast_code_room w :
  (exists j ch, slot j (bus w) = Some ch) ->
  (forall j ch, slot j (bus w) = Some ch ->
     Z.of_nat (length (data ch)) <> size_limit ch) ->
  broadcast_code BUS w = CORO_BUS_ERR_NONE.
Proof.
  intros (j & ch & Hs) Hroom. unfold broadcast_code.
  assert (ch ∈ live_channels (bus w)) as Hin
    by (apply elem_of_live_channels; eauto).
  destruct (live_channels (bus w)) as [|ch0 l] eqn:Hlive.
  { by apply elem_of_nil in Hin. }
  rewrite decide_False; [done|].
  intros (ch1 & Hin1 & Hlen)%Exists_exists. rewrite <- Hlive in Hin1.
  apply elem_of_live_channels in Hin1 as [j1 Hs1]. by eapply Hroom.
Qed.

(** The scan of the broadcast functions over the table of [w1], a world
    whose channels are those of [w] up to their wait queues, finds what
    the specified code of [w] says. *)
Lemma scan_code w w1 :
  bus_ok (bus w) ->
  (forall j ch1, slot j (bus w1) = Some ch1 ->
     exists ch, slot j (bus w) = Some ch /\
       data ch = data ch1 /\ size_limit ch = size_limit ch1) ->
  (forall j ch, slot j (bus w) = Some ch ->
     exists ch1, slot j (bus w1) = Some ch1 /\
       data ch = data ch1 /\ size_limit ch = size_limit ch1) ->
  match broadcast_scan (channels (bus w1)) 0 false with
  | ScanNoChannels => broadcast_code BUS w = CORO_BUS_ERR_NO_CHANNEL
  | ScanFull _ => broadcast_code BUS w = CORO_BUS_ERR_WOULD_BLOCK
  | ScanFree => broadcast_code BUS w = CORO_BUS_ERR_NONE
  end.
Proof.
  intros Hok Hfrom Hto.
  destruct (broadcast_scan _ _ _) as [|blk|] eqn:Hscan.
  - apply broadcast_scan_no_channels in Hscan as [_ Hnone].
    apply broadcast_code_none. intros j ch Hs.
    destruct (Hto j ch Hs) as (ch1 & Hs1 & _).
    apply slot_Some_lookup in Hs1. by eapply Hnone.
  - apply broadcast_scan_full in Hscan as (_ & ch1 & Hl & Hf).
    rewrite Nat.sub_0_r in Hl. apply slot_Some_lookup in Hl.
    destruct (Hfrom blk ch1 Hl) as (ch & Hs & Hd & Hsl).
    apply (broadcast_code_full w blk ch Hs).
    assert (channel_ok ch) as [_ Hle] by by eapply Hok.
    unfold is_full in Hf. rewrite <- Hd, <- Hsl in Hf. lia.
  - apply broadcast_scan_free in Hscan as [Hall [?|(j & ch1 & Hl)]]; [done|].
    apply slot_Some_lookup in Hl.
    destruct (Hfrom j ch1 Hl) as (ch & Hs & _).
    apply broadcast_code_room; [by eauto|].
    intros j0 ch0 Hs0. destruct (Hto j0 ch0 Hs0) as (ch2 & Hs2 & Hd & Hsl).
    apply slot_Some_lookup in Hs2. pose proof (Hall _ _ Hs2) as Hf.
    unfold is_full in Hf. rewrite Hd, Hsl. lia.
Qed.

Lemma scan_code_same w :
  bus_ok (bus w) ->
  match broadcast_scan (channels (bus w)) 0 false with
  | ScanNoChannels => broadcast_code BUS w = CORO_BUS_ERR_NO_CHANNEL
  | ScanFull _ => broadcast_code BUS w = CORO_BUS_ERR_WOULD_BLOCK
  | ScanFree => broadcast_code BUS w = CORO_BUS_ERR_NONE
  end.
Proof. intros Hok. apply scan_code; [done|by eauto..]. Qed.

Lemma scan_code_unlinked i q this w :
  bus_ok (bus w) ->
  match broadcast_scan (channels (bus (unlink_world i q this w))) 0 false with
  | ScanNoChannels => broadcast_code BUS w = CORO_BUS_ERR_NO_CHANNEL
  | ScanFull _ => broadcast_code BUS w = CORO_BUS_ERR_WOULD_BLOCK
  | ScanFree => broadcast_code BUS w = CORO_BUS_ERR_NONE
  end.
Proof.
  intros Hok. apply scan_code; [done| |].
  - intros j ch1. rewrite slot_unlink_world. case_decide; [|by eauto].
    destruct (slot j (bus w)) as [ch|]; [|done]. intros [= <-].
    exists ch. by destruct q.
  - intros j ch Hs. rewrite slot_unlink_world, Hs. case_decide; [|by eauto].
    exists (unlinked q this ch). by destruct q.
Qed.

Ltac resumed_code Hok seg unl :=
  cbv zeta;
  match goal with
  | |- context [same_channel ?bp ?c ?gen (unlink_world _ ?q ?t ?w)] =>
      let H1 := fresh "H1" in
      pose proof (bus_ok_unlink_world (Z.to_nat c) q t w Hok);
      destruct (snapshot_cases q t bp c gen w Hok)
        as [(ch & -> & -> & H1)|[-> ->]];
      [ rewrite <- (unl q t ch), <- H1; by apply seg
      | apply blocking_code_returned; [by apply code_failed|done] ]
  end.

Ltac blocking_case Hc :=
  destruct Hc as [Hc1 Hc2]; split; [exact Hc1|intros _; exact Hc2].

(** C8, amended. Every step that returns from an operation other than
    [coro_bus_channel_close] leaves in the error slot the code that the
    specification asks for, and it fails, with -1, exactly when that
    code is not NONE: NO_CHANNEL when the handle names no live channel
    (for an open or a broadcast, when there is no bus; for a broadcast
    also when no channel is live; for a resumed call also when the table
    holds another generation for the slot than the one the call kept);
    WOULD_BLOCK when the channel is there but full (for a receive,
    empty; for a broadcast, when some live channel is full); NONE
    otherwise, with a result that is not negative (for a vector call,
    with a count that fits the [int] result). A blocking call suspends
    exactly where the code would be WOULD_BLOCK, and so never returns
    it. [coro_bus_channel_close] leaves the slot as it was, and
    [coro_bus_errno_set] stores its argument. *)
Theorem error_code_written e w :
  reachable w -> event_ok e -> fits_int e ->
  match e with
  | EvChannelClose _ _ => global_error (run e w).2 = global_error w
  | EvErrnoSet err => global_error (run e w).2 = err
  | _ =>
      terminal_code (run e w).1 (global_error (run e w).2)
        (specified_code e w) /\
      (blocking e = true ->
       specified_code e w = CORO_BUS_ERR_WOULD_BLOCK ->
       (run e w).1 = RSuspended)
  end.
Proof.
  intros Hw He Hfit. pose proof (reachable_ok w Hw) as Hok.
  destruct e; cbn [run specified_code blocking]; unfold_M; cbn in He, Hfit;
    rewrite <- ?resolve_handle.
  - done.
  - split; [|done]. destruct bus0; [by apply code_failed|].
    destruct (first_null (channels (bus w)) 0) as [i|] eqn:Hn.
    + rewrite (channel_open_reuse _ _ _ Hn). apply code_succeeded. lia.
    + rewrite (channel_open_grow _ _ Hn). apply code_succeeded.
      unfold channel_count. lia.
  - destruct (resolve bus0 channel w) as [ch|] eqn:H.
    + by rewrite (channel_close_live _ _ _ _ H).
    + by rewrite (channel_close_none _ _ _ H).
  - split; [|done].
    pose proof (try_send_code bus0 channel v w Hok) as Hc.
    by destruct (coro_bus_try_send _ _ _ _) as [rc w'].
  - split; [|done]. pose proof (try_recv_code bus0 channel w) as Hc.
    by destruct (coro_bus_try_recv _ _ _) as [[rc out] w'].
  - split; [|done].
    destruct bus0; [by apply code_failed|]. rewrite try_broadcast_eq.
    pose proof (scan_code_same w Hok) as Hc.
    destruct (broadcast_scan _ _ _); cbn [fst snd]; rewrite Hc;
      [by apply code_failed..|by apply code_succeeded].
  - split; [|done]. destruct He as [Hu Hb]. case_decide as Hc0.
    + subst count. by apply code_succeeded.
    + pose proof (try_send_v_code bus0 channel buf count w Hok Hc0) as Hc.
      destruct (coro_bus_try_send_v _ _ _ _ _) as [rc w'].
      apply Hc; [|done]. unfold is_unsigned in Hu. lia.
  - split; [|done]. case_decide as Hc0.
    + subst capacity. by apply code_succeeded.
    + pose proof (try_recv_v_code bus0 channel capacity w Hc0) as Hc.
      destruct (coro_bus_try_recv_v _ _ _ _) as [[rc out] w'].
      apply Hc. unfold is_unsigned in He. lia.
  - pose proof (send_segment_code this bus0 channel v w Hok) as Hc.
    destruct (coro_bus_send _ _ _ _ _) as [o w']. blocking_case Hc.
  - assert (blocking_code
              (reply_int (coro_bus_send_resumed this bus0 channel v gen w).1)
              (global_error
                 (coro_bus_send_resumed this bus0 channel v gen w).2)
              (send_code (channel_of_snapshot bus0 channel gen w))) as Hc.
    { rewrite send_resumed_eq.
      resumed_code Hok send_segment_code send_code_unlinked. }
    destruct (coro_bus_send_resumed _ _ _ _ _ _) as [o w']. blocking_case Hc.
  - pose proof (recv_segment_code this bus0 channel w) as Hc.
    destruct (coro_bus_recv _ _ _ _) as [o w']. blocking_case Hc.
  - assert (blocking_code
              (reply_recv (coro_bus_recv_resumed this bus0 channel gen w).1)
              (global_error (coro_bus_recv_resumed this bus0 channel gen w).2)
              (recv_code (channel_of_snapshot bus0 channel gen w))) as Hc.
    { rewrite recv_resumed_eq.
      resumed_code Hok
        (fun w (_ : bus_ok (bus w)) => recv_segment_code this bus0 channel w)
        recv_code_unlinked. }
    destruct (coro_bus_recv_resumed _ _ _ _ _) as [o w']. blocking_case Hc.
  - assert (blocking_code
              (reply_int (coro_bus_broadcast this bus0 v w).1)
              (global_error (coro_bus_broadcast this bus0 v w).2)
              (broadcast_code bus0 w)) as Hc.
    { destruct bus0.
      { apply blocking_code_returned; [by apply code_failed|done]. }
      rewrite broadcast_eq. pose proof (scan_code_same w Hok) as Hc.
      destruct (broadcast_scan _ _ _); cbn [fst snd reply_int]; rewrite Hc.
      - apply blocking_code_returned; [by apply code_failed|done].
      - by split.
      - apply blocking_code_returned; [by apply code_succeeded|done]. }
    destruct (coro_bus_broadcast _ _ _ _) as [o w']. blocking_case Hc.
  - assert (blocking_code
              (reply_int
                 (coro_bus_broadcast_resumed this bus0 v block_channel w).1)
              (global_error
                 (coro_bus_broadcast_resumed this bus0 v block_channel w).2)
              (broadcast_code bus0 w)) as Hc.
    { rewrite broadcast_resumed_eq. destruct bus0.
      { apply blocking_code_returned; [by apply code_failed|done]. }
      rewrite broadcast_eq.
      pose proof (scan_code_unlinked block_channel SendQ this w Hok) as Hc.
      destruct (broadcast_scan _ _ _); cbn [fst snd reply_int]; rewrite Hc.
      - apply blocking_code_returned; [by apply code_failed|done].
      - by split.
      - apply blocking_code_returned; [by apply code_succeeded|done]. }
    destruct (coro_bus_broadcast_resumed _ _ _ _ _) as [o w'].
    blocking_case Hc.
  - destruct He as [Hu Hb]. unfold coro_bus_send_v. case_decide as Hc0.
    + subst count. split; [by apply code_succeeded|done].
    + destruct (Z.eqb_spec count 0); [done|].
      pose proof (send_v_loop_code this bus0 channel buf count w Hok) as Hc.
      destruct (coro_bus_send_v_loop _ _ _ _ _ _) as [o w'].
      destruct Hc as [Hc1 Hc2]; [unfold is_unsigned in Hu; lia|done|].
      split; [exact Hc1|intros _; exact Hc2].
  - destruct He as (_ & Hu & Hb).
    assert (0 <= count < 2 ^ (UINT_BITS - 1)) as Hcnt
      by (unfold is_unsigned in Hu; lia).
    assert (blocking_code
              (reply_int
                 (coro_bus_send_v_resumed this bus0 channel buf count gen w).1)
              (global_error
                 (coro_bus_send_v_resumed this bus0 channel buf count gen w).2)
              (send_code (channel_of_snapshot bus0 channel gen w))) as Hc.
    { rewrite send_v_resumed_eq.
      resumed_code Hok
        (fun w Hok =>
           send_v_loop_code this bus0 channel buf count w Hok Hcnt Hb)
        send_code_unlinked. }
    destruct (coro_bus_send_v_resumed _ _ _ _ _ _ _) as [o w'].
    blocking_case Hc.
  - unfold coro_bus_recv_v. case_decide as Hc0.
    + subst capacity. split; [by apply code_succeeded|done].
    + destruct (Z.eqb_spec capacity 0); [done|].
      pose proof (recv_v_loop_code this bus0 channel capacity w) as Hc.
      destruct (coro_bus_recv_v_loop _ _ _ _ _) as [o w'].
      destruct Hc as [Hc1 Hc2]; [unfold is_unsigned in He; lia|].
      split; [exact Hc1|intros _; exact Hc2].
  - destruct He as (_ & Hu).
    assert (0 <= capacity < 2 ^ (UINT_BITS - 1)) as Hcap
      by (unfold is_unsigned in Hu; lia).
    assert (blocking_code
              (reply_recv_v
                 (coro_bus_recv_v_resumed this bus0 channel capacity gen w).1)
              (global_error
                 (coro_bus_recv_v_resumed this bus0 channel capacity gen w).2)
              (recv_code (channel_of_snapshot bus0 channel gen w))) as Hc.
    { rewrite recv_v_resumed_eq.
      resumed_code Hok
        (fun w (_ : bus_ok (bus w)) =>
           recv_v_loop_code this bus0 channel capacity w Hcap)
        recv_code_unlinked. }
    destruct (coro_bus_recv_v_resumed _ _ _ _ _ _) as [o w'].
    blocking_case Hc.
Qed.

Lemma error_code_written_witness :
  global_error (run (EvTrySend BUS 0 8) one_full_channel).2
  = CORO_BUS_ERR_WOULD_BLOCK /\
  global_error (run (EvTrySend BUS 1 8) one_full_channel).2
  = CORO_BUS_ERR_NO_CHANNEL /\
  global_error (run (EvSendResumed 1%nat BUS 0 8 1) closed_and_reopened).2
  = CORO_BUS_ERR_NO_CHANNEL /\
  global_error (run (EvTryRecv BUS 0) one_full_channel).2
  = CORO_BUS_ERR_NONE /\
  (run (EvSend 1%nat BUS 0 8) one_full_channel).1 = RSuspended /\
  global_error (run (EvChannelClose BUS 0) one_full_channel).2
  = global_error one_full_channel.
Proof.
  assert (reachable one_full_channel) as Hw.
  { apply reachable_run_all; [apply reach_new|].
    repeat constructor; cbn; unfold is_size_t, SIZE_BITS; lia. }
  assert (reachable closed_and_reopened) as Hw'.
  { apply reachable_run_all; [exact Hw|].
    repeat constructor; cbn; unfold is_size_t, SIZE_BITS; lia. }
  split_and!.
  - exact (proj1 (proj1 (error_code_written (EvTrySend BUS 0 8)
                           one_full_channel Hw I I))).
  - exact (proj1 (proj1 (error_code_written (EvTrySend BUS 1 8)
                           one_full_channel Hw I I))).
  - exact (proj1 (proj1 (error_code_written (EvSendResumed 1%nat BUS 0 8 1)
                           closed_and_reopened Hw' ltac:(cbn; lia) I))).
  - exact (proj1 (proj1 (error_code_written (EvTryRecv BUS 0)
                           one_full_channel Hw I I))).
  - exact (proj2 (error_code_written (EvSend 1%nat BUS 0 8)
                    one_full_channel Hw I I) eq_refl eq_refl).
  - exact (error_code_written (EvChannelClose BUS 0) one_full_channel Hw I I).
Defined.

(** ** Vector transfers *)

(** What [coro_bus_try_send_v] does when the free space of the channel
    is below 2^32 and the number of elements to transfer below 2^31: it
    appends the first [n = min(count, free)] elements of the array at
    the tail of the buffer, takes up to [n] receive-waiters off their
    queue and wakes them, sets NONE and returns [n]. *)
Lemma try_send_v_partial w bp channel ch buf count :
  reachable w -> resolve bp channel w = Some ch ->
  let free := size_limit ch - Z.of_nat (length (data ch)) in
  let n := Z.min count free in
  0 < count -> is_unsigned count -> count <= Z.of_nat (length buf) ->
  0 < free < 2 ^ UINT_BITS -> n < 2 ^ (UINT_BITS - 1) ->
  coro_bus_try_send_v bp channel buf count w
  = (n, set_err CORO_BUS_ERR_NONE
          (wake (take (Z.to_nat n) (recv_queue ch))
             (upd (Z.to_nat channel)
                (mk_channel (size_limit ch) (send_queue ch)
                   (drop (Z.to_nat n) (recv_queue ch))
                   (data ch ++ take (Z.to_nat n) buf))
                w))).
Proof.
  intros Hw H. cbv zeta. intros Hc Hu Hb Hfree Hn.
  pose proof H as (_ & _ & Hs)%resolve_Some.
  assert (channel_ok ch) as Hch by by eapply (reachable_ok w Hw).
  pose proof (free_space_eq ch Hch) as Hfs.
  erewrite try_send_v_ok; [|lia|done|done|rewrite Hfs; lia].
  rewrite Hfs, to_unsigned_small by (unfold is_unsigned; lia).
  rewrite to_int_small by lia. done.
Qed.

(** The same for [coro_bus_try_recv_v], when the buffer holds fewer than
    2^32 elements: the first [n = min(capacity, length)] elements of the
    buffer are stored in the array, in order, and up to [n]
    send-waiters are woken. *)
Lemma try_recv_v_partial w bp channel ch capacity :
  reachable w -> resolve bp channel w = Some ch ->
  let n := Z.min capacity (Z.of_nat (length (data ch))) in
  0 < capacity -> data ch <> [] ->
  Z.of_nat (length (data ch)) < 2 ^ UINT_BITS -> n < 2 ^ (UINT_BITS - 1) ->
  coro_bus_try_recv_v bp channel capacity w
  = ((n, take (Z.to_nat n) (data ch)),
     set_err CORO_BUS_ERR_NONE
       (wake (take (Z.to_nat n) (send_queue ch))
          (upd (Z.to_nat channel)
             (mk_channel (size_limit ch) (drop (Z.to_nat n) (send_queue ch))
                (recv_queue ch) (drop (Z.to_nat n) (data ch)))
             w))).
Proof.
  intros Hw H. cbv zeta. intros Hc Hd Hlen Hn.
  erewrite try_recv_v_ok; [|lia|done|done].
  rewrite to_unsigned_small by (unfold is_unsigned; lia).
  rewrite to_int_small by lia. done.
Qed.

(** C6 fails on the code when the free space is a multiple of 2^32:
    [(unsigned)free_space] is then 0. With capacity 2^32, an empty
    buffer and [count = 1], [min(count, free)] is 1, but
    [coro_bus_try_send_v] returns 0 with NONE and appends nothing. *)
Lemma try_send_v_truncates_free_space :
  reachable huge_channel /\
  resolve BUS 0 huge_channel = Some (mk_channel 4294967296 [] [] []) /\
  Z.min 1 (4294967296 - 0) = 1 /\
  coro_bus_try_send_v BUS 0 [7] 1 huge_channel
  = (0, set_err CORO_BUS_ERR_NONE huge_channel).
Proof.
  split_and!; [|reflexivity..].
  apply reachable_run_all; [apply reach_new|].
  repeat constructor; cbn; unfold is_size_t, SIZE_BITS; lia.
Qed.

(** * Further properties of the code *)

(** ** The table and the buffers stay well formed *)

(** X1. In every reachable world the two arrays of the table have the same
    length, every generation is a value of its type, and every live
    channel has a capacity that is a [size_t] and a buffer no longer
    than the capacity. *)
Theorem table_well_formed w :
  reachable w ->
  length (channel_gens (bus w)) = length (channels (bus w)) /\
  (forall i g, channel_gens (bus w) !! i = Some g -> 0 <= g <= SIZE_MAX) /\
  (forall i ch, slot i (bus w) = Some ch ->
     0 <= size_limit ch <= SIZE_MAX /\
     Z.of_nat (length (data ch)) <= size_limit ch).
Proof.
  intros Hw. destruct (reachable_ok w Hw) as (Hlen & Hg & Hch).
  split_and!; [done| |].
  - intros i g Hi. specialize (Hg i g Hi).
    unfold is_size_t, SIZE_MAX in *. lia.
  - intros i ch Hs. destruct (Hch i ch Hs) as [Hsl Hb].
    unfold is_size_t, SIZE_MAX in *. lia.
Qed.

Lemma table_well_formed_witness :
  length (channel_gens (bus three_channels))
  = length (channels (bus three_channels)) /\
  (forall i g, channel_gens (bus three_channels) !! i = Some g ->
     0 <= g <= SIZE_MAX) /\
  (forall i ch, slot i (bus three_channels) = Some ch ->
     0 <= size_limit ch <= SIZE_MAX /\
     Z.of_nat (length (data ch)) <= size_limit ch).
Proof.
  apply (table_well_formed three_channels).
  apply reachable_run_all; [apply reach_new|].
  repeat constructor; cbn; unfold is_size_t, SIZE_BITS; lia.
Defined.

(** ** Handles that do not resolve *)

Lemma send_v_transfer_error p buf count free_space w :
  global_error (send_v_transfer p buf count free_space w).2
  = CORO_BUS_ERR_NONE.
Proof.
  unfold send_v_transfer. unfold_M.
  destruct (send_v_push _ _ _ _ _) as [? w1].
  by destruct (wakeup_queue_wakeup_n _ _ _ _) as [? w2].
Qed.

Lemma recv_v_transfer_error p capacity size w :
  global_error (recv_v_transfer p capacity size w).2 = CORO_BUS_ERR_NONE.
Proof.
  unfold recv_v_transfer. unfold_M.
  destruct (recv_v_pop _ _ _) as [? w1].
  by destruct (wakeup_queue_wakeup_n _ _ _ _) as [? w2].
Qed.

(** X2. [channel_get] returns NULL exactly when the bus pointer is NULL,
    the handle is negative or not below [channel_count], or its slot is
    NULL; otherwise it returns the channel of the slot. With a handle
    of the first kind every send and receive, blocking or not, scalar
    or vector (with a count above 0), returns -1 with NO_CHANNEL at once
    and changes nothing else, and [coro_bus_channel_close] does nothing
    at all. With a handle of the second kind none of them reports
    NO_CHANNEL: the non-blocking calls leave another error code, the
    blocking scalar calls do not return -1, and the blocking vector
    calls, if they return, leave NONE. *)
Theorem unresolved_handle_fails w this bp channel v buf count capacity :
  count <> 0 -> capacity <> 0 ->
  let unresolved :=
    bp = NULL \/ channel < 0 \/ channel_count (bus w) <= channel \/
    slot (Z.to_nat channel) (bus w) = None in
  (channel_get bp channel w = (None, w) <-> unresolved) /\
  (forall ch,
     channel_get bp channel w = (Some ch, w) <->
     bp = BUS /\ 0 <= channel < channel_count (bus w) /\
     slot (Z.to_nat channel) (bus w) = Some ch) /\
  (unresolved ->
   coro_bus_try_send bp channel v w
     = (-1, set_err CORO_BUS_ERR_NO_CHANNEL w) /\
   coro_bus_try_recv bp channel w
     = ((-1, None), set_err CORO_BUS_ERR_NO_CHANNEL w) /\
   coro_bus_try_send_v bp channel buf count w
     = (-1, set_err CORO_BUS_ERR_NO_CHANNEL w) /\
   coro_bus_try_recv_v bp channel capacity w
     = ((-1, []), set_err CORO_BUS_ERR_NO_CHANNEL w) /\
   coro_bus_send this bp channel v w
     = (Returned (-1), set_err CORO_BUS_ERR_NO_CHANNEL w) /\
   coro_bus_recv this bp channel w
     = (Returned (-1, None), set_err CORO_BUS_ERR_NO_CHANNEL w) /\
   coro_bus_send_v this bp channel buf count w
     = (Returned (-1), set_err CORO_BUS_ERR_NO_CHANNEL w) /\
   coro_bus_recv_v this bp channel capacity w
     = (Returned (-1, []), set_err CORO_BUS_ERR_NO_CHANNEL w) /\
   coro_bus_channel_close bp channel w = (tt, w)) /\
  (~ unresolved ->
   global_error (coro_bus_try_send bp channel v w).2
     <> CORO_BUS_ERR_NO_CHANNEL /\
   global_error (coro_bus_try_recv bp channel w).2
     <> CORO_BUS_ERR_NO_CHANNEL /\
   global_error (coro_bus_try_send_v bp channel buf count w).2
     <> CORO_BUS_ERR_NO_CHANNEL /\
   global_error (coro_bus_try_recv_v bp channel capacity w).2
     <> CORO_BUS_ERR_NO_CHANNEL /\
   (coro_bus_send this bp channel v w).1 <> Returned (-1) /\
   (forall out, (coro_bus_recv this bp channel w).1 <> Returned (-1, out)) /\
   (forall rc, (coro_bus_send_v this bp channel buf count w).1 = Returned rc ->
      global_error (coro_bus_send_v this bp channel buf count w).2
      = CORO_BUS_ERR_NONE) /\
   (forall r, (coro_bus_recv_v this bp channel capacity w).1 = Returned r ->
      global_error (coro_bus_recv_v this bp channel capacity w).2
      = CORO_BUS_ERR_NONE)).
Proof.
  intros Hc Hcap. cbv zeta. rewrite channel_get_eq. split_and!.
  - rewrite <- resolve_None. split; [by intros [= ->]|by intros ->].
  - intros ch. split.
    + intros [= H]. pose proof H as (-> & H0 & Hs)%resolve_Some.
      split_and!; [done..| |done].
      apply slot_Some_lt in Hs. unfold channel_count. lia.
    + intros (-> & [H0 _] & Hs).
      by rewrite (proj2 (resolve_Some BUS channel w ch)).
  - intros H%resolve_None. split_and!.
    + by apply try_send_no_channel.
    + by apply try_recv_no_channel.
    + by apply try_send_v_no_channel.
    + by apply try_recv_v_no_channel.
    + by apply send_no_channel.
    + by apply recv_no_channel.
    + unfold coro_bus_send_v. destruct (Z.eqb_spec count 0); [done|].
      by apply send_v_loop_no_channel.
    + unfold coro_bus_recv_v. destruct (Z.eqb_spec capacity 0); [done|].
      by apply recv_v_loop_no_channel.
    + by apply channel_close_none.
  - intros Hlive. destruct (resolve bp channel w) as [ch|] eqn:H.
    2: { destruct Hlive. by apply resolve_None. }
    split_and!.
    + destruct (is_full ch) eqn:Hf.
      * by erewrite try_send_full by done.
      * by erewrite try_send_ok by done.
    + destruct (data ch) as [|front rest] eqn:Hd.
      * by erewrite try_recv_empty by done.
      * by erewrite try_recv_ok by done.
    + unfold coro_bus_try_send_v. unfold_M.
      destruct (Z.eqb_spec count 0); [done|]. rewrite channel_get_eq, H.
      destruct (Z.eqb_spec
                  (to_size_t (size_limit ch - Z.of_nat (length (data ch)))) 0);
        [done|].
      by rewrite send_v_transfer_error.
    + unfold coro_bus_try_recv_v. unfold_M.
      destruct (Z.eqb_spec capacity 0); [done|]. rewrite channel_get_eq, H.
      destruct (data ch) as [|front rest] eqn:Hd; [done|].
      by rewrite recv_v_transfer_error.
    + destruct (is_full ch) eqn:Hf.
      * by erewrite send_suspend by done.
      * by erewrite send_ok by done.
    + intros out. destruct (data ch) as [|front rest] eqn:Hd.
      * by erewrite recv_suspend by done.
      * by erewrite recv_ok by done.
    + intros rc. unfold coro_bus_send_v, coro_bus_send_v_loop. unfold_M.
      destruct (Z.eqb_spec count 0); [done|]. rewrite channel_get_eq, H.
      destruct (Z.eqb_spec
                  (to_size_t (size_limit ch - Z.of_nat (length (data ch)))) 0).
      * destruct (channel_gen_get _ _ _) as [? w1].
        by destruct (wakeup_queue_suspend_this_link _ _ _ _) as [? w2].
      * intros _.
        pose proof (send_v_transfer_error (Z.to_nat channel) buf count
          (to_size_t (size_limit ch - Z.of_nat (length (data ch)))) w) as He.
        by destruct (send_v_transfer _ _ _ _ _).
    + intros r. unfold coro_bus_recv_v, coro_bus_recv_v_loop. unfold_M.
      destruct (Z.eqb_spec capacity 0); [done|]. rewrite channel_get_eq, H.
      destruct (data ch) as [|front rest] eqn:Hd.
      * destruct (channel_gen_get _ _ _) as [? w1].
        by destruct (wakeup_queue_suspend_this_link _ _ _ _) as [? w2].
      * intros _.
        pose proof (recv_v_transfer_error (Z.to_nat channel) capacity
          (Z.of_nat (length (front :: rest))) w) as He.
        by destruct (recv_v_transfer _ _ _ _).
Qed.

Lemma unresolved_handle_fails_witness :
  channel_get BUS 3 three_channels = (None, three_channels) /\
  channel_get BUS 1 three_channels
  = (Some (mk_channel 1 [] [] [5]), three_channels) /\
  coro_bus_try_send BUS 3 5 three_channels
    = (-1, set_err CORO_BUS_ERR_NO_CHANNEL three_channels) /\
  coro_bus_recv_v 1%nat BUS (-1) 4 three_channels
    = (Returned (-1, []), set_err CORO_BUS_ERR_NO_CHANNEL three_channels) /\
  global_error (coro_bus_try_send BUS 1 5 three_channels).2
    <> CORO_BUS_ERR_NO_CHANNEL.
Proof.
  destruct (unresolved_handle_fails three_channels 1%nat BUS 3 5 [5] 1 1)
    as (Hnone & _ & Hfail & _); [lia|lia|].
  destruct (unresolved_handle_fails three_channels 1%nat BUS (-1) 5 [5] 1 4)
    as (_ & _ & Hfail' & _); [lia|lia|].
  destruct (unresolved_handle_fails three_channels 1%nat BUS 1 5 [5] 1 1)
    as (_ & Hsome & _ & Hlive); [lia|lia|].
  assert (channel_count (bus three_channels) <= 3) as Hge
    by (vm_compute; intros H; discriminate H).
  split_and!.
  - apply Hnone. by do 2 right; left.
  - apply Hsome. split_and!; [reflexivity|lia| |reflexivity].
    vm_compute. reflexivity.
  - apply Hfail. by do 2 right; left.
  - apply Hfail'. right; left. lia.
  - apply Hlive. intros [H|[H|[H|H]]].
    + discriminate H.
    + lia.
    + vm_compute in H. by apply H.
    + vm_compute in H. discriminate H.
Defined.

(** ** Opening a channel *)

(** X3. [coro_bus_channel_open] on a bus never fails. The handle it returns
    is the lowest index whose slot is not live: every slot below it
    holds a channel, and its own slot was NULL or is the slot just past
    the table. Afterwards the handle resolves to an empty channel of the
    requested capacity with no waiter, every other slot is as before,
    the error code is NONE and no coroutine was woken. *)
Theorem channel_open_lowest_free w size_limit :
  let r := coro_bus_channel_open BUS size_limit w in
  0 <= r.1 <= channel_count (bus w) /\
  slot (Z.to_nat r.1) (bus w) = None /\
  (forall j, (j < Z.to_nat r.1)%nat -> exists ch, slot j (bus w) = Some ch) /\
  resolve BUS r.1 r.2 = Some (mk_channel size_limit [] [] []) /\
  (forall j, j <> Z.to_nat r.1 -> slot j (bus r.2) = slot j (bus w)) /\
  global_error r.2 = CORO_BUS_ERR_NONE /\
  woken r.2 = woken w.
Proof.
  cbv zeta. destruct (first_null (channels (bus w)) 0) as [i|] eqn:Hn.
  - rewrite (channel_open_reuse _ _ _ Hn). cbn [fst snd].
    apply first_null_Some in Hn as (_ & Hi & Hlow).
    rewrite Nat.sub_0_r in Hi, Hlow.
    pose proof (lookup_lt_Some _ _ _ Hi) as Hlt.
    rewrite Nat2Z.id. split_and!.
    + lia.
    + unfold channel_count. lia.
    + unfold slot. by rewrite Hi.
    + intros j Hj. destruct (Hlow j Hj) as [ch Hch]. exists ch.
      by apply slot_Some_lookup.
    + apply resolve_Some. split_and!; [done|lia|]. rewrite Nat2Z.id.
      rewrite bus_set_err, slot_upd by done. by rewrite decide_True.
    + intros j Hj. rewrite bus_set_err, slot_upd by done.
      by rewrite decide_False.
    + done.
    + done.
  - rewrite (channel_open_grow _ _ Hn). cbn [fst snd].
    unfold channel_count. rewrite Nat2Z.id. split_and!.
    + lia.
    + lia.
    + unfold slot. by rewrite lookup_ge_None_2.
    + intros j Hj.
      destruct (lookup_lt_is_Some_2 (channels (bus w)) j Hj) as [o Ho].
      destruct (first_null_None _ _ Hn _ _ Ho) as [ch ->]. exists ch.
      by apply slot_Some_lookup.
    + apply resolve_Some. split_and!; [done|lia|]. rewrite Nat2Z.id.
      rewrite bus_set_err, slot_grown. by rewrite decide_True.
    + intros j Hj. rewrite bus_set_err, slot_grown. by rewrite decide_False.
    + done.
    + done.
Qed.

(** ** Closing a channel *)

Lemma channel_close_unresolved w bp channel :
  resolve bp channel (coro_bus_channel_close bp channel w).2 = None.
Proof.
  destruct (resolve bp channel w) as [ch|] eqn:H.
  - rewrite (channel_close_live _ _ _ _ H). cbn [snd].
    apply resolve_None. do 3 right.
    rewrite bus_wake, slot_closed. by rewrite decide_True.
  - by rewrite (channel_close_none _ _ _ H).
Qed.

(** X4. [coro_bus_channel_close] on a live channel sets its slot to NULL, so
    the handle no longer resolves; it calls [coro_wakeup] for every
    coroutine of the send queue and then for every coroutine of the
    receive queue, in queue order; the messages of the buffer are gone
    with the channel; every other slot, the length of the table and the
    error code are as before. *)
Theorem channel_close_wakes_all w bp channel ch :
  resolve bp channel w = Some ch ->
  let w' := (coro_bus_channel_close bp channel w).2 in
  resolve bp channel w' = None /\
  slot (Z.to_nat channel) (bus w') = None /\
  (forall j, j <> Z.to_nat channel -> slot j (bus w') = slot j (bus w)) /\
  length (channels (bus w')) = length (channels (bus w)) /\
  woken w' = woken w ++ send_queue ch ++ recv_queue ch /\
  global_error w' = global_error w.
Proof.
  intros H. cbv zeta. rewrite (channel_close_live _ _ _ _ H). cbn [snd].
  assert (slot (Z.to_nat channel)
            (bus (wake (send_queue ch ++ recv_queue ch)
                    (closed (Z.to_nat channel) w))) = None) as Hnone.
  { rewrite bus_wake, slot_closed. by rewrite decide_True. }
  split_and!.
  - apply resolve_None. by do 3 right.
  - done.
  - intros j Hj. rewrite bus_wake, slot_closed. by rewrite decide_False.
  - rewrite bus_wake. unfold closed; cbn. by rewrite length_insert.
  - done.
  - done.
Qed.

Lemma channel_close_wakes_all_witness :
  woken (coro_bus_channel_close BUS 0
           (run (EvSend 1%nat BUS 0 8) one_full_channel).2).2
  = [] ++ [1%nat] ++ [].
Proof.
  apply (channel_close_wakes_all
           (run (EvSend 1%nat BUS 0 8) one_full_channel).2 BUS 0
           (mk_channel 1 [1%nat] [] [7]) eq_refl).
Defined.

(** X5. Closing is idempotent: a second [coro_bus_channel_close] of the same
    handle, right after the first, changes nothing. *)
Theorem channel_close_idempotent w bp channel :
  coro_bus_channel_close bp channel
    (coro_bus_channel_close bp channel w).2
  = (tt, (coro_bus_channel_close bp channel w).2).
Proof.
  apply channel_close_none, channel_close_unresolved.
Qed.

(** ** Stale handles *)

(** X6. A waiter never takes a reopened channel for its own. Let a call
    have read the generation [gen] of its live channel and suspended.
    Once the channel is closed, whatever happens next on the bus (the
    slot may be opened again any number of times, other coroutines may
    use the new channel), as long as the 64-bit generation counter of
    the slot cannot wrap, the handle with [gen] is not the same channel,
    and the resumed segment of [coro_bus_send], [coro_bus_recv],
    [coro_bus_send_v] and [coro_bus_recv_v] returns -1 with NO_CHANNEL
    after unlinking its queue entry, without touching the new channel. *)
Theorem stale_handle_detected w bp channel ch tr this v buf count capacity :
  reachable w -> resolve bp channel w = Some ch -> Forall event_ok tr ->
  gen_of bp channel w + 1 + Z.of_nat (length tr) <= SIZE_MAX ->
  let gen := gen_of bp channel w in
  let w' := run_all tr (coro_bus_channel_close bp channel w).2 in
  same_channel bp channel gen w' = false /\
  coro_bus_send_resumed this bp channel v gen w'
  = (Returned (-1),
     set_err CORO_BUS_ERR_NO_CHANNEL
       (unlink_world (Z.to_nat channel) SendQ this w')) /\
  coro_bus_recv_resumed this bp channel gen w'
  = (Returned (-1, None),
     set_err CORO_BUS_ERR_NO_CHANNEL
       (unlink_world (Z.to_nat channel) RecvQ this w')) /\
  coro_bus_send_v_resumed this bp channel buf count gen w'
  = (Returned (-1),
     set_err CORO_BUS_ERR_NO_CHANNEL
       (unlink_world (Z.to_nat channel) SendQ this w')) /\
  coro_bus_recv_v_resumed this bp channel capacity gen w'
  = (Returned (-1, []),
     set_err CORO_BUS_ERR_NO_CHANNEL
       (unlink_world (Z.to_nat channel) RecvQ this w')).
Proof.
  intros Hw H Htr Hbound. cbv zeta.
  set (gen := gen_of bp channel w) in *.
  set (w' := run_all tr (coro_bus_channel_close bp channel w).2).
  pose proof (reachable_ok w Hw) as Hok.
  pose proof (gen_of_live _ _ _ _ Hok H) as Hg. fold gen in Hg.
  assert (is_size_t gen) as Hrange by by eapply Hok.
  assert (reachable (coro_bus_channel_close bp channel w).2) as Hw1.
  { replace (coro_bus_channel_close bp channel w).2
      with (run (EvChannelClose bp channel) w).2; [by apply reach_step|].
    cbn [run]. unfold_M. by destruct (coro_bus_channel_close _ _ _). }
  assert (channel_gens (bus (coro_bus_channel_close bp channel w).2)
            !! Z.to_nat channel = Some (gen + 1)) as Hg1.
  { rewrite (channel_close_live _ _ _ _ H). norm_bus. unfold closed; cbn.
    rewrite list_lookup_alter_eq, Hg. cbn.
    rewrite to_size_t_small; [done|].
    unfold is_size_t, SIZE_MAX in *. lia. }
  destruct (generation_run tr _ _ _ Hw1 Htr Hg1) as (g' & Hg' & Hle); [lia|].
  fold w' in Hg'.
  assert (same_channel bp channel gen w' = false) as Hstale.
  { destruct (same_channel _ _ _ _) eqn:Hsame; [|done].
    apply same_channel_true in Hsame as [[ch' Hch'] Hgen].
    assert (reachable w') as Hw' by by apply reachable_run_all.
    pose proof (gen_of_live _ _ _ _ (reachable_ok _ Hw') Hch') as Hg2.
    rewrite Hgen, Hg' in Hg2. injection Hg2 as ->. lia. }
  pose proof (same_channel_stale _ _ _ _ Hstale) as Hcase.
  split_and!.
  - done.
  - rewrite send_resumed_eq. cbv zeta. by rewrite same_channel_false.
  - rewrite recv_resumed_eq. cbv zeta. by rewrite same_channel_false.
  - rewrite send_v_resumed_eq. cbv zeta. by rewrite same_channel_false.
  - rewrite recv_v_resumed_eq. cbv zeta. by rewrite same_channel_false.
Qed.

Lemma stale_handle_detected_witness :
  same_channel BUS 0 1 closed_and_reopened = false /\
  coro_bus_send_resumed 1%nat BUS 0 8 1 closed_and_reopened
  = (Returned (-1),
     set_err CORO_BUS_ERR_NO_CHANNEL
       (unlink_world 0 SendQ 1%nat closed_and_reopened)).
Proof.
  assert (reachable (run (EvSend 1%nat BUS 0 8) one_full_channel).2) as Hw.
  { apply (reachable_run_all
             [EvChannelOpen BUS 1; EvTrySend BUS 0 7; EvSend 1%nat BUS 0 8]);
      [apply reach_new|].
    repeat constructor; cbn; unfold is_size_t, SIZE_BITS; lia. }
  pose proof (stale_handle_detected
                (run (EvSend 1%nat BUS 0 8) one_full_channel).2 BUS 0
                (mk_channel 1 [1%nat] [] [7]) [EvChannelOpen BUS 3]
                1%nat 8 [] 0 0 Hw eq_refl) as H.
  destruct H as (H1 & H2 & _).
  - repeat constructor; cbn; unfold is_size_t, SIZE_BITS; lia.
  - vm_compute. intros H. discriminate H.
  - split; [exact H1|exact H2].
Defined.

(** ** Operations on other channels *)

Lemma same_at_local c w w' h :
  local_form c w w' -> 0 <= h -> h <> c ->
  same_at (Z.to_nat h) (bus w) (bus w').
Proof.
  intros Hl Hh Hne. split; [by eapply local_form_frame|].
  by destruct Hl as [->|ch ch' Hc Hs Hstep ->].
Qed.

Lemma same_at_unlink_world h i q this w :
  0 <= h -> 0 <= i -> h <> i ->
  same_at (Z.to_nat h) (bus w) (bus (unlink_world (Z.to_nat i) q this w)).
Proof.
  intros Hh Hi Hne. split.
  - rewrite slot_unlink_world. rewrite decide_False; [done|lia].
  - destruct (slot (Z.to_nat i) (bus w)) as [ch|] eqn:Hs.
    + by rewrite (unlink_world_Some _ _ _ _ _ Hs).
    + by rewrite unlink_world_None.
Qed.

Lemma same_at_trans i b1 b2 b3 :
  same_at i b1 b2 -> same_at i b2 b3 -> same_at i b1 b3.
Proof. intros [H1 H2] [H3 H4]. split; congruence. Qed.

Lemma same_at_eq i b b' : b' = b -> same_at i b b'.
Proof. by intros ->. Qed.

Ltac resumed_same_at Hok lem :=
  cbv zeta;
  match goal with
  | |- context [unlink_world (Z.to_nat ?i) ?q ?t ?w] =>
      pose proof (bus_ok_unlink_world (Z.to_nat i) q t w Hok);
      apply (same_at_trans _ _ (bus (unlink_world (Z.to_nat i) q t w)));
      [by apply same_at_unlink_world|]
  end;
  destruct (same_channel _ _ _ _);
  [ eapply same_at_local; [by eapply lem|done|done]
  | by apply same_at_eq ].

Lemma run_same_at h e w ch :
  bus_ok (bus w) -> event_ok e -> ~ touches h e -> 0 <= h ->
  slot (Z.to_nat h) (bus w) = Some ch ->
  same_at (Z.to_nat h) (bus w) (bus (run e w).2).
Proof.
  intros Hok He Ht Hh Hs. rewrite run_bus.
  destruct e; cbn in He, Ht; try (by destruct Ht).
  - by apply same_at_eq.
  - destruct bus0; [by apply same_at_eq|].
    destruct (first_null (channels (bus w)) 0) as [i|] eqn:Hn.
    + rewrite (channel_open_reuse _ _ _ Hn). norm_bus.
      apply first_null_Some in Hn as (_ & Hi & _).
      rewrite Nat.sub_0_r in Hi. split; [|done].
      rewrite slot_upd by by eapply lookup_lt_Some.
      case_decide as Heq; [|done]. rewrite Heq in Hs.
      unfold slot in Hs. by rewrite Hi in Hs.
    + rewrite (channel_open_grow _ _ Hn). norm_bus.
      pose proof (slot_Some_lt _ _ _ Hs) as Hlt.
      destruct Hok as (Hlen & _). split.
      * rewrite slot_grown. rewrite decide_False; [done|lia].
      * unfold grown; cbn. rewrite lookup_app_l; [done|lia].
  - destruct (resolve bus0 channel w) as [ch0|] eqn:H.
    + rewrite (channel_close_live _ _ _ _ H). norm_bus.
      apply resolve_Some in H as (_ & Hc & _). split.
      * rewrite slot_closed. rewrite decide_False; [done|lia].
      * unfold closed; cbn. rewrite list_lookup_alter_ne; [done|lia].
    + rewrite (channel_close_none _ _ _ H). by apply same_at_eq.
  - eapply same_at_local; [by apply try_send_local|done..].
  - eapply same_at_local; [by apply try_recv_local|done..].
  - destruct He. eapply same_at_local; [by apply try_send_v_local|done..].
  - eapply same_at_local; [by apply try_recv_v_local|done..].
  - eapply same_at_local; [by apply send_local|done..].
  - rewrite send_resumed_eq. resumed_same_at Hok send_local.
  - eapply same_at_local; [by apply recv_local|done..].
  - rewrite recv_resumed_eq. resumed_same_at Hok recv_local.
  - destruct He. eapply same_at_local; [by apply send_v_local|done..].
  - destruct He as (? & ? & ?). rewrite send_v_resumed_eq.
    resumed_same_at Hok send_v_loop_local.
  - eapply same_at_local; [by apply recv_v_local|done..].
  - destruct He as (? & ?). rewrite recv_v_resumed_eq.
    resumed_same_at Hok recv_v_loop_local.
Qed.

(** X7. Channels are independent of each other. Along any run in which no
    operation is on the handle [h] (no call with this handle, no
    broadcast), a live channel of [h] stays exactly as it is: the same
    capacity, buffer, send and receive waiters, and the same generation.
    Opening, using and closing other channels, and failed calls with
    any other handle, never reach it. *)
Theorem other_channels_untouched tr : forall w h ch,
  reachable w -> Forall event_ok tr -> Forall (fun e => ~ touches h e) tr ->
  0 <= h -> slot (Z.to_nat h) (bus w) = Some ch ->
  slot (Z.to_nat h) (bus (run_all tr w)) = Some ch /\
  channel_gens (bus (run_all tr w)) !! Z.to_nat h
  = channel_gens (bus w) !! Z.to_nat h.
Proof.
  induction tr as [|e tr IH]; intros w h ch Hw Htr Hno Hh Hs; [done|].
  inversion Htr as [|? ? He Htr']; subst.
  inversion Hno as [|? ? Hne Hno']; subst.
  destruct (run_same_at h e w ch (reachable_ok w Hw) He Hne Hh Hs)
    as [Hslot Hgen].
  cbn [run_all]. rewrite <- Hgen. apply IH; try done.
  - by apply reach_step.
  - by rewrite Hslot.
Qed.

Lemma other_channels_untouched_witness :
  slot 1 (bus (run_all [EvTrySend BUS 0 5; EvChannelClose BUS 2;
                        EvChannelOpen BUS 9; EvRecv 4%nat BUS 0]
                 three_channels))
  = slot 1 (bus three_channels).
Proof.
  assert (reachable three_channels) as Hw.
  { apply reachable_run_all; [apply reach_new|].
    repeat constructor; cbn; unfold is_size_t, SIZE_BITS; lia. }
  destruct (slot 1 (bus three_channels)) as [ch|] eqn:Hs;
    [|vm_compute in Hs; discriminate Hs].
  apply (other_channels_untouched
           [EvTrySend BUS 0 5; EvChannelClose BUS 2;
            EvChannelOpen BUS 9; EvRecv 4%nat BUS 0]
           three_channels 1 ch Hw).
  - repeat constructor; cbn; unfold is_size_t, SIZE_BITS; lia.
  - repeat constructor; cbn; lia.
  - lia.
  - exact Hs.
Defined.

(** ** The blocking calls and their non-blocking forms *)

(** X8. Each blocking call is its non-blocking form, except that where the
    non-blocking form fails with WOULD_BLOCK the blocking call suspends
    instead: it returns what the attempt returns, in the same world,
    when the attempt succeeds or fails with NO_CHANNEL; on a full
    (respectively empty) channel it reads the generation of the
    channel, links the caller at the tail of the send (respectively
    receive) queue and suspends. [coro_bus_send] and [coro_bus_recv]
    suspend with the WOULD_BLOCK of their attempt left in the error
    code; [coro_bus_send_v] and [coro_bus_recv_v] suspend with the
    error code untouched. *)
Theorem blocking_is_try_or_suspend this bp channel v buf count capacity w :
  coro_bus_send this bp channel v w
  = blocking_of_try SendQ this bp channel w
      (coro_bus_try_send bp channel v w)
      (coro_bus_try_send bp channel v w).2 /\
  coro_bus_recv this bp channel w
  = blocking_of_try RecvQ this bp channel w
      (coro_bus_try_recv bp channel w)
      (coro_bus_try_recv bp channel w).2 /\
  coro_bus_send_v this bp channel buf count w
  = blocking_of_try SendQ this bp channel w
      (coro_bus_try_send_v bp channel buf count w) w /\
  coro_bus_recv_v this bp channel capacity w
  = blocking_of_try RecvQ this bp channel w
      (coro_bus_try_recv_v bp channel capacity w) w.
Proof.
  unfold blocking_of_try. split_and!.
  - destruct (resolve bp channel w) as [ch|] eqn:H.
    + destruct (is_full ch) eqn:Hf.
      * erewrite send_suspend, try_send_full by done. done.
      * erewrite send_ok, try_send_ok by done. done.
    + by rewrite send_no_channel, try_send_no_channel.
  - destruct (resolve bp channel w) as [ch|] eqn:H.
    + destruct (data ch) as [|front rest] eqn:Hd.
      * erewrite recv_suspend, try_recv_empty by done. done.
      * erewrite recv_ok, try_recv_ok by done. done.
    + by rewrite recv_no_channel, try_recv_no_channel.
  - unfold coro_bus_send_v, coro_bus_try_send_v, coro_bus_send_v_loop.
    unfold_M. destruct (Z.eqb_spec count 0); [done|].
    rewrite channel_get_eq.
    destruct (resolve bp channel w) as [ch|] eqn:H; [|done].
    destruct (Z.eqb_spec
                (to_size_t (size_limit ch - Z.of_nat (length (data ch)))) 0)
      as [Hf|Hf]; cbn.
    + rewrite channel_gen_get_eq.
      apply resolve_Some in H as (_ & _ & Hs). by erewrite link_Some.
    + rewrite send_v_transfer_error.
      by destruct (send_v_transfer _ _ _ _ _).
  - unfold coro_bus_recv_v, coro_bus_try_recv_v, coro_bus_recv_v_loop.
    unfold_M. destruct (Z.eqb_spec capacity 0); [done|].
    rewrite channel_get_eq.
    destruct (resolve bp channel w) as [ch|] eqn:H; [|done].
    destruct (data ch) as [|front rest] eqn:Hd; cbn.
    + rewrite channel_gen_get_eq.
      apply resolve_Some in H as (_ & _ & Hs). by erewrite link_Some.
    + rewrite recv_v_transfer_error.
      by destruct (recv_v_transfer _ _ _ _).
Qed.

(** ** The blocking broadcast *)

Lemma broadcast_scan_first chs : forall k b blk,
  broadcast_scan chs k b = ScanFull blk ->
  forall j ch, (j < blk - k)%nat -> chs !! j = Some (Some ch) ->
  is_full ch = false.
Proof.
  induction chs as [|[ch0|] chs IH]; intros k b blk H j ch Hj Hl; cbn in H.
  - by destruct b.
  - destruct (is_full ch0) eqn:Hf.
    + injection H as <-. lia.
    + destruct j as [|j]; cbn in Hl; [by simplify_eq|].
      eapply (IH _ _ _ H j); [|done].
      apply broadcast_scan_full in H as [? _]. lia.
  - destruct j as [|j]; cbn in Hl; [done|].
    eapply (IH _ _ _ H j); [|done].
    apply broadcast_scan_full in H as [? _]. lia.
Qed.

(** X9. [coro_bus_broadcast] is [coro_bus_try_broadcast] whenever no live
    channel is full (or the bus is NULL): the same result in the same
    world. When some live channel is full, it delivers nothing and
    suspends in the send queue of one channel only, the full live
    channel of the lowest index, leaving the error code as it was;
    [coro_bus_try_broadcast] fails with WOULD_BLOCK there. When it is
    resumed, the call checks no generation: if its channel was closed in
    the meantime, the resumed call is a fresh broadcast to the channels
    that are left. *)
Theorem broadcast_blocks_on_first_full this v w :
  (forall bp,
     bp = NULL \/
       (forall j ch, slot j (bus w) = Some ch -> is_full ch = false) ->
     coro_bus_broadcast this bp v w
     = (Returned (coro_bus_try_broadcast bp v w).1,
        (coro_bus_try_broadcast bp v w).2)) /\
  (forall j ch,
     slot j (bus w) = Some ch -> is_full ch = true ->
     exists blk chb,
       (blk <= j)%nat /\ slot blk (bus w) = Some chb /\
       is_full chb = true /\
       (forall i chi, (i < blk)%nat -> slot i (bus w) = Some chi ->
          is_full chi = false) /\
       coro_bus_broadcast this BUS v w
       = (Suspended blk, upd blk (linked SendQ this chb) w) /\
       coro_bus_try_broadcast BUS v w
       = (-1, set_err CORO_BUS_ERR_WOULD_BLOCK w)) /\
  (forall blk,
     slot blk (bus w) = None ->
     coro_bus_broadcast_resumed this BUS v blk w
     = coro_bus_broadcast this BUS v w).
Proof.
  split_and!.
  - intros [|] Hfree; [done|]. destruct Hfree as [?|Hfree]; [done|].
    rewrite broadcast_eq, try_broadcast_eq.
    destruct (broadcast_scan _ _ _) as [|blk|] eqn:Hscan; [done| |done].
    apply broadcast_scan_full in Hscan as (_ & ch & Hl & Hf).
    rewrite Nat.sub_0_r in Hl. apply slot_Some_lookup in Hl.
    rewrite (Hfree _ _ Hl) in Hf. done.
  - intros j ch Hs Hf.
    pose proof Hs as Hl. apply slot_Some_lookup in Hl.
    destruct (broadcast_scan_blocks _ 0%nat false _ _ Hl Hf) as [blk Hscan].
    pose proof (broadcast_scan_first _ _ _ _ Hscan) as Hfirst.
    pose proof Hscan as (_ & chb & Hlb & Hfb)%broadcast_scan_full.
    rewrite Nat.sub_0_r in Hlb, Hfirst. apply slot_Some_lookup in Hlb.
    exists blk, chb. split_and!.
    + destruct (decide (blk <= j)%nat) as [|Hlt]; [done|].
      rewrite (Hfirst j ch) in Hf; [done|lia|done].
    + done.
    + done.
    + intros i chi Hi Hsi. apply (Hfirst i chi Hi).
      by apply slot_Some_lookup.
    + by rewrite broadcast_eq, Hscan, Hlb.
    + by rewrite try_broadcast_eq, Hscan.
  - intros blk Hs. rewrite broadcast_resumed_eq.
    by rewrite unlink_world_None.
Qed.

Lemma broadcast_blocks_on_first_full_witness :
  coro_bus_broadcast 2%nat BUS 5 three_channels_drained
  = (Returned (coro_bus_try_broadcast BUS 5 three_channels_drained).1,
     (coro_bus_try_broadcast BUS 5 three_channels_drained).2) /\
  exists blk chb,
    (blk <= 1)%nat /\ slot blk (bus three_channels) = Some chb /\
    is_full chb = true /\
    (forall i chi, (i < blk)%nat -> slot i (bus three_channels) = Some chi ->
       is_full chi = false) /\
    coro_bus_broadcast 2%nat BUS 5 three_channels
    = (Suspended blk, upd blk (linked SendQ 2%nat chb) three_channels) /\
    coro_bus_try_broadcast BUS 5 three_channels
    = (-1, set_err CORO_BUS_ERR_WOULD_BLOCK three_channels).
Proof.
  split.
  - apply (proj1 (broadcast_blocks_on_first_full 2%nat 5
                    three_channels_drained) BUS).
    right. intros [|[|[|j]]] ch Hs; vm_compute in Hs;
      try discriminate Hs; by injection Hs as <-.
  - apply (proj1 (proj2 (broadcast_blocks_on_first_full 2%nat 5
                           three_channels)) 1%nat (mk_channel 1 [] [] [5]));
      reflexivity.
Defined.

(** ** Waking the head of a queue *)

(** X10. [wakeup_queue_wakeup_n] with the count [n] on a queue of a live
    channel wakes the first [n] coroutines of the queue (all of them
    when there are fewer), in queue order, and leaves the others in the
    queue in their order; [wakeup_queue_wakeup_first] is the case
    [n = 1]. Neither touches the buffer, the capacity, the other queue,
    another slot or the error code. *)
Theorem wakeup_n_wakes_prefix i q n w ch :
  slot i (bus w) = Some ch ->
  let w' := (wakeup_queue_wakeup_n i q n w).2 in
  exists ch',
    slot i (bus w') = Some ch' /\
    woken w' = woken w ++ take n (queue_of q ch) /\
    queue_of q ch' = drop n (queue_of q ch) /\
    match q with
    | SendQ => recv_queue ch' = recv_queue ch
    | RecvQ => send_queue ch' = send_queue ch
    end /\
    size_limit ch' = size_limit ch /\ data ch' = data ch /\
    (forall j, j <> i -> slot j (bus w') = slot j (bus w)) /\
    global_error w' = global_error w /\
    wakeup_queue_wakeup_first i q w = wakeup_queue_wakeup_n i q 1 w.
Proof.
  intros Hs. cbv zeta. rewrite !(wakeup_n_Some _ _ _ _ _ Hs).
  rewrite (wakeup_first_Some _ _ _ _ Hs). cbn [snd].
  pose proof (slot_Some_lt _ _ _ Hs) as Hlt.
  exists (with_queue q (drop n (queue_of q ch)) ch). split_and!.
  - rewrite bus_wake, slot_upd by done. by rewrite decide_True.
  - done.
  - by destruct q.
  - by destruct q.
  - by destruct q.
  - by destruct q.
  - intros j Hj. rewrite bus_wake, slot_upd by done. by rewrite decide_False.
  - done.
  - done.
Qed.

Lemma wakeup_n_wakes_prefix_witness :
  exists ch',
    slot 0 (bus (wakeup_queue_wakeup_n 0 SendQ 3
                   (run (EvSend 1%nat BUS 0 8) one_full_channel).2).2)
    = Some ch' /\
    send_queue ch' = [].
Proof.
  destruct (wakeup_n_wakes_prefix 0 SendQ 3
              (run (EvSend 1%nat BUS 0 8) one_full_channel).2
              (mk_channel 1 [1%nat] [] [7]) eq_refl)
    as (ch' & Hs & _ & Hq & _).
  exists ch'. split; [exact Hs|exact Hq].
Defined.

(** ** Vector transfers *)

(** X11. [coro_bus_try_send_v] on a live channel, for a count that fits the
    [int] result: the buffer grows by a prefix of the batch, of a length
    [n] that is at most the count and at most the free space, so the
    buffer never exceeds the capacity and no element is skipped or
    reordered; [n] is exactly the smaller of the two when the free space
    is below 2^32. The call fails with WOULD_BLOCK only when the count
    is not 0 and the channel is full; otherwise it returns [n] with
    NONE. It wakes the first [n] receive-waiters (all of them when
    there are fewer) and touches nothing else of the channel. *)
Theorem try_send_v_appends_prefix w bp channel ch buf count :
  reachable w -> resolve bp channel w = Some ch ->
  0 <= count < 2 ^ (UINT_BITS - 1) -> count <= Z.of_nat (length buf) ->
  let r := coro_bus_try_send_v bp channel buf count w in
  let free := size_limit ch - Z.of_nat (length (data ch)) in
  exists n ch',
    0 <= n <= Z.min count free /\
    (free < 2 ^ UINT_BITS -> n = Z.min count free) /\
    (r.1 = -1 /\ count <> 0 /\ free = 0 /\
       global_error r.2 = CORO_BUS_ERR_WOULD_BLOCK \/
     r.1 = n /\ global_error r.2 = CORO_BUS_ERR_NONE) /\
    slot (Z.to_nat channel) (bus r.2) = Some ch' /\
    data ch' = data ch ++ take (Z.to_nat n) buf /\
    Z.of_nat (length (data ch')) <= size_limit ch' /\
    size_limit ch' = size_limit ch /\
    send_queue ch' = send_queue ch /\
    recv_queue ch' = drop (Z.to_nat n) (recv_queue ch) /\
    woken r.2 = woken w ++ take (Z.to_nat n) (recv_queue ch).
Proof.
  intros Hw H Hc Hb. cbv zeta.
  pose proof (reachable_ok w Hw) as Hok.
  pose proof H as (_ & _ & Hs)%resolve_Some.
  assert (channel_ok ch) as Hch by by eapply Hok.
  pose proof (free_space_eq ch Hch) as Hfs.
  pose proof Hch as [Hsl Hlen].
  pose proof (slot_Some_lt _ _ _ Hs) as Hlt.
  change (2 ^ (UINT_BITS - 1)) with 2147483648 in Hc.
  destruct (decide (count = 0)) as [->|Hcnt].
  { exists 0, ch. rewrite try_send_v_zero. cbn [fst snd].
    rewrite bus_set_err, Hs. cbn. rewrite !app_nil_r.
    split_and!; try done; try lia. by right. }
  destruct (decide (size_limit ch - Z.of_nat (length (data ch)) = 0))
    as [Hfull|Hfree].
  { exists 0, ch. rewrite (try_send_v_full _ _ _ _ _ ch) by (done || lia).
    cbn [fst snd]. rewrite bus_set_err, Hs. cbn. rewrite !app_nil_r.
    split_and!; try done; try lia. by left. }
  erewrite try_send_v_ok; [|done|done|done|lia]. cbn [fst snd].
  rewrite Hfs.
  set (free := size_limit ch - Z.of_nat (length (data ch))) in *.
  pose proof (to_unsigned_le free) as Hu.
  set (n := Z.min count (to_unsigned free)).
  assert (0 <= n <= Z.min count free) as Hn by (subst n; lia).
  exists n, (sent_v buf (Z.to_nat n) ch). split_and!; try done; try lia.
  - intros Hsmall. subst n. rewrite to_unsigned_small; [done|].
    unfold is_unsigned. lia.
  - right. split; [|done]. apply to_int_small.
    change (2 ^ (UINT_BITS - 1)) with 2147483648. lia.
  - rewrite bus_set_err, bus_wake, slot_upd by done. by rewrite decide_True.
  - cbn. rewrite length_app, length_take. lia.
Qed.

Lemma try_send_v_appends_prefix_witness :
  exists n ch',
    0 <= n <= Z.min 3 2 /\
    slot 0 (bus (coro_bus_try_send_v BUS 0 [4; 5; 6] 3 two_channels).2)
    = Some ch' /\
    data ch' = [] ++ take (Z.to_nat n) [4; 5; 6].
Proof.
  assert (reachable two_channels) as Hw.
  { apply reachable_run_all; [apply reach_new|].
    repeat constructor; cbn; unfold is_size_t, SIZE_BITS; lia. }
  destruct (try_send_v_appends_prefix two_channels BUS 0
              (mk_channel 2 [] [] []) [4; 5; 6] 3 Hw eq_refl)
    as (n & ch' & Hn & _ & _ & Hs & Hd & _).
  - change (2 ^ (UINT_BITS - 1)) with 2147483648. lia.
  - cbn. lia.
  - exists n, ch'. split; [exact Hn|]. split; [exact Hs|exact Hd].
Defined.

(** X12. [coro_bus_try_recv_v] on a live channel, for a capacity that fits
    the [int] result: what is stored in the array is a prefix of the
    buffer, of a length [n] that is at most the capacity of the array,
    and the buffer keeps the rest in its order, so no message is lost,
    duplicated or reordered; [n] is the smaller of the capacity and the
    buffer length when the buffer holds fewer than 2^32 messages. The
    call fails with WOULD_BLOCK only on an empty buffer with a capacity
    that is not 0; otherwise it returns [n] with NONE. It wakes the
    first [n] send-waiters (all of them when there are fewer) and
    touches nothing else of the channel. *)
Theorem try_recv_v_takes_prefix w bp channel ch capacity :
  resolve bp channel w = Some ch ->
  0 <= capacity < 2 ^ (UINT_BITS - 1) ->
  let r := coro_bus_try_recv_v bp channel capacity w in
  let len := Z.of_nat (length (data ch)) in
  exists n ch',
    0 <= n <= Z.min capacity len /\
    (len < 2 ^ UINT_BITS -> n = Z.min capacity len) /\
    (r.1.1 = -1 /\ capacity <> 0 /\ data ch = [] /\
       global_error r.2 = CORO_BUS_ERR_WOULD_BLOCK \/
     r.1.1 = n /\ global_error r.2 = CORO_BUS_ERR_NONE) /\
    r.1.2 = take (Z.to_nat n) (data ch) /\
    slot (Z.to_nat channel) (bus r.2) = Some ch' /\
    data ch' = drop (Z.to_nat n) (data ch) /\
    r.1.2 ++ data ch' = data ch /\
    size_limit ch' = size_limit ch /\
    recv_queue ch' = recv_queue ch /\
    send_queue ch' = drop (Z.to_nat n) (send_queue ch) /\
    woken r.2 = woken w ++ take (Z.to_nat n) (send_queue ch).
Proof.
  intros H Hc. cbv zeta.
  pose proof H as (_ & _ & Hs)%resolve_Some.
  pose proof (slot_Some_lt _ _ _ Hs) as Hlt.
  change (2 ^ (UINT_BITS - 1)) with 2147483648 in Hc.
  destruct (decide (capacity = 0)) as [->|Hcap].
  { exists 0, ch. rewrite try_recv_v_zero. cbn [fst snd].
    rewrite bus_set_err, Hs. cbn. rewrite !app_nil_r.
    split_and!; try done; try lia. by right. }
  destruct (decide (data ch = [])) as [Hempty|Hdata].
  { exists 0, ch. rewrite (try_recv_v_empty _ _ _ _ ch) by done.
    cbn [fst snd]. rewrite bus_set_err, Hs, Hempty. cbn.
    rewrite !app_nil_r. split_and!; try done; try lia. by left. }
  erewrite try_recv_v_ok by done. cbn [fst snd].
  pose proof (to_unsigned_le (Z.of_nat (length (data ch)))) as Hu.
  set (n := Z.min capacity (to_unsigned (Z.of_nat (length (data ch))))).
  assert (0 <= n <= Z.min capacity (Z.of_nat (length (data ch)))) as Hn
    by (subst n; lia).
  exists n, (received_v (Z.to_nat n) ch). split_and!; try done; try lia.
  - intros Hsmall. subst n. rewrite to_unsigned_small; [done|].
    unfold is_unsigned. lia.
  - right. split; [|done]. apply to_int_small.
    change (2 ^ (UINT_BITS - 1)) with 2147483648. lia.
  - rewrite bus_set_err, bus_wake, slot_upd by done. by rewrite decide_True.
  - cbn. apply take_drop.
Qed.

Lemma try_recv_v_takes_prefix_witness :
  exists n ch',
    0 <= n <= Z.min 4 1 /\
    (coro_bus_try_recv_v BUS 1 4 three_channels).1.2
    = take (Z.to_nat n) [5] /\
    slot 1 (bus (coro_bus_try_recv_v BUS 1 4 three_channels).2) = Some ch' /\
    data ch' = drop (Z.to_nat n) [5].
Proof.
  destruct (try_recv_v_takes_prefix three_channels BUS 1
              (mk_channel 1 [] [] [5]) 4 eq_refl)
    as (n & ch' & Hn & _ & _ & Hout & Hs & Hd & _).
  - change (2 ^ (UINT_BITS - 1)) with 2147483648. lia.
  - exists n, ch'. split; [exact Hn|]. split; [exact Hout|].
    split; [exact Hs|exact Hd].
Defined.

Lemma resolve_bus bp channel w w' :
  bus w' = bus w -> resolve bp channel w' = resolve bp channel w.
Proof.
  intros H. unfold resolve, channel_get. unfold_M. destruct bp; [done|].
  rewrite H. by destruct (_ || _).
Qed.

Lemma gen_of_bus bp channel w w' :
  channel_gens (bus w') = channel_gens (bus w) ->
  length (channels (bus w')) = length (channels (bus w)) ->
  gen_of bp channel w' = gen_of bp channel w.
Proof.
  intros Hg Hl. unfold gen_of, channel_gen_get, channel_count. unfold_M.
  destruct bp; [done|]. rewrite Hg, Hl. by destruct (_ || _).
Qed.

Lemma resolve_upd bp channel ch ch' w :
  resolve bp channel w = Some ch ->
  resolve bp channel (upd (Z.to_nat channel) ch' w) = Some ch'.
Proof.
  intros (-> & Hc & Hs)%resolve_Some. apply resolve_Some.
  split_and!; [done..|].
  rewrite slot_upd by by eapply slot_Some_lt. by rewrite decide_True.
Qed.

Lemma gen_of_upd bp channel i ch' w :
  gen_of bp channel (upd i ch' w) = gen_of bp channel w.
Proof. apply gen_of_bus; [done|]. apply length_channels_upd. Qed.

(** X13. A batch sent with [coro_bus_try_send_v] comes back from
    [coro_bus_try_recv_v] as it was sent. On a live channel of a
    capacity below 2^32 whose buffer [d] leaves room for the whole batch
    [buf], the send returns the length of the batch, and a receive into
    an array that has room for [d] and the batch returns exactly [d]
    followed by the batch, in order, and leaves the buffer empty. *)
Theorem vector_round_trip w bp channel ch buf :
  reachable w -> resolve bp channel w = Some ch ->
  Z.of_nat (length (data ch)) + Z.of_nat (length buf) <= size_limit ch ->
  size_limit ch < 2 ^ UINT_BITS ->
  Z.of_nat (length (data ch)) + Z.of_nat (length buf) < 2 ^ (UINT_BITS - 1) ->
  let count := Z.of_nat (length buf) in
  let total := Z.of_nat (length (data ch)) + count in
  let sent := coro_bus_try_send_v bp channel buf count w in
  let received := coro_bus_try_recv_v bp channel total sent.2 in
  sent.1 = count /\
  received.1 = (total, data ch ++ buf) /\
  buffer channel received.2 = Some [].
Proof.
  intros Hw H Hroom Hsmall Hint. cbv zeta.
  change (2 ^ (UINT_BITS - 1)) with 2147483648 in Hint.
  change (2 ^ UINT_BITS) with 4294967296 in Hsmall.
  pose proof H as (_ & _ & Hs)%resolve_Some.
  pose proof (slot_Some_lt _ _ _ Hs) as Hlt.
  assert (forall w1 ch1,
    resolve bp channel w1 = Some ch1 -> data ch1 = data ch ++ buf ->
    let total := Z.of_nat (length (data ch)) + Z.of_nat (length buf) in
    (coro_bus_try_recv_v bp channel total w1).1 = (total, data ch ++ buf) /\
    buffer channel (coro_bus_try_recv_v bp channel total w1).2 = Some [])
    as Hrecv.
  { intros w1 ch1 H1 Hd1. cbv zeta.
    pose proof H1 as (_ & _ & Hs1)%resolve_Some.
    destruct (decide (data ch1 = [])) as [Hempty|Hdata].
    - rewrite Hempty in Hd1. symmetry in Hd1.
      apply app_eq_nil in Hd1 as [-> ->]. cbn.
      rewrite try_recv_v_zero. cbn [fst snd]. split; [done|].
      unfold buffer. rewrite bus_set_err, Hs1. cbn. by rewrite Hempty.
    - assert (Z.of_nat (length (data ch1))
              = Z.of_nat (length (data ch)) + Z.of_nat (length buf)) as Hl1
        by (rewrite Hd1, length_app; lia).
      erewrite try_recv_v_ok;
        [|rewrite <- Hl1; destruct (data ch1); [done|cbn; lia]|done..].
      rewrite Hl1, to_unsigned_small by (unfold is_unsigned, UINT_BITS; lia).
      rewrite Z.min_id, to_int_small
        by (change (2 ^ (UINT_BITS - 1)) with 2147483648; lia).
      cbn [fst snd]. split.
      + rewrite take_ge by lia. by rewrite Hd1.
      + unfold buffer.
        rewrite bus_set_err, bus_wake, slot_upd by by eapply slot_Some_lt.
        rewrite decide_True by done. cbn. by rewrite drop_ge by lia. }
  destruct (decide (buf = [])) as [->|Hbuf].
  { cbn [length]. rewrite try_send_v_zero. cbn [fst snd]. split; [done|].
    apply (Hrecv _ ch); [by rewrite resolve_set_err|by rewrite app_nil_r]. }
  assert (0 < Z.of_nat (length buf)) as Hpos by (destruct buf; cbn; [done|lia]).
  pose proof (try_send_v_partial w bp channel ch buf
                (Z.of_nat (length buf)) Hw H) as Hsend.
  cbv zeta in Hsend. rewrite Hsend; clear Hsend.
  2: lia.
  2: unfold is_unsigned, UINT_BITS; lia.
  2: lia.
  2: change (2 ^ UINT_BITS) with 4294967296; lia.
  2: change (2 ^ (UINT_BITS - 1)) with 2147483648; lia.
  rewrite Z.min_l by lia. cbn [fst snd]. split; [done|].
  eapply Hrecv.
  - rewrite resolve_set_err. erewrite resolve_bus; [|apply bus_wake].
    by eapply resolve_upd.
  - cbn. by rewrite Nat2Z.id, firstn_all.
Qed.

Lemma vector_round_trip_witness :
  (coro_bus_try_recv_v BUS 0 2
     (coro_bus_try_send_v BUS 0 [4; 5] 2 two_channels).2).1
  = (2, [4; 5]).
Proof.
  assert (reachable two_channels) as Hw.
  { apply reachable_run_all; [apply reach_new|].
    repeat constructor; cbn; unfold is_size_t, SIZE_BITS; lia. }
  apply (vector_round_trip two_channels BUS 0 (mk_channel 2 [] [] []) [4; 5]
           Hw eq_refl).
  - cbn. lia.
  - cbn. unfold UINT_BITS. lia.
  - cbn. unfold UINT_BITS. lia.
Defined.

(** ** What a blocking call reports *)

Lemma completes_post {A L : Type} (resumed : L -> M (outcome A L))
    (post : A -> world -> Prop) p rc w' :
  completes resumed p rc w' ->
  (forall rc0 w0, p = (Returned rc0, w0) -> post rc0 w0) ->
  (forall locals w2 rc0 w0, resumed locals w2 = (Returned rc0, w0) ->
     post rc0 w0) ->
  post rc w'.
Proof.
  intros Hc. induction Hc as [rc w|locals w w2 rc w' _ IH]; intros Hp Hres.
  - by apply Hp.
  - apply IH; [|done]. intros rc0 w0 Heq. by eapply Hres.
Qed.

Lemma send_v_transfer_result p buf count free_space w :
  (send_v_transfer p buf count free_space w).1
  = to_int (Z.min count (to_unsigned free_space)).
Proof.
  unfold send_v_transfer. unfold_M.
  destruct (send_v_push _ _ _ _ _) as [? w1].
  by destruct (wakeup_queue_wakeup_n _ _ _ _) as [? w2].
Qed.

Lemma to_unsigned_nonneg x : 0 <= to_unsigned x.
Proof. unfold to_unsigned, UINT_BITS. apply Z.mod_pos_bound. lia. Qed.

Lemma send_segment_report this bp channel v w rc w' :
  coro_bus_send this bp channel v w = (Returned rc, w') ->
  rc = -1 /\ global_error w' = CORO_BUS_ERR_NO_CHANNEL \/
  rc = 0 /\ global_error w' = CORO_BUS_ERR_NONE.
Proof.
  destruct (resolve bp channel w) as [ch|] eqn:H.
  - destruct (is_full ch) eqn:Hf.
    + by erewrite send_suspend by done.
    + erewrite send_ok by done. intros [= <- <-]. by right.
  - rewrite send_no_channel by done. intros [= <- <-]. by left.
Qed.

Lemma recv_segment_report this bp channel w r w' :
  coro_bus_recv this bp channel w = (Returned r, w') ->
  r = (-1, None) /\ global_error w' = CORO_BUS_ERR_NO_CHANNEL \/
  (exists x, r = (0, Some x)) /\ global_error w' = CORO_BUS_ERR_NONE.
Proof.
  destruct (resolve bp channel w) as [ch|] eqn:H.
  - destruct (data ch) as [|front rest] eqn:Hd.
    + by erewrite recv_suspend by done.
    + erewrite recv_ok by done. intros [= <- <-]. right. eauto.
  - rewrite recv_no_channel by done. intros [= <- <-]. by left.
Qed.

Lemma broadcast_segment_report this bp v w rc w' :
  coro_bus_broadcast this bp v w = (Returned rc, w') ->
  rc = -1 /\ global_error w' = CORO_BUS_ERR_NO_CHANNEL \/
  rc = 0 /\ global_error w' = CORO_BUS_ERR_NONE.
Proof.
  destruct bp.
  { intros [= <- <-]. by left. }
  rewrite broadcast_eq. destruct (broadcast_scan _ _ _); [| |];
    intros [= <- <-]; [by left|by right].
Qed.

Lemma send_v_loop_segment_report this bp channel buf count w rc w' :
  0 <= count < 2 ^ (UINT_BITS - 1) ->
  coro_bus_send_v_loop this bp channel buf count w = (Returned rc, w') ->
  rc = -1 /\ global_error w' = CORO_BUS_ERR_NO_CHANNEL \/
  0 <= rc <= count /\ global_error w' = CORO_BUS_ERR_NONE.
Proof.
  intros Hc. unfold coro_bus_send_v_loop. unfold_M. rewrite channel_get_eq.
  destruct (resolve bp channel w) as [ch|] eqn:H.
  - destruct (Z.eqb_spec
                (to_size_t (size_limit ch - Z.of_nat (length (data ch)))) 0)
      as [Hf|Hf].
    + destruct (channel_gen_get _ _ _) as [? w1].
      by destruct (wakeup_queue_suspend_this_link _ _ _ _) as [? w2].
    + pose proof (send_v_transfer_result (Z.to_nat channel) buf count
                    (to_size_t (size_limit ch - Z.of_nat (length (data ch))))
                    w) as Hr.
      pose proof (send_v_transfer_error (Z.to_nat channel) buf count
                    (to_size_t (size_limit ch - Z.of_nat (length (data ch))))
                    w) as He.
      destruct (send_v_transfer _ _ _ _ _) as [rc1 w1]. cbn in Hr, He.
      intros [= <- <-]. right. split; [|done]. subst rc1.
      pose proof (to_unsigned_nonneg
                    (to_size_t (size_limit ch - Z.of_nat (length (data ch))))).
      rewrite to_int_small; lia.
  - intros [= <- <-]. by left.
Qed.

Lemma recv_v_loop_segment_report this bp channel capacity w r w' :
  0 <= capacity < 2 ^ (UINT_BITS - 1) ->
  coro_bus_recv_v_loop this bp channel capacity w = (Returned r, w') ->
  r = (-1, []) /\ global_error w' = CORO_BUS_ERR_NO_CHANNEL \/
  (0 <= r.1 <= capacity /\ r.1 = Z.of_nat (length r.2)) /\
  global_error w' = CORO_BUS_ERR_NONE.
Proof.
  intros Hc. destruct (resolve bp channel w) as [ch|] eqn:H.
  - destruct (decide (data ch = [])) as [Hd|Hd].
    + by erewrite recv_v_loop_suspend by done.
    + erewrite recv_v_loop_ok by done. intros [= <- <-]. right.
      split; [|done]. cbn [fst snd].
      pose proof (to_unsigned_le (Z.of_nat (length (data ch)))) as Hu.
      rewrite to_int_small by lia. rewrite length_take. lia.
  - rewrite recv_v_loop_no_channel by done. intros [= <- <-]. by left.
Qed.

(** X14. What a blocking call reports when it returns, after any number of
    suspensions and whatever the other coroutines did in between: it
    never leaves WOULD_BLOCK behind a return. [coro_bus_send] and
    [coro_bus_broadcast] return -1 with NO_CHANNEL or 0 with NONE;
    [coro_bus_recv] returns -1 with NO_CHANNEL or 0 with NONE and a
    message stored; [coro_bus_send_v] and [coro_bus_recv_v], for a count
    that fits the [int] result, return -1 with NO_CHANNEL or a number
    between 0 and the count with NONE, which for [coro_bus_recv_v] is
    the number of messages stored. *)
Theorem blocking_call_reports this bp channel v buf count capacity :
  (forall w rc w',
     returns (coro_bus_send this bp channel v)
       (coro_bus_send_resumed this bp channel v) w rc w' ->
     rc = -1 /\ global_error w' = CORO_BUS_ERR_NO_CHANNEL \/
     rc = 0 /\ global_error w' = CORO_BUS_ERR_NONE) /\
  (forall w r w',
     returns (coro_bus_recv this bp channel)
       (coro_bus_recv_resumed this bp channel) w r w' ->
     r = (-1, None) /\ global_error w' = CORO_BUS_ERR_NO_CHANNEL \/
     (exists x, r = (0, Some x)) /\ global_error w' = CORO_BUS_ERR_NONE) /\
  (forall w rc w',
     returns (coro_bus_broadcast this bp v)
       (coro_bus_broadcast_resumed this bp v) w rc w' ->
     rc = -1 /\ global_error w' = CORO_BUS_ERR_NO_CHANNEL \/
     rc = 0 /\ global_error w' = CORO_BUS_ERR_NONE) /\
  (0 <= count < 2 ^ (UINT_BITS - 1) ->
   forall w rc w',
     returns (coro_bus_send_v this bp channel buf count)
       (coro_bus_send_v_resumed this bp channel buf count) w rc w' ->
     rc = -1 /\ global_error w' = CORO_BUS_ERR_NO_CHANNEL \/
     0 <= rc <= count /\ global_error w' = CORO_BUS_ERR_NONE) /\
  (0 <= capacity < 2 ^ (UINT_BITS - 1) ->
   forall w r w',
     returns (coro_bus_recv_v this bp channel capacity)
       (coro_bus_recv_v_resumed this bp channel capacity) w r w' ->
     r = (-1, []) /\ global_error w' = CORO_BUS_ERR_NO_CHANNEL \/
     (0 <= r.1 <= capacity /\ r.1 = Z.of_nat (length r.2)) /\
     global_error w' = CORO_BUS_ERR_NONE).
Proof.
  split_and!.
  - intros w rc w' Hret.
    apply (completes_post _
             (fun rc w' =>
                rc = -1 /\ global_error w' = CORO_BUS_ERR_NO_CHANNEL \/
                rc = 0 /\ global_error w' = CORO_BUS_ERR_NONE) _ _ _ Hret).
    + intros rc0 w0. apply send_segment_report.
    + intros gen w2 rc0 w0. rewrite send_resumed_eq. cbv zeta.
      destruct (same_channel _ _ _ _); [apply send_segment_report|].
      intros [= <- <-]. by left.
  - intros w r w' Hret.
    apply (completes_post _
             (fun r w' =>
                r = (-1, None) /\ global_error w' = CORO_BUS_ERR_NO_CHANNEL \/
                (exists x, r = (0, Some x)) /\
                global_error w' = CORO_BUS_ERR_NONE) _ _ _ Hret).
    + intros r0 w0. apply recv_segment_report.
    + intros gen w2 r0 w0. rewrite recv_resumed_eq. cbv zeta.
      destruct (same_channel _ _ _ _); [apply recv_segment_report|].
      intros [= <- <-]. by left.
  - intros w rc w' Hret.
    apply (completes_post _
             (fun rc w' =>
                rc = -1 /\ global_error w' = CORO_BUS_ERR_NO_CHANNEL \/
                rc = 0 /\ global_error w' = CORO_BUS_ERR_NONE) _ _ _ Hret).
    + intros rc0 w0. apply broadcast_segment_report.
    + intros blk w2 rc0 w0. rewrite broadcast_resumed_eq.
      apply broadcast_segment_report.
  - intros Hc w rc w' Hret.
    apply (completes_post _
             (fun rc w' =>
                rc = -1 /\ global_error w' = CORO_BUS_ERR_NO_CHANNEL \/
                0 <= rc <= count /\ global_error w' = CORO_BUS_ERR_NONE)
             _ _ _ Hret).
    + intros rc0 w0. unfold coro_bus_send_v.
      destruct (Z.eqb_spec count 0) as [->|].
      * intros [= <- <-]. right. split; [lia|done].
      * by apply send_v_loop_segment_report.
    + intros gen w2 rc0 w0. rewrite send_v_resumed_eq. cbv zeta.
      destruct (same_channel _ _ _ _);
        [by apply send_v_loop_segment_report|].
      intros [= <- <-]. by left.
  - intros Hc w r w' Hret.
    apply (completes_post _
             (fun r w' =>
                r = (-1, []) /\ global_error w' = CORO_BUS_ERR_NO_CHANNEL \/
                (0 <= r.1 <= capacity /\ r.1 = Z.of_nat (length r.2)) /\
                global_error w' = CORO_BUS_ERR_NONE) _ _ _ Hret).
    + intros r0 w0. unfold coro_bus_recv_v.
      destruct (Z.eqb_spec capacity 0) as [->|].
      * intros [= <- <-]. right. cbn. split; [lia|done].
      * by apply recv_v_loop_segment_report.
    + intros gen w2 r0 w0. rewrite recv_v_resumed_eq. cbv zeta.
      destruct (same_channel _ _ _ _);
        [by apply recv_v_loop_segment_report|].
      intros [= <- <-]. by left.
Qed.

Lemma blocking_call_reports_witness :
  (0 = -1 /\
     global_error
       (coro_bus_send_resumed 1%nat BUS 0 8 1
          (run_all [EvSend 1%nat BUS 0 8; EvTryRecv BUS 0]
             one_full_channel)).2
     = CORO_BUS_ERR_NO_CHANNEL \/
   0 = 0 /\
     global_error
       (coro_bus_send_resumed 1%nat BUS 0 8 1
          (run_all [EvSend 1%nat BUS 0 8; EvTryRecv BUS 0]
             one_full_channel)).2
     = CORO_BUS_ERR_NONE) /\
  (-1 = -1 /\
     global_error
       (coro_bus_send_resumed 1%nat BUS 0 8 1 closed_and_reopened).2
     = CORO_BUS_ERR_NO_CHANNEL \/
   -1 = 0 /\
     global_error
       (coro_bus_send_resumed 1%nat BUS 0 8 1 closed_and_reopened).2
     = CORO_BUS_ERR_NONE) /\
  ((2, [4; 5]) = (-1, []) /\
     global_error
       (coro_bus_recv_v_resumed 3%nat BUS 0 4 1
          (run_all [EvRecvV 3%nat BUS 0 4; EvTrySendV BUS 0 [4; 5] 2]
             two_channels)).2
     = CORO_BUS_ERR_NO_CHANNEL \/
   (0 <= (2, [4; 5]).1 <= 4 /\
    (2, [4; 5]).1 = Z.of_nat (length (2, [4; 5]).2)) /\
     global_error
       (coro_bus_recv_v_resumed 3%nat BUS 0 4 1
          (run_all [EvRecvV 3%nat BUS 0 4; EvTrySendV BUS 0 [4; 5] 2]
             two_channels)).2
     = CORO_BUS_ERR_NONE).
Proof.
  split_and!.
  - apply (proj1 (blocking_call_reports 1%nat BUS 0 8 [] 0 0)
             one_full_channel 0).
    unfold returns.
    change (coro_bus_send 1%nat BUS 0 8 one_full_channel)
      with (@Suspended Z Z 1,
            run_all [EvSend 1%nat BUS 0 8] one_full_channel).
    eapply (completes_resume _ 1 _
              (run_all [EvSend 1%nat BUS 0 8; EvTryRecv BUS 0]
                 one_full_channel)).
    exact (completes_return _ 0
             (coro_bus_send_resumed 1%nat BUS 0 8 1
                (run_all [EvSend 1%nat BUS 0 8; EvTryRecv BUS 0]
                   one_full_channel)).2).
  - apply (proj1 (blocking_call_reports 1%nat BUS 0 8 [] 0 0)
             one_full_channel (-1)).
    unfold returns.
    change (coro_bus_send 1%nat BUS 0 8 one_full_channel)
      with (@Suspended Z Z 1,
            run_all [EvSend 1%nat BUS 0 8] one_full_channel).
    eapply (completes_resume _ 1 _ closed_and_reopened).
    exact (completes_return _ (-1)
             (coro_bus_send_resumed 1%nat BUS 0 8 1 closed_and_reopened).2).
  - apply (proj2 (proj2 (proj2 (proj2
             (blocking_call_reports 3%nat BUS 0 0 [] 0 4))))
             ltac:(unfold UINT_BITS; lia) two_channels (2, [4; 5])).
    unfold returns.
    change (coro_bus_recv_v 3%nat BUS 0 4 two_channels)
      with (@Suspended (Z * list Z) Z 1,
            run_all [EvRecvV 3%nat BUS 0 4] two_channels).
    eapply (completes_resume _ 1 _
              (run_all [EvRecvV 3%nat BUS 0 4; EvTrySendV BUS 0 [4; 5] 2]
                 two_channels)).
    exact (completes_return _ (2, [4; 5])
             (coro_bus_recv_v_resumed 3%nat BUS 0 4 1
                (run_all [EvRecvV 3%nat BUS 0 4; EvTrySendV BUS 0 [4; 5] 2]
                   two_channels)).2).
Defined.

(** ** A blocked call and the operation that unblocks it *)

Lemma same_channel_kept bp channel ch w w' :
  resolve bp channel w' = Some ch ->
  channel_gens (bus w') = channel_gens (bus w) ->
  length (channels (bus w')) = length (channels (bus w)) ->
  same_channel bp channel (gen_of bp channel w) w' = true.
Proof.
  intros H Hg Hl. apply same_channel_true. split; [by eauto|].
  by apply gen_of_bus.
Qed.

(** X15. A receiver blocked on an empty channel gets the next message sent.
    [coro_bus_recv] on a live empty channel of capacity above 0 suspends
    the caller at the tail of the receive queue; a [coro_bus_try_send]
    of [v] that follows returns 0 and wakes the head of that queue (the
    caller itself when nobody waited before it); the resumed call then
    returns 0 with the message [v] and NONE, and leaves the buffer empty
    and the caller in no queue of the channel it waited in. *)
Theorem blocked_recv_gets_next_send w this bp channel ch v :
  resolve bp channel w = Some ch -> data ch = [] -> 0 < size_limit ch ->
  this ∉ send_queue ch ->
  let gen := gen_of bp channel w in
  let parked := coro_bus_recv this bp channel w in
  let sent := coro_bus_try_send bp channel v parked.2 in
  let resumed := coro_bus_recv_resumed this bp channel gen sent.2 in
  parked.1 = Suspended gen /\
  sent.1 = 0 /\
  woken sent.2 = woken w ++ take 1 (recv_queue ch ++ [this]) /\
  resumed.1 = Returned (0, Some v) /\
  global_error resumed.2 = CORO_BUS_ERR_NONE /\
  exists ch',
    slot (Z.to_nat channel) (bus resumed.2) = Some ch' /\
    data ch' = [] /\ (this ∉ recv_queue ch') /\ (this ∉ send_queue ch').
Proof.
  intros H Hd Hcap Hnot. cbv zeta.
  pose proof H as (_ & _ & Hs)%resolve_Some.
  pose proof (slot_Some_lt _ _ _ Hs) as Hlt.
  rewrite (recv_suspend _ _ _ _ _ H Hd). cbn [fst snd].
  set (w1 := upd (Z.to_nat channel) (linked RecvQ this ch)
               (set_err CORO_BUS_ERR_WOULD_BLOCK w)).
  assert (resolve bp channel w1 = Some (linked RecvQ this ch)) as H1.
  { subst w1. eapply resolve_upd. by rewrite resolve_set_err. }
  assert (is_full (linked RecvQ this ch) = false) as Hf.
  { unfold is_full. change (data (linked RecvQ this ch)) with (data ch).
    change (size_limit (linked RecvQ this ch)) with (size_limit ch).
    rewrite Hd. cbn [length]. rewrite Z.geb_leb. apply Z.leb_gt. lia. }
  rewrite (try_send_ok _ _ _ _ _ H1 Hf). cbn [fst snd].
  set (ch2 := sent v (linked RecvQ this ch)).
  set (w2 := set_err CORO_BUS_ERR_NONE
               (wake (take 1 (recv_queue (linked RecvQ this ch)))
                  (upd (Z.to_nat channel) ch2 w1))).
  assert (slot (Z.to_nat channel) (bus w2) = Some ch2) as Hs2.
  { subst w2 w1. rewrite bus_set_err, bus_wake, slot_upd.
    - by rewrite decide_True.
    - by rewrite length_channels_upd. }
  rewrite recv_resumed_eq. cbv zeta.
  rewrite (unlink_world_Some _ _ _ _ _ Hs2).
  set (ch3 := unlinked RecvQ this ch2).
  set (w3 := upd (Z.to_nat channel) ch3 w2).
  assert (resolve bp channel w3 = Some ch3) as H3.
  { pose proof H1 as (Hbp & Hc & _)%resolve_Some. apply resolve_Some.
    split_and!; [done..|]. subst w3. rewrite slot_upd.
    - by rewrite decide_True.
    - eapply slot_Some_lt. exact Hs2. }
  rewrite (same_channel_kept _ _ ch3); [|done|done|].
  2: { subst w3 w2 w1. unfold upd, set_err, wake; cbn.
       by rewrite !length_insert. }
  assert (data ch3 = [v]) as Hd3.
  { subst ch3 ch2. cbn. by rewrite Hd. }
  rewrite (recv_ok _ _ _ _ _ v [] H3 Hd3). cbn [fst snd].
  split_and!; try done.
  exists (received ch3). split_and!.
  - rewrite bus_set_err, bus_wake, slot_upd.
    + by rewrite decide_True.
    + eapply slot_Some_lt. by apply resolve_Some in H3 as (_ & _ & ?).
  - unfold received. cbn [data]. by rewrite Hd3.
  - subst ch3 ch2. cbn. intros Hin.
    apply list_elem_of_filter in Hin as [Hne _]. done.
  - subst ch3 ch2. cbn. intros Hin. apply Hnot.
    by eapply (subseteq_drop 1).
Qed.

Lemma blocked_recv_gets_next_send_witness :
  (coro_bus_recv_resumed 3%nat BUS 0 1
     (coro_bus_try_send BUS 0 8
        (coro_bus_recv 3%nat BUS 0 three_channels).2).2).1
  = Returned (0, Some 8).
Proof.
  pose proof (blocked_recv_gets_next_send three_channels 3%nat BUS 0
                (mk_channel 2 [] [] []) 8 eq_refl eq_refl) as H.
  cbv zeta in H. destruct H as (_ & _ & _ & H & _).
  - cbn. lia.
  - cbn. apply not_elem_of_nil.
  - exact H.
Defined.

(** X16. A sender blocked on a full channel sends as soon as a message is
    taken. [coro_bus_send] of [v] on a live channel whose buffer
    [x :: rest] fills the capacity suspends the caller at the tail of
    the send queue; a [coro_bus_try_recv] that follows returns [x] and
    wakes the head of that queue; the resumed call then returns 0 with
    NONE, the buffer is [rest] followed by [v], full again, and the
    caller is in no queue of the channel. *)
Theorem blocked_send_goes_after_recv w this bp channel ch v x rest :
  resolve bp channel w = Some ch -> data ch = x :: rest ->
  Z.of_nat (length (data ch)) = size_limit ch ->
  this ∉ recv_queue ch ->
  let gen := gen_of bp channel w in
  let parked := coro_bus_send this bp channel v w in
  let received := coro_bus_try_recv bp channel parked.2 in
  let resumed := coro_bus_send_resumed this bp channel v gen received.2 in
  parked.1 = Suspended gen /\
  received.1 = (0, Some x) /\
  woken received.2 = woken w ++ take 1 (send_queue ch ++ [this]) /\
  resumed.1 = Returned 0 /\
  global_error resumed.2 = CORO_BUS_ERR_NONE /\
  exists ch',
    slot (Z.to_nat channel) (bus resumed.2) = Some ch' /\
    data ch' = rest ++ [v] /\
    Z.of_nat (length (data ch')) = size_limit ch' /\
    (this ∉ send_queue ch') /\ (this ∉ recv_queue ch').
Proof.
  intros H Hd Hlen Hnot. cbv zeta.
  pose proof H as (_ & _ & Hs)%resolve_Some.
  pose proof (slot_Some_lt _ _ _ Hs) as Hlt.
  assert (is_full ch = true) as Hfull by (unfold is_full; lia).
  rewrite (send_suspend _ _ _ _ _ _ H Hfull). cbn [fst snd].
  set (w1 := upd (Z.to_nat channel) (linked SendQ this ch)
               (set_err CORO_BUS_ERR_WOULD_BLOCK w)).
  assert (resolve bp channel w1 = Some (linked SendQ this ch)) as H1.
  { subst w1. eapply resolve_upd. by rewrite resolve_set_err. }
  assert (data (linked SendQ this ch) = x :: rest) as Hd1 by done.
  rewrite (try_recv_ok _ _ _ _ _ _ H1 Hd1). cbn [fst snd].
  set (ch2 := received (linked SendQ this ch)).
  set (w2 := set_err CORO_BUS_ERR_NONE
               (wake (take 1 (send_queue (linked SendQ this ch)))
                  (upd (Z.to_nat channel) ch2 w1))).
  assert (slot (Z.to_nat channel) (bus w2) = Some ch2) as Hs2.
  { subst w2 w1. rewrite bus_set_err, bus_wake, slot_upd.
    - by rewrite decide_True.
    - by rewrite length_channels_upd. }
  rewrite send_resumed_eq. cbv zeta.
  rewrite (unlink_world_Some _ _ _ _ _ Hs2).
  set (ch3 := unlinked SendQ this ch2).
  set (w3 := upd (Z.to_nat channel) ch3 w2).
  assert (resolve bp channel w3 = Some ch3) as H3.
  { pose proof H1 as (Hbp & Hc & _)%resolve_Some. apply resolve_Some.
    split_and!; [done..|]. subst w3. rewrite slot_upd.
    - by rewrite decide_True.
    - eapply slot_Some_lt. exact Hs2. }
  rewrite (same_channel_kept _ _ ch3); [|done|done|].
  2: { subst w3 w2 w1. unfold upd, set_err, wake; cbn.
       by rewrite !length_insert. }
  assert (data ch3 = rest) as Hd3.
  { subst ch3 ch2. cbn. by rewrite Hd. }
  assert (size_limit ch3 = size_limit ch) as Hsl3 by done.
  assert (is_full ch3 = false) as Hf3.
  { unfold is_full. rewrite Hd3, Hsl3, <- Hlen, Hd. cbn [length].
    rewrite Z.geb_leb. apply Z.leb_gt. lia. }
  rewrite (send_ok _ _ _ _ _ _ H3 Hf3). cbn [fst snd].
  split_and!; try done.
  exists (sent v ch3). split_and!.
  - rewrite bus_set_err, bus_wake, slot_upd.
    + by rewrite decide_True.
    + eapply slot_Some_lt. by apply resolve_Some in H3 as (_ & _ & ?).
  - unfold sent. cbn [data]. by rewrite Hd3.
  - unfold sent. cbn [data size_limit]. rewrite Hd3, Hsl3, <- Hlen, Hd.
    rewrite length_app. cbn [length]. lia.
  - subst ch3 ch2. cbn. intros Hin.
    apply list_elem_of_filter in Hin as [Hne _]. done.
  - subst ch3 ch2. cbn. intros Hin. apply Hnot.
    by eapply (subseteq_drop 1).
Qed.

Lemma blocked_send_goes_after_recv_witness :
  (coro_bus_send_resumed 1%nat BUS 0 8 1
     (coro_bus_try_recv BUS 0
        (coro_bus_send 1%nat BUS 0 8 one_full_channel).2).2).1
  = Returned 0.
Proof.
  pose proof (blocked_send_goes_after_recv one_full_channel 1%nat BUS 0
                (mk_channel 1 [] [] [7]) 8 7 [] eq_refl eq_refl eq_refl)
    as H.
  cbv zeta in H. destruct H as (_ & _ & _ & H & _).
  - cbn. apply not_elem_of_nil.
  - exact H.
Defined.

(** ** Deleting the bus *)

Lemma delete_loop_None chs : forall k,
  coro_bus_delete_loop chs k = None <->
  forall j ch, chs !! j = Some (Some ch) ->
    send_queue ch = [] /\ recv_queue ch = [].
Proof.
  induction chs as [|[ch|] chs IH]; intros k; cbn.
  - split; [by intros _ j ch|done].
  - destruct (send_queue ch) as [|c sq] eqn:Hsq.
    + destruct (recv_queue ch) as [|c rq] eqn:Hrq.
      * rewrite IH. split.
        -- intros Hall [|j] ch' Hj; cbn in Hj; [by simplify_eq|by eapply Hall].
        -- intros Hall j ch' Hj. by apply (Hall (S j)).
      * split; [done|]. intros Hall.
        destruct (Hall 0%nat ch eq_refl) as [_ Hr]. congruence.
    + split; [done|]. intros Hall.
      destruct (Hall 0%nat ch eq_refl) as [Hs _]. congruence.
  - rewrite IH. split.
    + intros Hall [|j] ch' Hj; cbn in Hj; [done|by eapply Hall].
    + intros Hall j ch' Hj. by apply (Hall (S j)).
Qed.

Lemma slot_close i j w :
  slot j (bus (coro_bus_channel_close BUS (Z.of_nat i) w).2)
  = if decide (j = i) then None else slot j (bus w).
Proof.
  destruct (resolve BUS (Z.of_nat i) w) as [ch|] eqn:H.
  - rewrite (channel_close_live _ _ _ _ H). cbn [snd].
    by rewrite bus_wake, slot_closed, Nat2Z.id.
  - rewrite (channel_close_none _ _ _ H). cbn [snd].
    case_decide as Hji; [|done]. subst j.
    apply resolve_None in H as [?|[?|[Hge|Hs]]]; [done|lia| |].
    + unfold slot. rewrite lookup_ge_None_2; [done|].
      unfold channel_count in Hge. lia.
    + by rewrite Nat2Z.id in Hs.
Qed.

Lemma slot_close_all l : forall j w,
  slot j (bus (run_all ((fun i => EvChannelClose BUS (Z.of_nat i)) <$> l) w))
  = if decide (j ∈ l) then None else slot j (bus w).
Proof.
  induction l as [|i l IH]; intros j w.
  - cbn. rewrite decide_False; [done|]. apply not_elem_of_nil.
  - cbn [fmap list_fmap run_all]. rewrite IH.
    replace (bus (run (EvChannelClose BUS (Z.of_nat i)) w).2)
      with (bus (coro_bus_channel_close BUS (Z.of_nat i) w).2)
      by by rewrite run_bus.
    rewrite slot_close.
    destruct (decide (j ∈ l)) as [Hin|Hout].
    + rewrite decide_True; [done|]. by apply elem_of_cons; right.
    + destruct (decide (j = i)) as [->|Hne].
      * rewrite decide_True; [done|]. by apply elem_of_cons; left.
      * rewrite decide_False; [done|].
        intros [?|?]%elem_of_cons; done.
Qed.

(** X17. The assertions of [coro_bus_delete] all hold exactly when the
    bus is NULL or no live channel has a coroutine in its send queue or
    in its receive queue; the channels may still hold messages. After
    [coro_bus_channel_close] was called for every index of the table,
    they always hold. *)
Theorem delete_asserts_no_waiters w :
  (forall bp,
     coro_bus_delete bp w = None <->
     bp = NULL \/
     forall i ch, slot i (bus w) = Some ch ->
       send_queue ch = [] /\ recv_queue ch = []) /\
  coro_bus_delete BUS
    (run_all ((fun i => EvChannelClose BUS (Z.of_nat i))
                <$> seq 0 (length (channels (bus w)))) w)
  = None.
Proof.
  split.
  - intros [|]; cbn.
    + split; [by left|done].
    + rewrite delete_loop_None. split.
      * intros Hall. right. intros i ch Hs. apply (Hall i).
        by apply slot_Some_lookup.
      * intros [?|Hall] j ch Hj; [done|]. apply (Hall j).
        by apply slot_Some_lookup.
  - cbn. apply delete_loop_None. intros j ch Hj.
    apply slot_Some_lookup in Hj. rewrite slot_close_all in Hj.
    case_decide as Hin; [done|].
    pose proof (slot_Some_lt _ _ _ Hj) as Hlt.
    exfalso. apply Hin. apply elem_of_seq. lia.
Qed.

(** ** A channel lives until it is closed *)

Lemma kept_at_eq i b b' : b' = b -> kept_at i b b'.
Proof. intros -> ch Hs. by exists ch. Qed.

Lemma kept_at_trans i b1 b2 b3 :
  kept_at i b1 b2 -> kept_at i b2 b3 -> kept_at i b1 b3.
Proof.
  intros H12 H23 ch Hs. destruct (H12 ch Hs) as (ch2 & Hs2 & Hl2 & Hg2).
  destruct (H23 ch2 Hs2) as (ch3 & Hs3 & Hl3 & Hg3).
  exists ch3. split_and!; [done|congruence|congruence].
Qed.

Lemma kept_at_upd i j ch0 ch1 w :
  slot j (bus w) = Some ch0 -> size_limit ch1 = size_limit ch0 ->
  kept_at i (bus w) (bus (upd j ch1 w)).
Proof.
  intros Hj Hl ch Hs. rewrite slot_upd by by eapply slot_Some_lt.
  case_decide as Hij.
  - subst. exists ch1. split_and!; [done|congruence|done].
  - by exists ch.
Qed.

Lemma kept_at_broadcasted i v w :
  kept_at i (bus w) (bus (broadcasted v w)).
Proof.
  intros ch Hs. rewrite slot_broadcasted, Hs. by exists (sent v ch).
Qed.

Lemma kept_at_grown i size_limit w :
  bus_ok (bus w) -> kept_at i (bus w) (bus (grown size_limit w)).
Proof.
  intros (Hlen & _) ch Hs. pose proof (slot_Some_lt _ _ _ Hs) as Hlt.
  exists ch. rewrite slot_grown. rewrite decide_False by lia.
  split_and!; [done..|]. unfold grown; cbn. rewrite lookup_app_l; [done|lia].
Qed.

Lemma kept_at_closed i j w :
  i <> j -> kept_at i (bus w) (bus (closed j w)).
Proof.
  intros Hne ch Hs. exists ch. rewrite slot_closed. rewrite decide_False by done.
  split_and!; [done..|]. unfold closed; cbn.
  by rewrite list_lookup_alter_ne.
Qed.

Lemma kept_at_unlink_world i j q this w :
  kept_at i (bus w) (bus (unlink_world j q this w)).
Proof.
  destruct (slot j (bus w)) as [ch|] eqn:Hs.
  - rewrite (unlink_world_Some _ _ _ _ _ Hs).
    eapply kept_at_upd; [done|by destruct q].
  - rewrite unlink_world_None by done. by apply kept_at_eq.
Qed.

Ltac kept_tac H :=
  norm_bus;
  first [ by apply kept_at_eq
        | apply resolve_Some in H as (_ & _ & H);
          eapply kept_at_upd; [exact H|done] ].

Lemma try_send_kept i bp channel v w :
  kept_at i (bus w) (bus (coro_bus_try_send bp channel v w).2).
Proof.
  destruct (resolve bp channel w) as [ch|] eqn:H.
  - destruct (is_full ch) eqn:Hf.
    + erewrite try_send_full by done. kept_tac H.
    + erewrite try_send_ok by done. kept_tac H.
  - rewrite try_send_no_channel by done. kept_tac H.
Qed.

Lemma try_recv_kept i bp channel w :
  kept_at i (bus w) (bus (coro_bus_try_recv bp channel w).2).
Proof.
  destruct (resolve bp channel w) as [ch|] eqn:H.
  - destruct (data ch) as [|front rest] eqn:Hd.
    + erewrite try_recv_empty by done. kept_tac H.
    + erewrite try_recv_ok by done. kept_tac H.
  - rewrite try_recv_no_channel by done. kept_tac H.
Qed.

Lemma send_kept i this bp channel v w :
  kept_at i (bus w) (bus (coro_bus_send this bp channel v w).2).
Proof.
  destruct (resolve bp channel w) as [ch|] eqn:H.
  - destruct (is_full ch) eqn:Hf.
    + erewrite send_suspend by done. kept_tac H.
    + erewrite send_ok by done. kept_tac H.
  - rewrite send_no_channel by done. kept_tac H.
Qed.

Lemma recv_kept i this bp channel w :
  kept_at i (bus w) (bus (coro_bus_recv this bp channel w).2).
Proof.
  destruct (resolve bp channel w) as [ch|] eqn:H.
  - destruct (data ch) as [|front rest] eqn:Hd.
    + erewrite recv_suspend by done. kept_tac H.
    + erewrite recv_ok by done. kept_tac H.
  - rewrite recv_no_channel by done. kept_tac H.
Qed.

Lemma try_send_v_kept i bp channel buf count w :
  count <= Z.of_nat (length buf) ->
  kept_at i (bus w) (bus (coro_bus_try_send_v bp channel buf count w).2).
Proof.
  intros Hb. destruct (decide (count = 0)) as [->|Hc].
  { rewrite try_send_v_zero. by apply kept_at_eq. }
  destruct (resolve bp channel w) as [ch|] eqn:H.
  - destruct (decide
      (to_size_t (size_limit ch - Z.of_nat (length (data ch))) = 0)).
    + erewrite try_send_v_full by done. kept_tac H.
    + erewrite try_send_v_ok by done. kept_tac H.
  - rewrite try_send_v_no_channel by done. kept_tac H.
Qed.

Lemma try_recv_v_kept i bp channel capacity w :
  kept_at i (bus w) (bus (coro_bus_try_recv_v bp channel capacity w).2).
Proof.
  destruct (decide (capacity = 0)) as [->|Hc].
  { rewrite try_recv_v_zero. by apply kept_at_eq. }
  destruct (resolve bp channel w) as [ch|] eqn:H.
  - destruct (decide (data ch = [])).
    + erewrite try_recv_v_empty by done. kept_tac H.
    + erewrite try_recv_v_ok by done. kept_tac H.
  - rewrite try_recv_v_no_channel by done. kept_tac H.
Qed.

Lemma send_v_loop_kept i this bp channel buf count w :
  count <= Z.of_nat (length buf) ->
  kept_at i (bus w)
    (bus (coro_bus_send_v_loop this bp channel buf count w).2).
Proof.
  intros Hb. destruct (resolve bp channel w) as [ch|] eqn:H.
  - destruct (decide
      (to_size_t (size_limit ch - Z.of_nat (length (data ch))) = 0)).
    + erewrite send_v_loop_suspend by done. kept_tac H.
    + erewrite send_v_loop_ok by done. kept_tac H.
  - rewrite send_v_loop_no_channel by done. kept_tac H.
Qed.

Lemma recv_v_loop_kept i this bp channel capacity w :
  kept_at i (bus w)
    (bus (coro_bus_recv_v_loop this bp channel capacity w).2).
Proof.
  destruct (resolve bp channel w) as [ch|] eqn:H.
  - destruct (decide (data ch = [])).
    + erewrite recv_v_loop_suspend by done. kept_tac H.
    + erewrite recv_v_loop_ok by done. kept_tac H.
  - rewrite recv_v_loop_no_channel by done. kept_tac H.
Qed.

Lemma send_v_kept i this bp channel buf count w :
  count <= Z.of_nat (length buf) ->
  kept_at i (bus w) (bus (coro_bus_send_v this bp channel buf count w).2).
Proof.
  intros Hb. unfold coro_bus_send_v. destruct (Z.eqb_spec count 0).
  - by apply kept_at_eq.
  - by apply send_v_loop_kept.
Qed.

Lemma recv_v_kept i this bp channel capacity w :
  kept_at i (bus w) (bus (coro_bus_recv_v this bp channel capacity w).2).
Proof.
  unfold coro_bus_recv_v. destruct (Z.eqb_spec capacity 0).
  - by apply kept_at_eq.
  - by apply recv_v_loop_kept.
Qed.

Lemma try_broadcast_kept i bp v w :
  kept_at i (bus w) (bus (coro_bus_try_broadcast bp v w).2).
Proof.
  destruct bp; [by apply kept_at_eq|]. rewrite try_broadcast_eq.
  destruct (broadcast_scan _ _ _); norm_bus;
    [by apply kept_at_eq..|apply kept_at_broadcasted].
Qed.

Lemma broadcast_kept i this bp v w :
  kept_at i (bus w) (bus (coro_bus_broadcast this bp v w).2).
Proof.
  destruct bp; [by apply kept_at_eq|]. rewrite broadcast_eq.
  destruct (broadcast_scan _ _ _) as [|blk|]; norm_bus.
  - by apply kept_at_eq.
  - destruct (slot blk (bus w)) as [ch|] eqn:Hs.
    + by eapply kept_at_upd.
    + by apply kept_at_eq.
  - apply kept_at_broadcasted.
Qed.

Ltac resumed_kept lem :=
  cbv zeta;
  match goal with
  | |- context [unlink_world ?j ?q ?t ?w] =>
      apply (kept_at_trans _ _ (bus (unlink_world j q t w)));
      [apply kept_at_unlink_world|]
  end;
  destruct (same_channel _ _ _ _); [by apply lem | by apply kept_at_eq].

Lemma run_kept h e w :
  bus_ok (bus w) -> event_ok e -> ~ closes h e -> 0 <= h ->
  kept_at (Z.to_nat h) (bus w) (bus (run e w).2).
Proof.
  intros Hok He Hc Hh. rewrite run_bus. destruct e; cbn in He, Hc.
  - by apply kept_at_eq.
  - destruct bus0; [by apply kept_at_eq|].
    destruct (first_null (channels (bus w)) 0) as [i|] eqn:Hn.
    + rewrite (channel_open_reuse _ _ _ Hn). norm_bus.
      apply first_null_Some in Hn as (_ & Hi & _).
      rewrite Nat.sub_0_r in Hi. intros ch Hs. exists ch.
      rewrite slot_upd by by eapply lookup_lt_Some.
      rewrite decide_False; [done|]. intros Heq. rewrite Heq in Hs.
      unfold slot in Hs. by rewrite Hi in Hs.
    + rewrite (channel_open_grow _ _ Hn). norm_bus.
      by apply kept_at_grown.
  - destruct (resolve bus0 channel w) as [ch|] eqn:H.
    + rewrite (channel_close_live _ _ _ _ H). norm_bus.
      apply resolve_Some in H as (_ & Hge & _).
      apply kept_at_closed. lia.
    + rewrite (channel_close_none _ _ _ H). by apply kept_at_eq.
  - apply try_send_kept.
  - apply try_recv_kept.
  - apply try_broadcast_kept.
  - destruct He. by apply try_send_v_kept.
  - apply try_recv_v_kept.
  - apply send_kept.
  - rewrite send_resumed_eq. resumed_kept send_kept.
  - apply recv_kept.
  - rewrite recv_resumed_eq. resumed_kept recv_kept.
  - apply broadcast_kept.
  - rewrite broadcast_resumed_eq.
    eapply kept_at_trans; [apply kept_at_unlink_world|apply broadcast_kept].
  - destruct He. by apply send_v_kept.
  - destruct He as (? & ? & ?). rewrite send_v_resumed_eq.
    resumed_kept send_v_loop_kept.
  - apply recv_v_kept.
  - rewrite recv_v_resumed_eq. resumed_kept recv_v_loop_kept.
Qed.

(** X18. A channel lives, with the capacity it was opened with, until it is
    closed. Along any run without a [coro_bus_channel_close] of the
    handle [h], whatever else is called with [h] or any other handle, a
    live channel of [h] stays in its slot, its capacity is the same, its
    buffer never holds more messages than the capacity, and its
    generation is the same, so that a caller suspended on it finds it
    the same channel when it is resumed. *)
Theorem channel_lives_until_closed tr : forall w h ch,
  reachable w -> Forall event_ok tr -> Forall (fun e => ~ closes h e) tr ->
  0 <= h -> slot (Z.to_nat h) (bus w) = Some ch ->
  exists ch',
    slot (Z.to_nat h) (bus (run_all tr w)) = Some ch' /\
    size_limit ch' = size_limit ch /\
    Z.of_nat (length (data ch')) <= size_limit ch /\
    channel_gens (bus (run_all tr w)) !! Z.to_nat h
    = channel_gens (bus w) !! Z.to_nat h /\
    same_channel BUS h (gen_of BUS h w) (run_all tr w) = true.
Proof.
  intros w h ch Hw Htr Hno Hh Hs.
  assert (exists ch',
    slot (Z.to_nat h) (bus (run_all tr w)) = Some ch' /\
    size_limit ch' = size_limit ch /\
    channel_gens (bus (run_all tr w)) !! Z.to_nat h
    = channel_gens (bus w) !! Z.to_nat h) as (ch' & Hs' & Hl & Hg).
  { revert w ch Hw Htr Hno Hs.
    induction tr as [|e tr IH]; intros w ch Hw Htr Hno Hs.
    { by exists ch. }
    inversion Htr as [|? ? He Htr']; subst.
    inversion Hno as [|? ? Hne Hno']; subst.
    destruct (run_kept h e w (reachable_ok w Hw) He Hne Hh ch Hs)
      as (ch1 & Hs1 & Hl1 & Hg1).
    destruct (IH (run e w).2 ch1) as (ch' & Hs' & Hl' & Hg');
      [by apply reach_step|done..|].
    exists ch'. cbn [run_all]. split_and!; [done|congruence|congruence]. }
  assert (reachable (run_all tr w)) as Hw' by by apply reachable_run_all.
  exists ch'. split_and!; [done..| |done|].
  - rewrite <- Hl. by eapply (reachable_ok _ Hw').
  - apply same_channel_true. split.
    + exists ch'. by apply resolve_Some.
    + assert (resolve BUS h w = Some ch) as H by by apply resolve_Some.
      assert (resolve BUS h (run_all tr w) = Some ch') as H'
        by by apply resolve_Some.
      pose proof (gen_of_live _ _ _ _ (reachable_ok _ Hw) H) as Hg1.
      pose proof (gen_of_live _ _ _ _ (reachable_ok _ Hw') H') as Hg2.
      congruence.
Qed.

Lemma channel_lives_until_closed_witness :
  exists ch',
    slot 0 (bus (run_all [EvTryRecv BUS 0; EvSend 1%nat BUS 0 8;
                          EvSend 2%nat BUS 0 9; EvChannelOpen BUS 4]
                   one_full_channel)) = Some ch' /\
    size_limit ch' = 1.
Proof.
  assert (reachable one_full_channel) as Hw.
  { apply reachable_run_all; [apply reach_new|].
    repeat constructor; cbn; unfold is_size_t, SIZE_BITS; lia. }
  destruct (channel_lives_until_closed
              [EvTryRecv BUS 0; EvSend 1%nat BUS 0 8;
               EvSend 2%nat BUS 0 9; EvChannelOpen BUS 4]
              one_full_channel 0 (mk_channel 1 [] [] [7]) Hw)
    as (ch' & Hs & Hl & _).
  - repeat constructor; cbn; unfold is_size_t, SIZE_BITS; lia.
  - repeat constructor; cbn; tauto.
  - lia.
  - reflexivity.
  - exists ch'. split; [exact Hs|exact Hl].
Defined.

(** ** Waiters are served in the order of their arrival *)

Lemma run_world_send this bp channel v w :
  (run (EvSend this bp channel v) w).2
  = (coro_bus_send this bp channel v w).2.
Proof. cbn [run]. unfold_M. by destruct (coro_bus_send _ _ _ _ _). Qed.

Lemma run_world_recv this bp channel w :
  (run (EvRecv this bp channel) w).2 = (coro_bus_recv this bp channel w).2.
Proof. cbn [run]. unfold_M. by destruct (coro_bus_recv _ _ _ _). Qed.

Lemma run_world_try_send bp channel v w :
  (run (EvTrySend bp channel v) w).2 = (coro_bus_try_send bp channel v w).2.
Proof. cbn [run]. unfold_M. by destruct (coro_bus_try_send _ _ _ _). Qed.

Lemma run_world_try_recv bp channel w :
  (run (EvTryRecv bp channel) w).2 = (coro_bus_try_recv bp channel w).2.
Proof. cbn [run]. unfold_M. by destruct (coro_bus_try_recv _ _ _). Qed.

Lemma take_1_take_drop {A} k (l : list A) :
  take 1 l ++ take k (drop 1 l) = take (S k) l.
Proof. destruct l as [|x l]; cbn; [by rewrite take_nil|done]. Qed.

Lemma senders_queue_up ss : forall w bp channel v ch,
  resolve bp channel w = Some ch -> is_full ch = true ->
  let w1 := run_all ((fun s => EvSend s bp channel v) <$> ss) w in
  resolve bp channel w1
  = Some (mk_channel (size_limit ch) (send_queue ch ++ ss) (recv_queue ch)
            (data ch)) /\
  woken w1 = woken w.
Proof.
  induction ss as [|s ss IH]; intros w bp channel v ch H Hf; cbv zeta.
  - cbn. rewrite app_nil_r. by destruct ch.
  - cbn [fmap list_fmap run_all]. rewrite run_world_send.
    rewrite (send_suspend _ _ _ _ _ _ H Hf). cbn [snd].
    edestruct (IH (upd (Z.to_nat channel) (linked SendQ s ch)
                     (set_err CORO_BUS_ERR_WOULD_BLOCK w))
                 bp channel v (linked SendQ s ch)) as [Hr Hw].
    + eapply resolve_upd. by rewrite resolve_set_err.
    + done.
    + rewrite Hr, Hw. split; [|done]. cbn. by rewrite <- app_assoc.
Qed.

Lemma receivers_queue_up rs : forall w bp channel ch,
  resolve bp channel w = Some ch -> data ch = [] ->
  let w1 := run_all ((fun r => EvRecv r bp channel) <$> rs) w in
  resolve bp channel w1
  = Some (mk_channel (size_limit ch) (send_queue ch) (recv_queue ch ++ rs)
            (data ch)) /\
  woken w1 = woken w.
Proof.
  induction rs as [|r rs IH]; intros w bp channel ch H Hd; cbv zeta.
  - cbn. rewrite app_nil_r. by destruct ch.
  - cbn [fmap list_fmap run_all]. rewrite run_world_recv.
    rewrite (recv_suspend _ _ _ _ _ H Hd). cbn [snd].
    edestruct (IH (upd (Z.to_nat channel) (linked RecvQ r ch)
                     (set_err CORO_BUS_ERR_WOULD_BLOCK w))
                 bp channel (linked RecvQ r ch)) as [Hr Hw].
    + eapply resolve_upd. by rewrite resolve_set_err.
    + done.
    + rewrite Hr, Hw. split; [|done]. cbn. by rewrite <- app_assoc.
Qed.

Lemma recvs_wake_senders k : forall w bp channel ch,
  resolve bp channel w = Some ch -> (k <= length (data ch))%nat ->
  let w2 := run_all (replicate k (EvTryRecv bp channel)) w in
  resolve bp channel w2 = Some (received_v k ch) /\
  woken w2 = woken w ++ take k (send_queue ch).
Proof.
  induction k as [|k IH]; intros w bp channel ch H Hk; cbv zeta.
  - cbn. rewrite app_nil_r. split; [|done].
    rewrite H. unfold received_v. rewrite !drop_0. by destruct ch.
  - cbn [replicate run_all]. rewrite run_world_try_recv.
    destruct (data ch) as [|x rest] eqn:Hd; [cbn in Hk; lia|].
    rewrite (try_recv_ok _ _ _ _ _ _ H Hd). cbn [snd].
    edestruct (IH (set_err CORO_BUS_ERR_NONE
                     (wake (take 1 (send_queue ch))
                        (upd (Z.to_nat channel) (received ch) w)))
                 bp channel (received ch)) as [Hr Hw].
    + rewrite resolve_set_err. erewrite resolve_bus; [|apply bus_wake].
      by eapply resolve_upd.
    + cbn. rewrite Hd. cbn in Hk |- *. rewrite drop_0. lia.
    + rewrite Hr, Hw. split.
      * unfold received_v, received. cbn. by rewrite !drop_drop.
      * unfold set_err, wake, upd; cbn. rewrite <- app_assoc.
        by rewrite take_1_take_drop.
Qed.

Lemma sends_wake_receivers vs : forall w bp channel ch,
  resolve bp channel w = Some ch ->
  Z.of_nat (length (data ch)) + Z.of_nat (length vs) <= size_limit ch ->
  let w2 := run_all ((fun v => EvTrySend bp channel v) <$> vs) w in
  resolve bp channel w2
  = Some (mk_channel (size_limit ch) (send_queue ch)
            (drop (length vs) (recv_queue ch)) (data ch ++ vs)) /\
  woken w2 = woken w ++ take (length vs) (recv_queue ch).
Proof.
  induction vs as [|v vs IH]; intros w bp channel ch H Hroom; cbv zeta.
  - cbn. rewrite !app_nil_r. by destruct ch.
  - cbn [fmap list_fmap run_all]. rewrite run_world_try_send.
    assert (is_full ch = false) as Hf.
    { unfold is_full. rewrite Z.geb_leb. apply Z.leb_gt.
      cbn [length] in Hroom. lia. }
    rewrite (try_send_ok _ _ _ _ _ H Hf). cbn [snd].
    edestruct (IH (set_err CORO_BUS_ERR_NONE
                     (wake (take 1 (recv_queue ch))
                        (upd (Z.to_nat channel) (sent v ch) w)))
                 bp channel (sent v ch)) as [Hr Hw].
    + rewrite resolve_set_err. erewrite resolve_bus; [|apply bus_wake].
      by eapply resolve_upd.
    + cbn. rewrite length_app. cbn [length] in Hroom |- *. lia.
    + rewrite Hr, Hw. split.
      * cbn. rewrite drop_drop, <- app_assoc. done.
      * unfold set_err, wake, upd; cbn. rewrite <- app_assoc.
        by rewrite take_1_take_drop.
Qed.

(** X19. Waiters are woken in the order in which they suspended. When the
    coroutines [ss] call [coro_bus_send] one after the other on a full
    live channel, each suspends, and they queue up behind the senders
    already waiting; [k] calls of [coro_bus_try_recv] that follow (the
    buffer holds at least [k] messages) wake exactly the first [k] of
    the waiting senders, oldest first. In the same way the coroutines
    [rs] that call [coro_bus_recv] on an empty live channel queue up
    behind the receivers already waiting, and the calls of
    [coro_bus_try_send] that follow, as long as they fit into the
    capacity, wake one receiver each, oldest first. *)
Theorem waiters_woken_in_arrival_order w bp channel ch :
  resolve bp channel w = Some ch ->
  (forall ss v k,
     is_full ch = true -> (k <= length (data ch))%nat ->
     let w1 := run_all ((fun s => EvSend s bp channel v) <$> ss) w in
     let w2 := run_all (replicate k (EvTryRecv bp channel)) w1 in
     woken w2 = woken w ++ take k (send_queue ch ++ ss) /\
     exists ch2,
       resolve bp channel w2 = Some ch2 /\
       send_queue ch2 = drop k (send_queue ch ++ ss) /\
       data ch2 = drop k (data ch)) /\
  (forall rs vs,
     data ch = [] -> Z.of_nat (length vs) <= size_limit ch ->
     let w1 := run_all ((fun r => EvRecv r bp channel) <$> rs) w in
     let w2 := run_all ((fun v => EvTrySend bp channel v) <$> vs) w1 in
     woken w2 = woken w ++ take (length vs) (recv_queue ch ++ rs) /\
     exists ch2,
       resolve bp channel w2 = Some ch2 /\
       recv_queue ch2 = drop (length vs) (recv_queue ch ++ rs) /\
       data ch2 = vs).
Proof.
  intros H. split.
  - intros ss v k Hf Hk. cbv zeta.
    destruct (senders_queue_up ss w bp channel v ch H Hf) as [Hr1 Hw1].
    edestruct (recvs_wake_senders k _ bp channel _ Hr1) as [Hr2 Hw2];
      [done|].
    rewrite Hw2, Hw1. split; [done|]. eexists. split; [exact Hr2|done].
  - intros rs vs Hd Hroom. cbv zeta.
    destruct (receivers_queue_up rs w bp channel ch H Hd) as [Hr1 Hw1].
    edestruct (sends_wake_receivers vs _ bp channel _ Hr1) as [Hr2 Hw2].
    { cbn. rewrite Hd. cbn. lia. }
    rewrite Hw2, Hw1. split; [done|]. eexists. split; [exact Hr2|].
    cbn. by rewrite Hd.
Qed.

Lemma waiters_woken_in_arrival_order_witness :
  woken (run_all (replicate 1 (EvTryRecv BUS 0))
           (run_all ((fun s => EvSend s BUS 0 8) <$> [4%nat; 2%nat; 6%nat])
              one_full_channel))
  = woken one_full_channel ++ take 1 ([] ++ [4%nat; 2%nat; 6%nat]).
Proof.
  apply (proj1 (waiters_woken_in_arrival_order one_full_channel BUS 0
                  (mk_channel 1 [] [] [7]) eq_refl)
           [4%nat; 2%nat; 6%nat] 8 1%nat eq_refl).
  cbn. lia.
Defined.

(** ** A broadcast is a send to every channel *)

Lemma sends_from_eq n : forall i v w,
  (i + n = length (channels (bus w)))%nat ->
  (forall j ch, (i <= j)%nat -> channels (bus w) !! j = Some (Some ch) ->
     is_full ch = false) ->
  let w' := run_all ((fun j => EvTrySend BUS (Z.of_nat j) v) <$> seq i n) w in
  bus w'
  = mk_bus (take i (channels (bus w))
            ++ (sent_slot v <$> drop i (channels (bus w))))
      (channel_gens (bus w)) /\
  woken w' = woken w ++ first_receivers (drop i (channels (bus w))).
Proof.
  induction n as [|n IH]; intros i v w Hlen Hfree; cbv zeta.
  - cbn. rewrite drop_ge by lia. rewrite take_ge by lia. cbn.
    rewrite !app_nil_r. by rewrite bus_eta.
  - cbn [seq fmap list_fmap run_all]. rewrite run_world_try_send.
    destruct (lookup_lt_is_Some_2 (channels (bus w)) i) as [o Ho]; [lia|].
    rewrite (drop_S _ _ _ Ho). destruct o as [ch|].
    + assert (slot i (bus w) = Some ch) as Hs by by apply slot_Some_lookup.
      assert (resolve BUS (Z.of_nat i) w = Some ch) as H.
      { apply resolve_Some. rewrite Nat2Z.id. split_and!; [done|lia|done]. }
      rewrite (try_send_ok _ _ _ _ _ H (Hfree i ch (le_n i) Ho)).
      cbn [snd]. rewrite Nat2Z.id.
      edestruct (IH (S i) v
                   (set_err CORO_BUS_ERR_NONE
                      (wake (take 1 (recv_queue ch))
                         (upd i (sent v ch) w)))) as [Hb Hw].
      * unfold set_err, wake, upd; cbn. rewrite length_insert. lia.
      * intros j chj Hj. unfold set_err, wake, upd; cbn.
        rewrite list_lookup_insert_ne by lia. apply Hfree. lia.
      * rewrite Hb, Hw. unfold set_err, wake, upd; cbn.
        rewrite drop_insert_lt by lia.
        rewrite (take_S_r _ _ (Some (sent v ch)))
          by (apply list_lookup_insert_eq; lia).
        rewrite take_insert_ge by lia.
        unfold first_receivers; cbn. rewrite <- !app_assoc. done.
    + assert (resolve BUS (Z.of_nat i) w = None) as H.
      { apply resolve_None. do 3 right. rewrite Nat2Z.id.
        unfold slot. by rewrite Ho. }
      rewrite (try_send_no_channel _ _ _ _ H). cbn [snd].
      edestruct (IH (S i) v (set_err CORO_BUS_ERR_NO_CHANNEL w))
        as [Hb Hw].
      * rewrite bus_set_err. lia.
      * intros j chj Hj. rewrite bus_set_err. apply Hfree. lia.
      * rewrite Hb, Hw. rewrite bus_set_err. rewrite (take_S_r _ _ _ Ho).
        unfold first_receivers; cbn. rewrite <- !app_assoc. done.
Qed.

(** X20. A [coro_bus_try_broadcast] that returns 0 does what a
    [coro_bus_try_send] of the same value to every slot of the table
    does, taken in index order: the table is the same afterwards, and
    the same receivers were woken in the same order. (The sends to NULL
    slots fail with NO_CHANNEL and change nothing; only the error code
    can differ at the end.) *)
Theorem try_broadcast_is_send_to_each v w :
  (coro_bus_try_broadcast BUS v w).1 = 0 ->
  let sends :=
    (fun j => EvTrySend BUS (Z.of_nat j) v)
      <$> seq 0 (length (channels (bus w))) in
  bus (run_all sends w) = bus (coro_bus_try_broadcast BUS v w).2 /\
  woken (run_all sends w) = woken (coro_bus_try_broadcast BUS v w).2.
Proof.
  rewrite try_broadcast_eq.
  destruct (broadcast_scan _ _ _) eqn:Hscan; [done..|]. intros _. cbv zeta.
  destruct (sends_from_eq (length (channels (bus w))) 0 v w) as [Hb Hw].
  - lia.
  - intros j ch _ Hj. apply broadcast_scan_free in Hscan as [Hall _].
    by eapply Hall.
  - rewrite Hb, Hw. by rewrite drop_0.
Qed.

Lemma try_broadcast_is_send_to_each_witness :
  bus (run_all [EvTrySend BUS 0 5; EvTrySend BUS 1 5; EvTrySend BUS 2 5]
         three_channels_drained)
  = bus (coro_bus_try_broadcast BUS 5 three_channels_drained).2.
Proof.
  apply (try_broadcast_is_send_to_each 5 three_channels_drained eq_refl).
Defined.

(** ** Handles of a new bus *)

Lemma first_null_app_live chs ch : forall k,
  first_null chs k = None -> first_null (chs ++ [Some ch]) k = None.
Proof.
  induction chs as [|[ch0|] chs IH]; intros k H; cbn in *; [done| |done].
  by apply IH.
Qed.

Lemma opens_append sizes : forall w,
  first_null (channels (bus w)) 0 = None ->
  run_replies (EvChannelOpen BUS <$> sizes) w
  = (fun i => RInt (Z.of_nat i))
      <$> seq (length (channels (bus w))) (length sizes) /\
  bus (run_all (EvChannelOpen BUS <$> sizes) w)
  = mk_bus (channels (bus w) ++ ((fun s => Some (channel_init s)) <$> sizes))
      (channel_gens (bus w) ++ replicate (length sizes) 1).
Proof.
  induction sizes as [|s sizes IH]; intros w Hn.
  - cbn. rewrite !app_nil_r. by rewrite bus_eta.
  - cbn [fmap list_fmap run_replies run_all length seq replicate].
    assert (run (EvChannelOpen BUS s) w
            = (RInt (Z.of_nat (length (channels (bus w)))),
               set_err CORO_BUS_ERR_NONE (grown s w))) as Hrun.
    { cbn [run]. unfold_M. by rewrite (channel_open_grow _ _ Hn). }
    rewrite Hrun. cbn [fst snd].
    destruct (IH (set_err CORO_BUS_ERR_NONE (grown s w))) as [Hr Hb].
    { rewrite bus_set_err. unfold grown; cbn. by apply first_null_app_live. }
    rewrite Hr, Hb. rewrite bus_set_err. unfold grown; cbn.
    rewrite length_app, <- !app_assoc. cbn.
    by rewrite Nat.add_1_r.
Qed.

(** X21. [coro_bus_new] gives a bus with no channel and the error code NONE,
    whatever was there before: no handle resolves on it. The channels
    opened on it one after the other, none being closed, get the
    handles 0, 1, 2, ... in this order, each with its own capacity, an
    empty buffer, no waiter and the generation 1. *)
Theorem new_bus_handles_are_dense w sizes :
  let w0 := (coro_bus_new w).2 in
  global_error w0 = CORO_BUS_ERR_NONE /\
  woken w0 = woken w /\
  (forall channel, resolve BUS channel w0 = None) /\
  run_replies (EvChannelOpen BUS <$> sizes) w0
  = (fun i => RInt (Z.of_nat i)) <$> seq 0 (length sizes) /\
  bus (run_all (EvChannelOpen BUS <$> sizes) w0)
  = mk_bus ((fun s => Some (mk_channel s [] [] [])) <$> sizes)
      (replicate (length sizes) 1).
Proof.
  cbv zeta. split_and!; [done|done| |..].
  - intros channel. apply resolve_None. do 3 right.
    done.
  - by destruct (opens_append sizes (coro_bus_new w).2 eq_refl) as [-> _].
  - by destruct (opens_append sizes (coro_bus_new w).2 eq_refl) as [_ ->].
Qed.
